(** * ProFlex Draw: the gas-piping validation engine

    A shallow embedding of the validation core of ProFlex Draw
    (the capacity formula, the downstream-demand recursion, the per-edge
    validation pass and the edge-addition guard) together with the
    properties its design document states about them.

    The repository holds two generations of the application component:
    - [AppV1]: the [App] of [src/unnamed/part_002] (capacity check and
      sizing-order check, guarded [handleAddEdge], no length guard);
    - [AppV2]: the [App] of [src/App.tsx] (length guard, capacity check only,
      unguarded [onAddEdge]); [src/unnamed/part_001] has the same core.
    [getFlow] is the same text in both.

    Around the core, the handlers that edit the drawing ([handleAddNode],
    [updateNode], [updateEdge], [handleDeleteEdge], [handleDeleteNode]), the
    summary, the list of violations, the list of recent projects and the
    part of the canvas that reads the verdicts are embedded as well
    ([HandlersV1], [HandlersV2], [CanvasV1]), with what they keep true of a
    drawing.

    JavaScript numbers are kept abstract behind the interface [JSNumber];
    it is instantiated with IEEE binary64 ([float_number]) for evaluation and
    with exact reals ([real_number]) for the analytic facts about the
    power law. *)

From Stdlib Require Import ZArith QArith Reals Lra Lia Floats String List Bool.
From Stdlib Require Import Relations ListDec.
From stdpp Require Import gmap strings.

Set Default Proof Using "Type".

(** ** JavaScript numbers *)

(** The operations on [number] that the validation core uses. *)
Class JSNumber (num : Type) := {
  lit : Q -> num;                  (* a decimal literal of the source text *)
  add : num -> num -> num;         (* a + b *)
  mul : num -> num -> num;         (* a * b *)
  div : num -> num -> num;         (* a / b *)
  le : num -> num -> bool;         (* a <= b *)
  gt : num -> num -> bool;         (* a > b *)
  eqn : num -> num -> bool;        (* a == b *)
  Math_pow : num -> num -> num;
  Math_floor : num -> num
}.

Declare Scope js_scope.
Delimit Scope js_scope with js.
Notation "a + b" := (add a b) : js_scope.
Notation "a * b" := (mul a b) : js_scope.
Notation "a / b" := (div a b) : js_scope.
Notation "a <= b" := (le a b) : js_scope.
Notation "a > b" := (gt a b) : js_scope.
Notation "a == b" := (eqn a b) (at level 70) : js_scope.
Notation "# q" := (lit q%Q) (at level 9, q at level 9, format "# q") : js_scope.

(** ** Data model ([types.ts]) *)

Inductive NodeType := METER | JUNCTION | MANIFOLD | APPLIANCE.

Inductive PipeSize :=
  THREE_EIGHTHS | HALF | THREE_QUARTERS | ONE | ONE_AND_QUARTER.

Definition NodeType_eqb (a b : NodeType) : bool :=
  match a, b with
  | METER, METER | JUNCTION, JUNCTION
  | MANIFOLD, MANIFOLD | APPLIANCE, APPLIANCE => true
  | _, _ => false
  end.

Definition PipeSize_eqb (a b : PipeSize) : bool :=
  match a, b with
  | THREE_EIGHTHS, THREE_EIGHTHS | HALF, HALF
  | THREE_QUARTERS, THREE_QUARTERS | ONE, ONE
  | ONE_AND_QUARTER, ONE_AND_QUARTER => true
  | _, _ => false
  end.

Section DataModel.
Context {num : Type}.

Record PipeData := {
  pipe_size : PipeSize;
  coeff : num;       (* Constant1 in the flow formula *)
  exp : num;         (* Constant2 in the flow formula *)
  pipe_capacity : num (* nominal capacity, display only *)
}.

Record AppNode := {
  node_id : string;
  node_type : NodeType;
  node_x : num;
  node_y : num;
  node_name : string;
  node_btu : num     (* only for appliances *)
}.

Record AppEdge := {
  edge_id : string;
  edge_from : string;
  edge_to : string;
  edge_size : PipeSize;
  edge_length : num  (* feet *)
}.
End DataModel.
Arguments PipeData : clear implicits.
Arguments AppNode : clear implicits.
Arguments AppEdge : clear implicits.

(** ** Configuration data ([constants.ts]) *)

Section Constants.
Context {num : Type} `{JSNumber num}.
Local Open Scope js_scope.

(** [PIPE_SPECS[size]]: every member of [PipeSize] has an entry. *)
Definition PIPE_SPECS (size : PipeSize) : option (PipeData num) :=
  Some match size with
  | THREE_EIGHTHS =>
      {| pipe_size := THREE_EIGHTHS; coeff := #0.00002158927;
         exp := #2.02558185; pipe_capacity := #46000 |}
  | HALF =>
      {| pipe_size := HALF; coeff := #0.00000410606;
         exp := #2.1590935; pipe_capacity := #77000 |}
  | THREE_QUARTERS =>
      {| pipe_size := THREE_QUARTERS; coeff := #0.00000123682;
         exp := #2.00156167; pipe_capacity := #200000 |}
  | ONE =>
      {| pipe_size := ONE; coeff := #0.0000010746;
         exp := #1.77654817; pipe_capacity := #423000 |}
  | ONE_AND_QUARTER =>
      {| pipe_size := ONE_AND_QUARTER; coeff := #1.1678553403503E-07;
         exp := #1.992081557687; pipe_capacity := #662000 |}
  end.

Definition PIPE_ORDER : list PipeSize :=
  [THREE_EIGHTHS; HALF; THREE_QUARTERS; ONE; ONE_AND_QUARTER].
End Constants.

(** [Array.prototype.indexOf]: the first position of [x], or [-1]. *)
Fixpoint indexOf {A} (eqb : A -> A -> bool) (l : list A) (x : A) : Z :=
  match l with
  | [] => (-1)%Z
  | y :: l' =>
      if eqb y x then 0%Z
      else let i := indexOf eqb l' x in
           if (i <? 0)%Z then (-1)%Z else (i + 1)%Z
  end.

(** ** Application state and the validation pass *)

(** The pieces of a diagnostic message.  The source builds the message with
    template literals; [Localized n] stands for [n.toLocaleString()], whose
    text depends on the locale of the host, and [SizeName p] for the string
    value of the enum member [p]. *)
Inductive fragment {num : Type} :=
  | Text (s : string)
  | Localized (n : num)
  | SizeName (p : PipeSize).
Arguments fragment : clear implicits.

Section State.
Context {num : Type}.

(** An entry of the [validation] record. *)
Record Verdict := {
  isValid : bool;
  flow : num;
  capacity : num;
  error : option (list (fragment num))
}.

(** The React state the core reads and writes. *)
Record AppState := {
  nodes : list (AppNode num);
  edges : list (AppEdge num);
  pressureDrop : num;
  selectedPipeSize : PipeSize;
  validation : gmap string Verdict;
  selectedId : option string
}.

(** The [validation] record is a plain object filled by
    [results[edge.id] = ...].  For every id but [__proto__] the assignment
    adds (or overwrites) the own key [id].  For the id [__proto__] it goes
    through the accessor inherited from [Object.prototype]: the verdict
    becomes the prototype of [results], no own key is added, and reading
    [results[edge.id]] gives the verdict back.  The map of the model holds
    that prototype under the key [__proto__], so that reading an assigned id
    is a lookup for every id; [Object_keys] are the own keys, which is what
    [Object.keys] and [Object.entries] enumerate. *)
Definition Object_keys (results : gmap string Verdict) : gset string :=
  dom results ∖ {["__proto__"]}.

Definition setValidation (results : gmap string Verdict) (s : AppState)
  : AppState :=
  {| nodes := nodes s; edges := edges s; pressureDrop := pressureDrop s;
     selectedPipeSize := selectedPipeSize s; validation := results;
     selectedId := selectedId s |}.

Definition setEdges (es : list (AppEdge num)) (s : AppState) : AppState :=
  {| nodes := nodes s; edges := es; pressureDrop := pressureDrop s;
     selectedPipeSize := selectedPipeSize s; validation := validation s;
     selectedId := selectedId s |}.

Definition setSelectedId (i : option string) (s : AppState) : AppState :=
  {| nodes := nodes s; edges := edges s; pressureDrop := pressureDrop s;
     selectedPipeSize := selectedPipeSize s; validation := validation s;
     selectedId := i |}.
End State.
Arguments Verdict : clear implicits.
Arguments AppState : clear implicits.

(** [forEach] with a body that may throw: [None] is the exception, which
    ends the loop. *)
Fixpoint forEach {A S : Type} (l : list A) (body : S -> A -> option S) (s : S)
  : option S :=
  match l with
  | [] => Some s
  | a :: l' =>
      match body s a with
      | None => None
      | Some s' => forEach l' body s'
      end
  end.

Section GetFlow.
Context {num : Type} `{JSNumber num}.
Variable nodes : list (AppNode num).
Variable edges : list (AppEdge num).
Local Open Scope js_scope.

(** [getFlow] (the same text in [src/unnamed/part_002], lines 43-61, and
    [src/App.tsx], lines 91-100).  [depth] is the number of nested calls
    the call stack still admits; [None] is the [RangeError] of an
    exhausted stack. *)
Fixpoint getFlow (depth : nat) (edgeId : string) : option num :=
  match depth with
  | O => None
  | S depth' =>
      match List.find (fun e => String.eqb (edge_id e) edgeId) edges with
      | None => Some #0
      | Some edge =>
          match List.find (fun n => String.eqb (node_id n) (edge_to edge))
                          nodes with
          | None => Some #0
          | Some targetNode =>
              let flow := #0 in
              let flow :=
                if NodeType_eqb (node_type targetNode) APPLIANCE
                then flow + node_btu targetNode else flow in
              let outboundEdges :=
                List.filter
                  (fun e => String.eqb (edge_from e) (node_id targetNode))
                  edges in
              forEach outboundEdges
                (fun flow out =>
                   match getFlow depth' (edge_id out) with
                   | None => None
                   | Some f => Some (flow + f)
                   end)
                flow
          end
      end
  end.
End GetFlow.

(** ** The application component of [src/unnamed/part_002] *)

Module AppV1.
Section App.
Context {num : Type} `{JSNumber num}.
Local Open Scope js_scope.

(** [calculateCapacity], lines 29-37; [pressureDrop] is the state the
    callback closes over. *)
Definition calculateCapacity (pressureDrop : num)
    (size : PipeSize) (length : num) : num :=
  match PIPE_SPECS size with
  | None => #0
  | Some spec =>
      let cfh := Math_pow ((pressureDrop / length) / coeff spec)
                          (#1 / exp spec) in
      Math_floor cfh * #1000
  end.

Definition capacityMessage (flow capacity : num) : list (fragment num) :=
  [Text "Capacity Exceeded: "; Localized flow; Text " > ";
   Localized capacity;
   Text " BTU. Try shorter length or larger pipe."].

Definition sizingMessage (branch feeder : PipeSize) : list (fragment num) :=
  [Text "Sizing violation: Branch pipe ("; SizeName branch;
   Text ") cannot be larger than feeder ("; SizeName feeder; Text ")."].

(** The body of [edges.forEach(edge => ...)], lines 63-86; for the
    assignment [results[edge.id] = ...] see [Object_keys]. *)
Definition validateEdge (s : AppState num) (depth : nat)
    (results : gmap string (Verdict num)) (edge : AppEdge num)
  : option (gmap string (Verdict num)) :=
  match getFlow (nodes s) (edges s) depth (edge_id edge) with
  | None => None
  | Some flow =>
      let capacity :=
        calculateCapacity (pressureDrop s) (edge_size edge)
                          (edge_length edge) in
      let isValid := true in
      let error := None in
      let '(isValid, error) :=
        if flow > capacity
        then (false, Some (capacityMessage flow capacity))
        else (isValid, error) in
      let upstreamEdge :=
        List.find (fun e => String.eqb (edge_to e) (edge_from edge))
                  (edges s) in
      let '(isValid, error) :=
        match upstreamEdge with
        | Some upstreamEdge =>
            let upIndex :=
              indexOf PipeSize_eqb PIPE_ORDER (edge_size upstreamEdge) in
            let currentIndex :=
              indexOf PipeSize_eqb PIPE_ORDER (edge_size edge) in
            if (currentIndex >? upIndex)%Z
            then (false,
                  Some match error with
                       | Some error =>
                           error ++ Text " " ::
                             sizingMessage (edge_size edge)
                                           (edge_size upstreamEdge)
                       | None =>
                           sizingMessage (edge_size edge)
                                         (edge_size upstreamEdge)
                       end)
            else (isValid, error)
        | None => (isValid, error)
        end in
      Some (<[edge_id edge :=
               {| isValid := isValid; flow := flow; capacity := capacity;
                  error := error |}]> results)
  end.

(** [validateSystem], lines 40-89: a fresh [results] record is filled and
    handed to [setValidation]. *)
Definition validateSystem (depth : nat) (s : AppState num)
  : option (AppState num) :=
  match forEach (edges s) (validateEdge s depth) ∅ with
  | None => None
  | Some results => Some (setValidation results s)
  end.

(** [handleAddEdge], lines 142-173.  [newId] is the identifier drawn from
    [Math.random]; the [alert] calls have no effect on the state. *)
Definition handleAddEdge (newId fromId toId : string) (s : AppState num)
  : AppState num :=
  if String.eqb fromId toId then s
  else
    match List.find (fun n => String.eqb (node_id n) fromId) (nodes s) with
    | None => s
    | Some fromNode =>
        match List.find (fun e => String.eqb (edge_to e) toId) (edges s) with
        | Some _ => s
        | None =>
            if NodeType_eqb (node_type fromNode) JUNCTION &&
               (2 <=? List.length
                        (List.filter
                           (fun e => String.eqb (edge_from e) fromId)
                           (edges s)))%nat
            then s
            else if NodeType_eqb (node_type fromNode) APPLIANCE then s
            else
              let newEdge :=
                {| edge_id := newId; edge_from := fromId; edge_to := toId;
                   edge_size := selectedPipeSize s; edge_length := #10 |} in
              setSelectedId (Some (edge_id newEdge))
                (setEdges (edges s ++ [newEdge]) s)
        end
    end.
End App.
End AppV1.

(** ** The application component of [src/App.tsx] *)

Module AppV2.
Section App.
Context {num : Type} `{JSNumber num}.
Local Open Scope js_scope.

(** [calculateCapacity], lines 82-87. *)
Definition calculateCapacity (pressureDrop : num)
    (size : PipeSize) (length : num) : num :=
  match PIPE_SPECS size with
  | None => #0
  | Some spec =>
      if length <= #0 then #0
      else
        let cfh := Math_pow ((pressureDrop / length) / coeff spec)
                            (#1 / exp spec) in
        Math_floor cfh * #1000
  end.

(** The body of [edges.forEach(edge => ...)], lines 101-106; the entry has
    no [error] key.  For the assignment [results[edge.id] = ...] see
    [Object_keys]: a drawing read by [handleImport] can hold any id. *)
Definition validateEdge (s : AppState num) (depth : nat)
    (results : gmap string (Verdict num)) (edge : AppEdge num)
  : option (gmap string (Verdict num)) :=
  match getFlow (nodes s) (edges s) depth (edge_id edge) with
  | None => None
  | Some flow =>
      let capacity :=
        calculateCapacity (pressureDrop s) (edge_size edge)
                          (edge_length edge) in
      let isValid := flow <= capacity in
      Some (<[edge_id edge :=
               {| isValid := isValid; flow := flow; capacity := capacity;
                  error := None |}]> results)
  end.

(** [validateSystem], lines 89-108. *)
Definition validateSystem (depth : nat) (s : AppState num)
  : option (AppState num) :=
  match forEach (edges s) (validateEdge s depth) ∅ with
  | None => None
  | Some results => Some (setValidation results s)
  end.

(** The [onAddEdge] handler passed to [Canvas], line 332. *)
Definition onAddEdge (newId f t : string) (s : AppState num)
  : AppState num :=
  setEdges
    (edges s ++
     [{| edge_id := newId; edge_from := f; edge_to := t;
         edge_size := selectedPipeSize s; edge_length := #10 |}])
    s.

(** The call site in [Canvas] ([src/unnamed/part_002], lines 870-883):
    with a source already picked, releasing over a node other than the
    source connects the two. *)
Definition connect (newId tapPipingSource targetId : string)
    (s : AppState num) : AppState num :=
  if existsb (fun n => String.eqb (node_id n) targetId) (nodes s)
  then if String.eqb tapPipingSource targetId then s
       else onAddEdge newId tapPipingSource targetId s
  else s.
End App.
End AppV2.

(** ** IEEE binary64 numbers *)

Module JSFloat.
Local Open Scope float_scope.

(** The double nearest to an integer (exact below [2^53]). *)
Definition of_Z (z : Z) : float :=
  SF2Prim (binary_normalize prec emax z 0 false).

(** A decimal literal [n / 10^k] with [n] and [10^k] representable is the
    correctly rounded quotient of the two. *)
Definition of_Q (q : Q) : float := of_Z (Qnum q) / of_Z (Zpos (Qden q)).

(** The integer a finite, integral double stands for. *)
Definition integral (x : float) : option Z :=
  match Prim2SF x with
  | S754_zero _ => Some 0%Z
  | S754_finite s m e =>
      let z := if s then Zneg m else Zpos m in
      if (0 <=? e)%Z then Some (Z.shiftl z e)
      else if (Z.land (Zpos m) (Z.ones (- e)) =? 0)%Z
           then Some (Z.shiftr z (- e)) else None
  | _ => None
  end.

Definition is_integral (x : float) : bool :=
  match integral x with Some _ => true | None => false end.

Definition odd_integer (x : float) : bool :=
  match integral x with Some z => Z.odd z | None => false end.

(** [Math.floor]: the largest integral double not above [x]; zeros,
    infinities and NaN are returned unchanged. *)
Definition floor (x : float) : float :=
  match Prim2SF x with
  | S754_finite s m e =>
      if (0 <=? e)%Z then x
      else of_Z (Z.shiftr (if s then Zneg m else Zpos m) (- e))
  | _ => x
  end.

(** *** [Math.pow]

    ECMAScript fixes the result of [Number::exponentiate] on zeros,
    infinities and NaN and on a negative base with a fractional exponent,
    and leaves the remaining case "an implementation-approximated value".
    [exponentiate] takes that approximation as a parameter; [pow_approx]
    is one such approximation, [exp (y * ln x)] with both functions
    evaluated by argument reduction and a truncated series in binary64.
    It is within a few units in the last place of the exact power and is
    not the [Math.pow] of any particular host: where the exact power lies
    that close to a whole number, the floor under it, and with it a
    capacity, can differ by one step from a host's.  The statements
    that hold for every approximation take [approx] as a parameter;
    [pow_approx] serves to evaluate examples. *)

Definition ln2_hi := 0x1.62e42fee00000p-1.
Definition ln2_lo := 0x1.a39ef35793c76p-33.
Definition inv_ln2 := 0x1.71547652b82fep+0.
Definition sqrt_half := 0x1.6a09e667f3bcdp-1.

(** [sum_{k < n} c k * s^k] by Horner's rule, highest term first. *)
Fixpoint horner (c : nat -> float) (n : nat) (s acc : float) : float :=
  match n with
  | O => acc
  | S n' => horner c n' s (acc * s + c n')
  end.

(** [ln a] for finite [a > 0]: [a = m * 2^e] with [m] near 1 and
    [ln m = 2 atanh ((m-1)/(m+1))]. *)
Definition ln_approx (a : float) : float :=
  let (m0, e0) := Z.frexp a in
  let (m, e) := if m0 <? sqrt_half then (m0 * 2, (e0 - 1)%Z) else (m0, e0) in
  let z := (m - 1) / (m + 1) in
  let p := horner (fun k => 1 / of_Z (2 * Z.of_nat k + 1)) 14 (z * z) 0 in
  of_Z e * ln2_hi + (2 * z * p + of_Z e * ln2_lo).

(** [exp t] for finite [t]: [t = k ln 2 + r] with [|r| <= ln 2 / 2]. *)
Fixpoint inv_fact (k : nat) : float :=
  match k with
  | O => 1
  | S k' => inv_fact k' / of_Z (Z.of_nat k)
  end.

Definition exp_approx (t : float) : float :=
  if 710 <? t then infinity
  else if t <? -746 then 0
  else
    let kf := floor (t * inv_ln2 + 0.5) in
    let r := (t - kf * ln2_hi) - kf * ln2_lo in
    let p := horner inv_fact 16 r 0 in
    match integral kf with
    | Some k => Z.ldexp p k
    | None => nan
    end.

Definition pow_approx (x y : float) : float :=
  let v := exp_approx (y * ln_approx (abs x)) in
  if (x <? 0) && odd_integer y then - v else v.

(** [Number::exponentiate (base, exponent)], step by step. *)
Definition exponentiate (approx : float -> float -> float)
    (base exponent : float) : float :=
  if is_nan exponent then nan
  else if exponent =? 0 then 1
  else if is_nan base then nan
  else if base =? infinity then (if 0 <? exponent then infinity else 0)
  else if base =? neg_infinity then
    if 0 <? exponent
    then (if odd_integer exponent then neg_infinity else infinity)
    else (if odd_integer exponent then neg_zero else 0)
  else if base =? 0 then
    if get_sign base then
      if 0 <? exponent
      then (if odd_integer exponent then neg_zero else 0)
      else (if odd_integer exponent then neg_infinity else infinity)
    else (if 0 <? exponent then 0 else infinity)
  else if exponent =? infinity then
    if 1 <? abs base then infinity
    else if abs base =? 1 then nan else 0
  else if exponent =? neg_infinity then
    if 1 <? abs base then 0
    else if abs base =? 1 then nan else infinity
  else if (base <? 0) && negb (is_integral exponent) then nan
  else approx base exponent.

Definition pow : float -> float -> float := exponentiate pow_approx.
End JSFloat.

(** Binary64 arithmetic with [Math.pow] completed by an approximation of
    the case ECMAScript leaves open. *)
Definition float_number_with (approx : float -> float -> float)
  : JSNumber float := {|
  lit := JSFloat.of_Q;
  add := PrimFloat.add;
  mul := PrimFloat.mul;
  div := PrimFloat.div;
  le := PrimFloat.leb;
  gt := fun a b => PrimFloat.ltb b a;
  eqn := PrimFloat.eqb;
  Math_pow := JSFloat.exponentiate approx;
  Math_floor := JSFloat.floor
|}.

#[export] Instance float_number : JSNumber float :=
  float_number_with JSFloat.pow_approx.


(** ** Exact real numbers *)

(** The arithmetic of the formula without rounding.  The reals have no NaN
    and no infinities, so this instance agrees with the meaning of the source
    only where every division has a non-zero divisor and [Math.pow] has a
    non-negative base, and then up to the rounding of binary64, which can
    move a value across a whole number or across a threshold it nearly
    equals; the statements made about it carry those conditions and say
    that they are about exact arithmetic. *)
#[export] Instance real_number : JSNumber R := {|
  lit := Q2R;
  add := Rplus;
  mul := Rmult;
  div := Rdiv;
  le := fun a b => if Rle_dec a b then true else false;
  gt := fun a b => if Rgt_dec a b then true else false;
  eqn := fun a b => if Req_dec_T a b then true else false;
  Math_pow := fun x y => if Rlt_dec 0 x then Rpower x y else 0%R;
  Math_floor := fun x => IZR (Int_part x)
|}.

(** ** Sample networks *)

Module Samples.
Local Open Scope float_scope.

Definition node (id : string) (type : NodeType) (btu : float)
  : AppNode float :=
  {| node_id := id; node_type := type; node_x := 500; node_y := 500;
     node_name := id; node_btu := btu |}.

Definition pipe (id from to : string) (size : PipeSize) (length : float)
  : AppEdge float :=
  {| edge_id := id; edge_from := from; edge_to := to; edge_size := size;
     edge_length := length |}.

Definition state (ns : list (AppNode float)) (es : list (AppEdge float))
  : AppState float :=
  {| nodes := ns; edges := es; pressureDrop := 0.5;
     selectedPipeSize := HALF; validation := ∅; selectedId := None |}.

(** meter -> junction -> water heater, the branch larger than its feeder *)
Definition oversized_branch : AppState float :=
  state [node "M" METER 0; node "J" JUNCTION 0; node "A" APPLIANCE 40000]
        [pipe "e1" "M" "J" HALF 10; pipe "e2" "J" "A" THREE_QUARTERS 10].

(** a meter feeding a water heater, next to an unconnected junction *)
Definition meter_to_heater : AppState float :=
  state [node "M" METER 0; node "J" JUNCTION 0; node "A" APPLIANCE 40000]
        [pipe "e1" "M" "A" HALF 10].

(** two pipes feeding each other *)
Definition two_cycle : AppState float :=
  state [node "P" JUNCTION 0; node "Q" JUNCTION 0]
        [pipe "e1" "P" "Q" HALF 10; pipe "e2" "Q" "P" HALF 10].

(** a meter feeding a water heater, and a pipe whose far end is no node of
    the drawing *)
Definition dangling_pipe : AppState float :=
  state [node "M" METER 0; node "A" APPLIANCE 40000]
        [pipe "e1" "M" "A" HALF 10; pipe "e2" "M" "X" HALF 10].

(** a drawing as a file can hold it: the pipe has the id [__proto__] *)
Definition proto_pipe : AppState float :=
  state [node "M" METER 0; node "A" APPLIANCE 40000]
        [pipe "__proto__" "M" "A" HALF 10].
End Samples.

(** ** Vocabulary for the statements *)

Section Vocabulary.
Context {num : Type} `{JSNumber num}.
Variable nodes : list (AppNode num).
Variable edges : list (AppEdge num).
Local Open Scope js_scope.

(** [edges.find(e => e.id === edgeId)] *)
Definition lookupEdge (edgeId : string) : option (AppEdge num) :=
  List.find (fun e => String.eqb (edge_id e) edgeId) edges.

(** [nodes.find(n => n.id === nodeId)] *)
Definition lookupNode (nodeId : string) : option (AppNode num) :=
  List.find (fun n => String.eqb (node_id n) nodeId) nodes.

(** [edges.filter(e => e.from === nodeId)] *)
Definition outbound (nodeId : string) : list (AppEdge num) :=
  List.filter (fun e => String.eqb (edge_from e) nodeId) edges.

(** [edges.find(e => e.to === nodeId)], the feeder of a node *)
Definition feeder (nodeId : string) : option (AppEdge num) :=
  List.find (fun e => String.eqb (edge_to e) nodeId) edges.

(** The value of [flow] when the loop over the outbound edges starts. *)
Definition ownDemand (n : AppNode num) : num :=
  if NodeType_eqb (node_type n) APPLIANCE then #0 + node_btu n else #0.

(** The body of the loop over the outbound edges. *)
Definition addFlow (depth : nat) (flow : num) (out : AppEdge num)
  : option num :=
  match getFlow nodes edges depth (edge_id out) with
  | None => None
  | Some f => Some (flow + f)
  end.

(** [getFlow(edgeId)] returns [v] when the stack is deep enough. *)
Definition flows (edgeId : string) (v : num) : Prop :=
  exists depth, getFlow nodes edges depth edgeId = Some v.

(** The call [getFlow(a)] makes the call [getFlow(b)]. *)
Definition calls (a b : string) : Prop :=
  exists edge targetNode out,
    lookupEdge a = Some edge /\
    lookupNode (edge_to edge) = Some targetNode /\
    In out (outbound (node_id targetNode)) /\
    b = edge_id out.

(** The calls started by [getFlow(a)] reach a call that leads back to
    itself. *)
Definition cycleBelow (a : string) : Prop :=
  exists b, clos_refl_trans string calls a b /\ clos_trans string calls b b.

(** No call of [getFlow] leads back to itself. *)
Definition acyclic : Prop := forall a, ~ clos_trans string calls a a.

(** Pipe [e2] starts where pipe [e1] ends. *)
Definition continues (e1 e2 : AppEdge num) : Prop :=
  In e1 edges /\ In e2 edges /\ edge_to e1 = edge_from e2.

(** The pipes form no directed cycle. *)
Definition noPipeCycle : Prop :=
  forall e, ~ clos_trans (AppEdge num) continues e e.

(** A sequence of nested calls that starts from [getFlow(a)]. *)
Fixpoint callPath (a : string) (l : list string) : Prop :=
  match l with
  | [] => True
  | b :: l' => calls a b /\ callPath b l'
  end.

(** Node [b] is [a] or lies downstream of it. *)
Inductive downstream (a : string) : string -> Prop :=
  | downstream_here : downstream a a
  | downstream_step e :
      downstream a (edge_from e) -> In e edges -> downstream a (edge_to e).

(** Every appliance at or below node [a] has demand [== 0]. *)
Definition zeroDemandBelow (a : string) : Prop :=
  forall n, In n nodes -> downstream a (node_id n) ->
            node_type n = APPLIANCE -> (node_btu n == #0) = true.

(** The rank of a size in [PIPE_ORDER]. *)
Definition rank (size : PipeSize) : Z := indexOf PipeSize_eqb PIPE_ORDER size.

(** The sizing-order check fails: the edge has a feeder and a larger rank
    than it. *)
Definition oversized (edge : AppEdge num) : bool :=
  match feeder (edge_from edge) with
  | Some upstreamEdge =>
      (rank (edge_size edge) >? rank (edge_size upstreamEdge))%Z
  | None => false
  end.

(** [edges.filter(e => e.to === nodeId)] *)
Definition inbound (nodeId : string) : list (AppEdge num) :=
  List.filter (fun e => String.eqb (edge_to e) nodeId) edges.

(** The shape the validator assumes of a network. *)
Record wellShaped : Prop := {
  single_inbound : forall nodeId, (length (inbound nodeId) <= 1)%nat;
  junction_two : forall n, In n nodes -> node_type n = JUNCTION ->
                           (length (outbound (node_id n)) <= 2)%nat;
  appliance_sink : forall n, In n nodes -> node_type n = APPLIANCE ->
                             outbound (node_id n) = [];
  no_self_loop : forall e, In e edges -> edge_from e <> edge_to e
}.

(** A verdict record covers the network: its own keys are the edge ids
    (but for [__proto__], which is never an own key), and an edge whose
    destination node is missing carries flow 0. *)
Definition covers (results : gmap string (Verdict num)) : Prop :=
  Object_keys results = list_to_set (map edge_id edges) ∖ {["__proto__"]} /\
  forall e, lookupEdge (edge_id e) = Some e -> lookupNode (edge_to e) = None ->
            exists vd, results !! edge_id e = Some vd /\ flow vd = #0.
End Vocabulary.

Section Verdicts.
Context {num : Type} `{JSNumber num}.
Local Open Scope js_scope.

(** The entry [src/unnamed/part_002] stores for [edge] once [getFlow] has
    returned [f]. *)
Definition verdictV1 (s : AppState num) (edge : AppEdge num) (f : num)
  : Verdict num :=
  let cap :=
    AppV1.calculateCapacity (pressureDrop s) (edge_size edge)
                            (edge_length edge) in
  let capacityError :=
    if f > cap then Some (AppV1.capacityMessage f cap) else None in
  {| isValid := negb (f > cap) && negb (oversized (edges s) edge);
     flow := f;
     capacity := cap;
     error :=
       match feeder (edges s) (edge_from edge) with
       | Some upstreamEdge =>
           if (rank (edge_size edge) >? rank (edge_size upstreamEdge))%Z
           then Some
                  match capacityError with
                  | Some m =>
                      m ++ Text " " ::
                        AppV1.sizingMessage (edge_size edge)
                                            (edge_size upstreamEdge)
                  | None =>
                      AppV1.sizingMessage (edge_size edge)
                                          (edge_size upstreamEdge)
                  end
           else capacityError
       | None => capacityError
       end |}.

(** The entry [src/App.tsx] stores for [edge] once [getFlow] has returned
    [f]. *)
Definition verdictV2 (s : AppState num) (edge : AppEdge num) (f : num)
  : Verdict num :=
  let cap :=
    AppV2.calculateCapacity (pressureDrop s) (edge_size edge)
                            (edge_length edge) in
  {| isValid := f <= cap; flow := f; capacity := cap; error := None |}.

(** Two states hold the same snapshot [(nodes, edges, pressureDrop)]. *)
Definition sameSnapshot (s1 s2 : AppState num) : Prop :=
  nodes s1 = nodes s2 /\ edges s1 = edges s2 /\
  pressureDrop s1 = pressureDrop s2.

(** A state differs from another in its verdict map only. *)
Definition onlyValidationChanged (s s' : AppState num) : Prop :=
  nodes s' = nodes s /\ edges s' = edges s /\
  pressureDrop s' = pressureDrop s /\
  selectedPipeSize s' = selectedPipeSize s /\ selectedId s' = selectedId s.

(** The states [handleAddEdge] of [src/unnamed/part_002] leads to, from a
    well-shaped network with unique node ids (one without pipes, say). *)
Inductive reachableV1 : AppState num -> Prop :=
  | reachable_start s :
      List.NoDup (map node_id (nodes s)) ->
      wellShaped (nodes s) (edges s) -> reachableV1 s
  | reachable_addEdge s newId fromId toId :
      reachableV1 s ->
      reachableV1 (AppV1.handleAddEdge newId fromId toId s).
End Verdicts.

Section Formula.
Context {num : Type} `{JSNumber num}.
Local Open Scope js_scope.

(** The entries of the Pipe Size Table that the formula uses. *)
Definition tableCoeff (size : PipeSize) : num :=
  match size with
  | THREE_EIGHTHS => #0.00002158927
  | HALF => #0.00000410606
  | THREE_QUARTERS => #0.00000123682
  | ONE => #0.0000010746
  | ONE_AND_QUARTER => #1.1678553403503E-07
  end.

Definition tableExponent (size : PipeSize) : num :=
  match size with
  | THREE_EIGHTHS => #2.02558185
  | HALF => #2.1590935
  | THREE_QUARTERS => #2.00156167
  | ONE => #1.77654817
  | ONE_AND_QUARTER => #1.992081557687
  end.

(** The capacity as the design document words it (section 4.1):
    [floor (((pressureDrop / length) / coeff) ^ (1 / exponent)) * 1000],
    the operations in this order. *)
Definition capacityFormula (pressureDrop : num) (size : PipeSize)
    (length : num) : num :=
  Math_floor
    (Math_pow ((pressureDrop / length) / tableCoeff size)
              (#1 / tableExponent size))
  * #1000.

(** The value under the floor: the power law of a size at a pressure
    gradient [x] (the drop divided by the length). *)
Definition powerLaw (size : PipeSize) (x : num) : num :=
  Math_pow (x / tableCoeff size) (#1 / tableExponent size).
End Formula.

(** ** The order of the numbers of the host *)

Section HostOrder.
Context {num : Type} `{JSNumber num}.
Local Open Scope js_scope.

(** [Math.floor] and the scaling by 1000 keep the order [<=]: so they do in
    binary64 (NaN is [<=] nothing) and in exact arithmetic. *)
Record orderKept : Prop := {
  floor_monotone : forall x y,
    (x <= y) = true -> (Math_floor x <= Math_floor y) = true;
  scale_monotone : forall x y,
    (x <= y) = true -> (x * #1000 <= y * #1000) = true
}.

(** At a pressure drop [d] and for a size, so do the steps before them:
    [d] divided by a longer length is no more, and not negative; dividing
    a number [>= 0] by the coefficient of the size and raising a number
    [>= 0] to the power of the size keep [<=].  In binary64 the divisions
    do for a finite [d >= 0]; [Math.pow] is implementation-approximated,
    and does if the host made it monotone. *)
Record gradientKept (d : num) (size : PipeSize) : Prop := {
  length_antitone : forall L1 L2,
    (L1 > #0) = true -> (L1 <= L2) = true ->
    (#0 <= d / L2) = true /\ (d / L2 <= d / L1) = true;
  coeff_monotone : forall x y,
    (#0 <= x) = true -> (x <= y) = true ->
    (#0 <= x / tableCoeff size) = true /\
    (x / tableCoeff size <= y / tableCoeff size) = true;
  pow_monotone : forall x y,
    (#0 <= x) = true -> (x <= y) = true ->
    (Math_pow x (#1 / tableExponent size) <=
     Math_pow y (#1 / tableExponent size)) = true
}.
End HostOrder.

Section RealTable.
Local Open Scope R_scope.

(** The table entries and the value under the floor, in exact arithmetic. *)
Definition cR (size : PipeSize) : R := @tableCoeff R real_number size.
Definition eR (size : PipeSize) : R := @tableExponent R real_number size.

Definition cfhR (size : PipeSize) (x : R) : R :=
  Rpower (x / cR size) (/ eR size).

(** The pressure gradient at which the power laws of two sizes meet:
    [cfhR s x = cfhR t x] at [x = crossing s t]. *)
Definition crossing (s t : PipeSize) : R :=
  Rtrigo_def.exp
    ((ln (cR s) / eR s - ln (cR t) / eR t) / (/ eR s - / eR t)).
End RealTable.

(** What the interface does not say by itself and some statements need:
    [0 == 0], a sum of two zeros is a zero, and a number [> 0] is not
    [<= 0]. *)
Class JSNumberLaws (num : Type) `{JSNumber num} : Prop := {
  zero_eqn_zero : eqn (lit 0) (lit 0) = true;
  add_zero_zero : forall a b,
    eqn a (lit 0) = true -> eqn b (lit 0) = true ->
    eqn (add a b) (lit 0) = true;
  gt_zero_not_le : forall a, gt a (lit 0) = true -> le a (lit 0) = false
}.

(** The result of a pass, read at one edge id. *)
Definition verdictAt {num : Type} (r : option (AppState num))
    (edgeId : string) : option (Verdict num) :=
  match r with
  | Some s' => validation s' !! edgeId
  | None => None
  end.

(** ** The editing handlers *)

Section Editing.
Context {num : Type}.

Definition setNodes (ns : list (AppNode num)) (s : AppState num)
  : AppState num :=
  {| nodes := ns; edges := edges s; pressureDrop := pressureDrop s;
     selectedPipeSize := selectedPipeSize s; validation := validation s;
     selectedId := selectedId s |}.

Definition setPressureDrop (d : num) (s : AppState num) : AppState num :=
  {| nodes := nodes s; edges := edges s; pressureDrop := d;
     selectedPipeSize := selectedPipeSize s; validation := validation s;
     selectedId := selectedId s |}.

Definition setSelectedPipeSize (size : PipeSize) (s : AppState num)
  : AppState num :=
  {| nodes := nodes s; edges := edges s; pressureDrop := pressureDrop s;
     selectedPipeSize := size; validation := validation s;
     selectedId := selectedId s |}.

(** [Partial<AppNode>] and [Partial<AppEdge>]: the keys an update object
    carries. *)
Record NodeUpdates := {
  new_node_id : option string;
  new_node_type : option NodeType;
  new_node_x : option num;
  new_node_y : option num;
  new_node_name : option string;
  new_node_btu : option num
}.

Record EdgeUpdates := {
  new_edge_id : option string;
  new_edge_from : option string;
  new_edge_to : option string;
  new_edge_size : option PipeSize;
  new_edge_length : option num
}.

(** [{ ...n, ...updates }] *)
Definition spreadNode (n : AppNode num) (updates : NodeUpdates)
  : AppNode num :=
  {| node_id := default (node_id n) (new_node_id updates);
     node_type := default (node_type n) (new_node_type updates);
     node_x := default (node_x n) (new_node_x updates);
     node_y := default (node_y n) (new_node_y updates);
     node_name := default (node_name n) (new_node_name updates);
     node_btu := default (node_btu n) (new_node_btu updates) |}.

(** [{ ...e, ...updates }] *)
Definition spreadEdge (e : AppEdge num) (updates : EdgeUpdates)
  : AppEdge num :=
  {| edge_id := default (edge_id e) (new_edge_id updates);
     edge_from := default (edge_from e) (new_edge_from updates);
     edge_to := default (edge_to e) (new_edge_to updates);
     edge_size := default (edge_size e) (new_edge_size updates);
     edge_length := default (edge_length e) (new_edge_length updates) |}.

(** [updateNode] and [updateEdge] (the same text in [src/unnamed/part_002],
    lines 175-181, and [src/App.tsx], lines 177-178). *)
Definition updateNode (id : string) (updates : NodeUpdates)
    (s : AppState num) : AppState num :=
  setNodes
    (map (fun n => if String.eqb (node_id n) id then spreadNode n updates
                   else n)
         (nodes s))
    s.

Definition updateEdge (id : string) (updates : EdgeUpdates)
    (s : AppState num) : AppState num :=
  setEdges
    (map (fun e => if String.eqb (edge_id e) id then spreadEdge e updates
                   else e)
         (edges s))
    s.

(** [name || fallback] on an optional string: [undefined] and the empty
    string are falsy. *)
Definition orName (name : option string) (fallback : string) : string :=
  match name with
  | Some n => if String.eqb n "" then fallback else n
  | None => fallback
  end.
End Editing.
Arguments NodeUpdates : clear implicits.
Arguments EdgeUpdates : clear implicits.

(** ** JavaScript objects used as records *)

(** A [Record<string, number>] with its keys in insertion order, the order
    [Object.entries] lists them in (none of the keys used here is an array
    index). *)
Section JSRecord.
Context {K V : Type}.
Variable eqb : K -> K -> bool.

(** [r[k]]; [None] is [undefined]. *)
Fixpoint record_get (r : list (K * V)) (k : K) : option V :=
  match r with
  | [] => None
  | (k', v) :: r' => if eqb k' k then Some v else record_get r' k
  end.

(** [r[k] = v] *)
Fixpoint record_set (r : list (K * V)) (k : K) (v : V) : list (K * V) :=
  match r with
  | [] => [(k, v)]
  | (k', v') :: r' =>
      if eqb k' k then (k', v) :: r' else (k', v') :: record_set r' k v
  end.
End JSRecord.

Section Truthiness.
Context {num : Type} `{JSNumber num}.
Local Open Scope js_scope.

(** [x || 0] on an optional number: [undefined], [0], [-0] and [NaN] (the
    one number that is not [==] to itself) are falsy. *)
Definition orZero (x : option num) : num :=
  match x with
  | Some v => if (v == v) && negb (v == #0) then v else #0
  | None => #0
  end.
End Truthiness.

(** [Object.values(PipeSize)]: the members in the order of the enum. *)
Definition PipeSize_values : list PipeSize :=
  [THREE_EIGHTHS; HALF; THREE_QUARTERS; ONE; ONE_AND_QUARTER].

(** The key of a fitting in the inventory: the size of its inlet pipe, or the
    string ['No Supply']. *)
Inductive InletSize := Inlet (size : PipeSize) | No_Supply.

Definition InletSize_eqb (a b : InletSize) : bool :=
  match a, b with
  | Inlet p, Inlet q => PipeSize_eqb p q
  | No_Supply, No_Supply => true
  | _, _ => false
  end.

(** ** Further handlers of [src/unnamed/part_002] *)

Module HandlersV1.
Section App.
Context {num : Type} `{JSNumber num}.
Local Open Scope js_scope.

(** [handleAddNode], lines 122-140.  [newId], [x] and [y] are the values
    drawn from [Math.random] and the window size; [btu] defaults to 0.  The
    optional display fields [supplyPressure] and [gasType] of a meter are
    not part of [AppNode]. *)
Definition handleAddNode (newId : string) (x y : num) (type : NodeType)
    (btu : option num) (name : option string) (s : AppState num)
  : AppState num :=
  let newNode :=
    {| node_id := newId; node_type := type; node_x := x; node_y := y;
       node_name :=
         orName name
           match type with
           | METER => "Gas Meter"
           | JUNCTION => "T-Junction"
           | MANIFOLD => "Distribution Manifold"
           | APPLIANCE => "Appliance"
           end;
       node_btu := default #0 btu |} in
  setSelectedId (Some (node_id newNode)) (setNodes (nodes s ++ [newNode]) s).

(** [handleDeleteEdge], lines 183-186. *)
Definition handleDeleteEdge (id : string) (s : AppState num) : AppState num :=
  let s' :=
    setEdges (List.filter (fun e => negb (String.eqb (edge_id e) id))
                          (edges s)) s in
  match selectedId s with
  | Some i => if String.eqb i id then setSelectedId None s' else s'
  | None => s'
  end.

(** [handleDeleteNode], lines 188-192. *)
Definition handleDeleteNode (id : string) (s : AppState num) : AppState num :=
  let s' :=
    setEdges
      (List.filter (fun e => negb (String.eqb (edge_from e) id) &&
                             negb (String.eqb (edge_to e) id))
                   (edges s))
      (setNodes (List.filter (fun n => negb (String.eqb (node_id n) id))
                             (nodes s)) s) in
  match selectedId s with
  | Some i => if String.eqb i id then setSelectedId None s' else s'
  | None => s'
  end.

(** The result of [getSummary]. *)
Record Summary := {
  pipeTotals : list (PipeSize * num);
  categorizedJunctions : list (InletSize * num);
  categorizedManifolds : list (InletSize * num)
}.

(** [r[k] += x]; on a missing key [undefined + x] is [NaN], written
    [0 / 0]. *)
Definition addTo (r : list (PipeSize * num)) (k : PipeSize) (x : num)
  : list (PipeSize * num) :=
  record_set PipeSize_eqb r k
    match record_get PipeSize_eqb r k with
    | Some v => v + x
    | None => #0 / #0
    end.

(** [r[k] = (r[k] || 0) + 1] *)
Definition countUnder (r : list (InletSize * num)) (k : InletSize)
  : list (InletSize * num) :=
  record_set InletSize_eqb r k (orZero (record_get InletSize_eqb r k) + #1).

(** The key a fitting is counted under. *)
Definition inletSize (es : list (AppEdge num)) (node : AppNode num)
  : InletSize :=
  match List.find (fun e => String.eqb (edge_to e) (node_id node)) es with
  | Some inletEdge => Inlet (edge_size inletEdge)
  | None => No_Supply
  end.

(** [getSummary], lines 202-221. *)
Definition getSummary (s : AppState num) : Summary :=
  let pipeTotals := [] in
  let pipeTotals :=
    fold_left (fun r size => record_set PipeSize_eqb r size #0)
              PipeSize_values pipeTotals in
  let pipeTotals :=
    fold_left (fun r e => addTo r (edge_size e) (edge_length e))
              (edges s) pipeTotals in
  let '(categorizedJunctions, categorizedManifolds) :=
    fold_left
      (fun '(cj, cm) node =>
         if NodeType_eqb (node_type node) JUNCTION ||
            NodeType_eqb (node_type node) MANIFOLD
         then
           let inletSize := inletSize (edges s) node in
           if NodeType_eqb (node_type node) JUNCTION
           then (countUnder cj inletSize, cm)
           else (cj, countUnder cm inletSize)
         else (cj, cm))
      (nodes s) ([], []) in
  {| pipeTotals := pipeTotals;
     categorizedJunctions := categorizedJunctions;
     categorizedManifolds := categorizedManifolds |}.

(** [violations], line 223: the entries of the verdict map that are not
    valid.  The verdict map is kept as a finite map, so the order in which
    [Object.entries] lists them is not represented.  The pipes of this
    component take their ids from [Math.random] written in base 36, and it
    reads no drawing but the one it saved: no verdict sits under
    [__proto__], and the entries of the record are those of the map. *)
Definition violations (s : AppState num) : gmap string (Verdict num) :=
  filter (fun kv => isValid kv.2 = false) (validation s).
End App.
Arguments Summary : clear implicits.
End HandlersV1.

(** ** Further handlers of [src/App.tsx] *)

Module HandlersV2.
Section App.
Context {num : Type} `{JSNumber num}.
Local Open Scope js_scope.

(** [handleAddNode], lines 159-175 ([src/unnamed/part_001], lines 138-148).
    The flags of the mobile layout are not part of the state, nor is the
    optional display field [gasType] part of [AppNode]. *)
Definition handleAddNode (newId : string) (type : NodeType)
    (btu : option num) (name : option string) (s : AppState num)
  : AppState num :=
  let newNode :=
    {| node_id := newId; node_type := type; node_x := #500; node_y := #500;
       node_name :=
         orName name
           match type with
           | METER => "Gas Meter"
           | JUNCTION => "T-Junction"
           | MANIFOLD => "Manifold"
           | APPLIANCE => "Appliance"
           end;
       node_btu := default #0 btu |} in
  setSelectedId (Some (node_id newNode)) (setNodes (nodes s ++ [newNode]) s).

(** [handleDeleteNode], line 179. *)
Definition handleDeleteNode (id : string) (s : AppState num) : AppState num :=
  setSelectedId None
    (setEdges
       (List.filter (fun e => negb (String.eqb (edge_from e) id) &&
                              negb (String.eqb (edge_to e) id))
                    (edges s))
       (setNodes (List.filter (fun n => negb (String.eqb (node_id n) id))
                              (nodes s)) s)).

(** The [onDeleteEdge] handler passed to [Canvas], line 333. *)
Definition onDeleteEdge (id : string) (s : AppState num) : AppState num :=
  setEdges (List.filter (fun e => negb (String.eqb (edge_id e) id))
                        (edges s)) s.

(** The [pipeTotals] of [getSummary], lines 125-131: the record has a key
    for a size once a pipe of that size has been met. *)
Definition getSummary (s : AppState num) : list (PipeSize * num) :=
  fold_left
    (fun pipeTotals edge =>
       record_set PipeSize_eqb pipeTotals (edge_size edge)
         (orZero (record_get PipeSize_eqb pipeTotals (edge_size edge))
          + edge_length edge))
    (edges s) [].

(** An entry of the list of recent projects. *)
Record RecentProject := {
  recent_id : string;
  recent_name : string;
  timestamp : num;
  nodeCount : nat;
  pipeCount : nat;
  data_nodes : list (AppNode num);
  data_edges : list (AppEdge num);
  data_pressureDrop : num
}.

Inductive View := home | designer.

(** The state of the component around the network. *)
Record Project := {
  app : AppState num;
  view : View;
  projectName : string;
  currentProjectId : option string;
  recentProjects : list RecentProject
}.

Definition setRecentProjects (l : list RecentProject) (p : Project)
  : Project :=
  {| app := app p; view := view p; projectName := projectName p;
     currentProjectId := currentProjectId p; recentProjects := l |}.

Definition setCurrentProjectId (i : option string) (p : Project) : Project :=
  {| app := app p; view := view p; projectName := projectName p;
     currentProjectId := i; recentProjects := recentProjects p |}.

(** [saveToStorage], lines 133-142.  [now] is [Date.now()]; the copy
    written to [localStorage] is outside the state. *)
Definition saveToStorage (now : num) (id name : string) (p : Project)
  : Project :=
  let newRecent :=
    {| recent_id := id; recent_name := name; timestamp := now;
       nodeCount := length (nodes (app p));
       pipeCount := length (edges (app p));
       data_nodes := nodes (app p); data_edges := edges (app p);
       data_pressureDrop := pressureDrop (app p) |} in
  let updatedRecents :=
    firstn 15
      (newRecent ::
       List.filter (fun q => negb (String.eqb (recent_id q) id))
                   (recentProjects p)) in
  setRecentProjects updatedRecents p.

(** [!currentProjectId]: [null] and the empty string are falsy. *)
Definition unsaved (p : Project) : bool :=
  match currentProjectId p with
  | Some i => String.eqb i ""
  | None => true
  end.

(** [handleSave], lines 144-148.  [newId] is the identifier drawn from
    [Math.random]. *)
Definition handleSave (now : num) (newId : string) (p : Project) : Project :=
  let id :=
    match currentProjectId p with
    | Some i => if String.eqb i "" then newId else i
    | None => newId
    end in
  let p' := saveToStorage now id (projectName p) p in
  if unsaved p then setCurrentProjectId (Some id) p' else p'.

(** The [onClick] handler of an entry of the list of recent projects,
    line 200. *)
Definition openRecent (q : RecentProject) (p : Project) : Project :=
  {| app :=
       setPressureDrop (data_pressureDrop q)
         (setEdges (data_edges q) (setNodes (data_nodes q) (app p)));
     view := designer;
     projectName := recent_name q;
     currentProjectId := Some (recent_id q);
     recentProjects := recentProjects p |}.
End App.
Arguments RecentProject : clear implicits.
Arguments Project : clear implicits.
End HandlersV2.

(** ** The canvas of [src/unnamed/part_002] *)

Module CanvasV1.
Section Canvas.
Context {num : Type} `{JSNumber num}.
Local Open Scope js_scope.

Inductive Tool := pipe | select.

(** The effect of [handleMouseMove], lines 526-541, on the network: while a
    node is dragged it follows the pointer.  [x] and [y] are the position
    of the pointer in the coordinates of the drawing; [onUpdateNodes] is
    [setNodes] of the component.  A string is truthy when it is not
    empty. *)
Definition handleMouseMove (draggingNode : option string) (x y : num)
    (s : AppState num) : AppState num :=
  match draggingNode with
  | Some d =>
      if String.eqb d "" then s
      else
        let updatedNodes :=
          map (fun n =>
                 if String.eqb (node_id n) d
                 then {| node_id := node_id n; node_type := node_type n;
                         node_x := x; node_y := y; node_name := node_name n;
                         node_btu := node_btu n |}
                 else n)
              (nodes s) in
        setNodes updatedNodes s
  | None => s
  end.

(** The effect of [handleMouseUp], lines 543-549, on the network:
    [onAddEdge] is [handleAddEdge] of the component. *)
Definition handleMouseUp (selectedTool : Tool)
    (pipingFrom targetNodeId : option string) (newId : string)
    (s : AppState num) : AppState num :=
  match selectedTool, pipingFrom, targetNodeId with
  | pipe, Some f, Some t =>
      if negb (String.eqb f "") && negb (String.eqb t "") &&
         negb (String.eqb f t)
      then AppV1.handleAddEdge newId f t s
      else s
  | _, _, _ => s
  end.

(** What [renderPipe], lines 551-612, draws a pipe with. *)
Record Stroke := {
  strokeColor : string;
  strokeWidth : num
}.

(** [COLORS.PIPE] and [COLORS.ERROR] of [constants.ts]. *)
Definition COLORS_PIPE : string := "#64748b".
Definition COLORS_ERROR : string := "#ef4444".

(** [renderPipe]: [None] is the [null] returned for a pipe with a missing
    end. *)
Definition renderPipe (s : AppState num) (edge : AppEdge num)
  : option Stroke :=
  match List.find (fun n => String.eqb (node_id n) (edge_from edge))
                  (nodes s),
        List.find (fun n => String.eqb (node_id n) (edge_to edge))
                  (nodes s) with
  | Some from, Some to =>
      let val :=
        default {| isValid := true; flow := #0; capacity := #0;
                   error := None |}
                (validation s !! edge_id edge) in
      let isSelected :=
        match selectedId s with
        | Some i => String.eqb i (edge_id edge)
        | None => false
        end in
      Some
        {| strokeColor :=
             if isValid val
             then (if isSelected then "#6366f1" else COLORS_PIPE)
             else COLORS_ERROR;
           strokeWidth :=
             #4 + lit (inject_Z (indexOf PipeSize_eqb PipeSize_values
                                         (edge_size edge))) * #2 |}
  | _, _ => None
  end.

(** [totalSupplied] of [renderNode], lines 631-635. *)
Definition totalSupplied (s : AppState num) (node : AppNode num) : num :=
  let totalSupplied := #0 in
  if NodeType_eqb (node_type node) METER
  then
    let outgoingEdges :=
      List.filter (fun e => String.eqb (edge_from e) (node_id node))
                  (edges s) in
    fold_left
      (fun acc e => acc + orZero (option_map flow (validation s !! edge_id e)))
      outgoingEdges #0
  else totalSupplied.
End Canvas.
Arguments Stroke : clear implicits.
End CanvasV1.

(** ** Vocabulary for the handlers *)

Section EditVocabulary.
Context {num : Type}.

(** Every pipe joins two nodes of the network. *)
Definition attached (nodes : list (AppNode num)) (edges : list (AppEdge num))
  : Prop :=
  forall e, In e edges ->
    In (edge_from e) (map node_id nodes) /\
    In (edge_to e) (map node_id nodes).

(** The verdict map a pass returns, if it returns. *)
Definition verdicts (r : option (AppState num))
  : option (gmap string (Verdict num)) :=
  option_map validation r.

(** An update object that leaves the identity and the type of a node
    alone. *)
Definition keepsNode (updates : NodeUpdates num) : Prop :=
  new_node_id updates = None /\ new_node_type updates = None.

(** An update object that carries layout only: a name or a position. *)
Definition layoutOnly (updates : NodeUpdates num) : Prop :=
  keepsNode updates /\ new_node_btu updates = None.

(** An update object that leaves the identity and the ends of a pipe
    alone. *)
Definition keepsEnds (updates : EdgeUpdates num) : Prop :=
  new_edge_id updates = None /\ new_edge_from updates = None /\
  new_edge_to updates = None.
End EditVocabulary.

(** ** Editing sessions *)

Section Sessions.
Context {num : Type} `{JSNumber num}.

(** What the handlers of [src/unnamed/part_002] keep true of a network. *)
Record sound (s : AppState num) : Prop := {
  node_ids_unique : List.NoDup (map node_id (nodes s));
  edge_ids_unique : List.NoDup (map edge_id (edges s));
  pipes_attached : attached (nodes s) (edges s);
  well_shaped : wellShaped (nodes s) (edges s)
}.

(** The states an editing session of [src/unnamed/part_002] goes through
    from an empty drawing, when the ids drawn from [Math.random] are new and
    the canvas reports the release of the pointer over a node it has drawn.
    The property panels update the name and the demand of a node and the
    size and the length of a pipe ([keepsNode], [keepsEnds]).  Loading a
    saved design ([handleLoad]) is not part of a session. *)
Inductive sessionV1 : AppState num -> Prop :=
  | session_new s : nodes s = [] -> edges s = [] -> sessionV1 s
  | session_addNode s newId x y type btu name :
      sessionV1 s -> ~ In newId (map node_id (nodes s)) ->
      sessionV1 (HandlersV1.handleAddNode newId x y type btu name s)
  | session_mouseUp s tool pipingFrom targetNodeId newId :
      sessionV1 s -> ~ In newId (map edge_id (edges s)) ->
      (forall t, targetNodeId = Some t -> In t (map node_id (nodes s))) ->
      sessionV1 (CanvasV1.handleMouseUp tool pipingFrom targetNodeId newId s)
  | session_updateNode s id updates :
      sessionV1 s -> keepsNode updates -> sessionV1 (updateNode id updates s)
  | session_updateEdge s id updates :
      sessionV1 s -> keepsEnds updates -> sessionV1 (updateEdge id updates s)
  | session_mouseMove s draggingNode x y :
      sessionV1 s -> sessionV1 (CanvasV1.handleMouseMove draggingNode x y s)
  | session_deleteEdge s id :
      sessionV1 s -> sessionV1 (HandlersV1.handleDeleteEdge id s)
  | session_deleteNode s id :
      sessionV1 s -> sessionV1 (HandlersV1.handleDeleteNode id s)
  | session_select s i : sessionV1 s -> sessionV1 (setSelectedId i s)
  | session_pressureDrop s d : sessionV1 s -> sessionV1 (setPressureDrop d s)
  | session_pipeSize s size :
      sessionV1 s -> sessionV1 (setSelectedPipeSize size s)
  | session_validate s depth s' :
      sessionV1 s -> AppV1.validateSystem depth s = Some s' -> sessionV1 s'.
End Sessions.

(** ** Vocabulary for the summary *)

Section SummaryVocabulary.
Context {num : Type} `{JSNumber num}.
Local Open Scope js_scope.

(** The lengths of the pipes of one size, in the order of the list. *)
Definition lengthsOf (size : PipeSize) (es : list (AppEdge num)) : list num :=
  map edge_length
      (List.filter (fun e => PipeSize_eqb (edge_size e) size) es).

(** The running total [getSummary] of [src/App.tsx] keeps for a size. *)
Definition runningTotal (ls : list num) : option num :=
  fold_left (fun acc l => Some (orZero acc + l)) ls None.

(** Counting one at a time with [(c || 0) + 1]. *)
Fixpoint countedTo (m : nat) : option num :=
  match m with
  | O => None
  | S m' => Some (orZero (countedTo m') + #1)
  end.
End SummaryVocabulary.

(** ** Vocabulary for the flows in exact arithmetic *)

(** The demand of a list of nodes, in exact arithmetic. *)
Definition totalDemand (l : list (AppNode R)) : R :=
  fold_right Rplus 0%R (map node_btu l).

(** [l] lists, once each, the appliances at or below node [x]. *)
Definition appliancesBelow (ns : list (AppNode R)) (es : list (AppEdge R))
    (x : string) (l : list (AppNode R)) : Prop :=
  List.NoDup l /\
  forall n, In n l <->
            In n ns /\ node_type n = APPLIANCE /\ downstream es x (node_id n).

(** ** More sample networks *)

Module Plans.
Local Open Scope float_scope.

(** two meters, each with a heater of its own *)
Definition two_meters : AppState float :=
  Samples.state
    [Samples.node "M1" METER 0; Samples.node "A1" APPLIANCE 40000;
     Samples.node "M2" METER 0; Samples.node "A2" APPLIANCE 65000]
    [Samples.pipe "e1" "M1" "A1" HALF 10;
     Samples.pipe "e2" "M2" "A2" HALF 20].
End Plans.

(** A meter, a tee and two appliances, in exact arithmetic. *)
Module RealPlans.
Local Open Scope R_scope.

Definition node (id : string) (type : NodeType) (btu : R) : AppNode R :=
  {| node_id := id; node_type := type; node_x := 500; node_y := 500;
     node_name := id; node_btu := btu |}.

Definition pipe (id from to : string) (size : PipeSize) (length : R)
  : AppEdge R :=
  {| edge_id := id; edge_from := from; edge_to := to; edge_size := size;
     edge_length := length |}.

Definition tee_nodes : list (AppNode R) :=
  [node "M" METER 0; node "J" JUNCTION 0;
   node "A1" APPLIANCE 40000; node "A2" APPLIANCE 65000].

Definition tee_edges : list (AppEdge R) :=
  [pipe "e1" "M" "J" THREE_QUARTERS 10; pipe "e2" "J" "A1" HALF 10;
   pipe "e3" "J" "A2" HALF 20].
End RealPlans.

(** * Properties *)

(** ** The number model on examples *)

Section Examples.
Local Open Scope float_scope.
Local Set Warnings "-inexact-float".

(** The literals of the table, read through [lit], are the doubles nearest
    to the decimals. *)
Example table_literals :
  map tableCoeff PIPE_ORDER =
    [0.00002158927; 0.00000410606; 0.00000123682; 0.0000010746;
     1.1678553403503E-07] /\
  map tableExponent PIPE_ORDER =
    [2.02558185; 2.1590935; 2.00156167; 1.77654817; 1.992081557687].
Proof. split; vm_compute; reflexivity. Qed.

Example floor_examples :
  map JSFloat.floor [78.03; 0.3; -0.3; -2.5; -0; 1e300; infinity] =
    [78; 0; -1; -3; -0; 1e300; infinity].
Proof. vm_compute. reflexivity. Qed.

(** The cases of [Math.pow] that ECMAScript fixes do not consult the
    approximation. *)
Example exponentiate_fixed_cases (approx : float -> float -> float) :
  JSFloat.exponentiate approx infinity 0.5 = infinity /\
  JSFloat.exponentiate approx 0 0.5 = 0 /\
  JSFloat.exponentiate approx 2 0 = 1 /\
  JSFloat.exponentiate approx (-0) 3 = (-0) /\
  JSFloat.exponentiate approx 2 infinity = infinity /\
  is_nan (JSFloat.exponentiate approx (-2) 0.5) = true /\
  is_nan (JSFloat.exponentiate approx nan 2) = true.
Proof. repeat split; vm_compute; reflexivity. Qed.

(** Capacities at the reference point of the table (10 ft, drop 0.5). *)
Example capacity_at_10_feet :
  map (fun size => AppV2.calculateCapacity 0.5 size 10) PIPE_ORDER =
    [45000; 78000; 200000; 424000; 671000].
Proof. vm_compute. reflexivity. Qed.

(** [getFlow] on the sample with a junction between meter and heater. *)
Example getFlow_sample :
  getFlow (nodes Samples.oversized_branch) (edges Samples.oversized_branch)
          3 "e1" = Some 40000 /\
  getFlow (nodes Samples.oversized_branch) (edges Samples.oversized_branch)
          1 "e1" = None /\
  getFlow (nodes Samples.oversized_branch) (edges Samples.oversized_branch)
          1 "nope" = Some 0.
Proof. repeat split; vm_compute; reflexivity. Qed.

(** [Samples.two_cycle] is what [handleAddEdge] builds from two junctions:
    the second pipe is accepted because its target has no inbound pipe
    yet. *)
Example two_cycle_reachable :
  let start :=
    Samples.state [Samples.node "P" JUNCTION 0; Samples.node "Q" JUNCTION 0]
                  [] in
  let s := AppV1.handleAddEdge "e2" "Q" "P"
             (AppV1.handleAddEdge "e1" "P" "Q" start) in
  nodes s = nodes Samples.two_cycle /\ edges s = edges Samples.two_cycle.
Proof. split; vm_compute; reflexivity. Qed.
End Examples.

(** ** The capacity model *)

Section CapacityFacts.
Context {num : Type} `{JSNumber num}.
Local Open Scope js_scope.

Lemma PIPE_SPECS_total (size : PipeSize) :
  exists spec, PIPE_SPECS size = Some spec /\ pipe_size spec = size.
Proof. destruct size; eexists; split; reflexivity. Qed.

(** The guard of [src/App.tsx]: a length that is [<= 0] has capacity 0,
    whatever the size and the pressure drop. *)
Lemma AppV2_calculateCapacity_degenerate (d : num) (size : PipeSize)
    (length : num) :
  (length <= #0) = true -> AppV2.calculateCapacity d size length = #0.
Proof.
  intros Hle. unfold AppV2.calculateCapacity.
  destruct (PIPE_SPECS size); [rewrite Hle|]; reflexivity.
Qed.
End CapacityFacts.

(** The copy of [calculateCapacity] in [src/unnamed/part_002] has no guard on
    the length.  Called by hand with the default pressure drop 0.5 and size
    1/2 in, length 0 gives [Infinity] and length -5 gives [NaN], whatever
    approximation [Math.pow] uses on its open case; the guarded
    [calculateCapacity] of [src/App.tsx] gives 0 on both.  (The component of
    [src/unnamed/part_002] itself makes no such call: the lengths of its
    pipes are 10, for a new pipe, or come from a slider over 1..250.) *)
Example AppV1_calculateCapacity_unguarded (approx : float -> float -> float) :
  (@AppV1.calculateCapacity _ (float_number_with approx) 0.5 HALF 0
     = infinity /\
   @AppV1.calculateCapacity _ (float_number_with approx) 0.5 HALF (-5)
     = nan /\
   @AppV2.calculateCapacity _ (float_number_with approx) 0.5 HALF 0
     = 0 /\
   @AppV2.calculateCapacity _ (float_number_with approx) 0.5 HALF (-5)
     = 0)%float.
Proof. repeat split; vm_compute; reflexivity. Qed.

(** ** The demand propagator *)

Section FlowFacts.
Context {num : Type} `{JSNumber num}.
Variable nodes : list (AppNode num).
Variable edges : list (AppEdge num).
Local Open Scope js_scope.

Local Abbreviation getFlow := (getFlow nodes edges).
Local Abbreviation lookupEdge := (lookupEdge edges).
Local Abbreviation lookupNode := (lookupNode nodes).
Local Abbreviation outbound := (outbound edges).
Local Abbreviation addFlow := (addFlow nodes edges).
Local Abbreviation flows := (flows nodes edges).
Local Abbreviation calls := (calls nodes edges).

Lemma getFlow_unfold (depth : nat) (edgeId : string) :
  getFlow (S depth) edgeId =
  match lookupEdge edgeId with
  | None => Some #0
  | Some edge =>
      match lookupNode (edge_to edge) with
      | None => Some #0
      | Some targetNode =>
          forEach (outbound (node_id targetNode)) (addFlow depth)
                  (ownDemand targetNode)
      end
  end.
Proof. reflexivity. Qed.

Lemma lookupNode_id (i : string) (n : AppNode num) :
  lookupNode i = Some n -> node_id n = i.
Proof.
  intros Hf. apply find_some in Hf as [_ Heq]. now apply String.eqb_eq.
Qed.

Lemma lookupEdge_id (i : string) (e : AppEdge num) :
  lookupEdge i = Some e -> edge_id e = i /\ In e edges.
Proof.
  intros Hf. apply find_some in Hf as [Hin Heq].
  split; [now apply String.eqb_eq | exact Hin].
Qed.

(** The loop returns exactly when every nested call returns, and then it has
    added their results from left to right. *)
Lemma forEach_addFlow_Some (depth : nat) (l : list (AppEdge num)) (s v : num) :
  forEach l (addFlow depth) s = Some v <->
  exists fs,
    Forall2 (fun out f => getFlow depth (edge_id out) = Some f) l fs /\
    v = fold_left add fs s.
Proof.
  revert s. induction l as [|out l IH]; intros s; simpl.
  - split.
    + intros [= <-]. exists []. split; [constructor | reflexivity].
    + intros (fs & HF & ->). inversion HF. reflexivity.
  - unfold addFlow at 1.
    destruct (getFlow depth (edge_id out)) as [f|] eqn:Hf.
    + rewrite IH. split.
      * intros (fs & HF & ->). exists (f :: fs). split; [|reflexivity].
        constructor; assumption.
      * intros (fs & HF & ->). inversion HF as [|? f' ? fs' Hf' HF']; subst.
        rewrite Hf in Hf'. injection Hf' as <-.
        exists fs'. split; [assumption | reflexivity].
    + split; [discriminate|].
      intros (fs & HF & _). inversion HF as [|? f' ? fs' Hf' HF']; subst.
      rewrite Hf in Hf'. discriminate.
Qed.

Lemma forEach_addFlow_None (depth : nat) (l : list (AppEdge num)) (s : num) :
  forEach l (addFlow depth) s = None <->
  Exists (fun out => getFlow depth (edge_id out) = None) l.
Proof.
  revert s. induction l as [|out l IH]; intros s; simpl.
  - split; [discriminate | intros HE; inversion HE].
  - unfold addFlow at 1.
    destruct (getFlow depth (edge_id out)) as [f|] eqn:Hf.
    + rewrite IH. split.
      * intros HE. now apply Exists_cons_tl.
      * intros HE. inversion HE as [? ? Hn|]; subst; [|assumption].
        rewrite Hf in Hn. discriminate.
    + split; [|reflexivity]. intros _. now apply Exists_cons_hd.
Qed.

(** A deeper stack does not change a result. *)
Lemma getFlow_mono (depth depth' : nat) (edgeId : string) (v : num) :
  getFlow depth edgeId = Some v -> (depth <= depth')%nat ->
  getFlow depth' edgeId = Some v.
Proof.
  revert depth' edgeId v.
  induction depth as [|depth IH]; intros depth' edgeId v Hv Hle;
    [discriminate|].
  destruct depth' as [|depth']; [lia|].
  rewrite getFlow_unfold in *.
  destruct (lookupEdge edgeId) as [edge|]; [|assumption].
  destruct (lookupNode (edge_to edge)) as [n|]; [|assumption].
  apply forEach_addFlow_Some in Hv as (fs & HF & ->).
  apply forEach_addFlow_Some. exists fs. split; [|reflexivity].
  eapply Forall2_impl; [exact HF|].
  intros out f Hf. apply IH; [exact Hf | lia].
Qed.

Lemma flows_functional (edgeId : string) (v v' : num) :
  flows edgeId v -> flows edgeId v' -> v = v'.
Proof.
  intros [d Hd] [d' Hd'].
  apply getFlow_mono with (depth' := Nat.max d d') in Hd; [|lia].
  apply getFlow_mono with (depth' := Nat.max d d') in Hd'; [|lia].
  congruence.
Qed.

Lemma Forall2_flows_depth (l : list (AppEdge num)) (fs : list num) :
  Forall2 (fun out f => flows (edge_id out) f) l fs ->
  exists depth,
    Forall2 (fun out f => getFlow depth (edge_id out) = Some f) l fs.
Proof.
  induction 1 as [|out f l fs [d Hd] HF [d' IH]].
  - exists O. constructor.
  - exists (Nat.max d d'). constructor.
    + eapply getFlow_mono; [exact Hd | lia].
    + eapply Forall2_impl; [exact IH|].
      intros o g Hg. eapply getFlow_mono; [exact Hg | lia].
Qed.

(** The recursive characterisation of the flow of an edge whose destination
    node exists. *)
Lemma flows_step (edge : AppEdge num) (targetNode : AppNode num) (v : num) :
  lookupEdge (edge_id edge) = Some edge ->
  lookupNode (edge_to edge) = Some targetNode ->
  flows (edge_id edge) v <->
  exists fs,
    Forall2 (fun out f => flows (edge_id out) f) (outbound (edge_to edge)) fs /\
    v = fold_left add fs (ownDemand targetNode).
Proof.
  intros He Hn. pose proof (lookupNode_id _ _ Hn) as Hid. split.
  - intros [[|depth] Hd]; [discriminate|].
    rewrite getFlow_unfold, He, Hn, Hid in Hd.
    apply forEach_addFlow_Some in Hd as (fs & HF & ->).
    exists fs. split; [|reflexivity].
    eapply Forall2_impl; [exact HF|]. intros out f Hf. now exists depth.
  - intros (fs & HF & ->).
    apply Forall2_flows_depth in HF as [depth HF].
    exists (S depth). rewrite getFlow_unfold, He, Hn, Hid.
    apply forEach_addFlow_Some. now exists fs.
Qed.

(** *** Termination *)

Local Abbreviation cycleBelow := (cycleBelow nodes edges).
Local Abbreviation callPath := (callPath nodes edges).

Lemma getFlow_None_calls (depth : nat) (a : string) :
  getFlow (S depth) a = None ->
  exists b, calls a b /\ getFlow depth b = None.
Proof.
  rewrite getFlow_unfold.
  destruct (lookupEdge a) as [edge|] eqn:He; [|discriminate].
  destruct (lookupNode (edge_to edge)) as [n|] eqn:Hn; [|discriminate].
  intros HN. apply forEach_addFlow_None in HN.
  apply List.Exists_exists in HN as (out & Hin & Hout).
  exists (edge_id out). split; [|exact Hout].
  exists edge, n, out. repeat split; assumption.
Qed.

Lemma calls_getFlow_None (depth : nat) (a b : string) :
  calls a b -> getFlow depth b = None -> getFlow (S depth) a = None.
Proof.
  intros (edge & n & out & He & Hn & Hin & ->) Hb.
  rewrite getFlow_unfold, He, Hn.
  apply forEach_addFlow_None, List.Exists_exists. eauto.
Qed.

Lemma calls_edge_id (a b : string) : calls a b -> In b (map edge_id edges).
Proof.
  intros (edge & n & out & _ & _ & Hin & ->).
  apply in_map. apply filter_In in Hin. tauto.
Qed.

Lemma getFlow_None_callPath (depth : nat) (a : string) :
  getFlow depth a = None -> exists l, length l = depth /\ callPath a l.
Proof.
  revert a. induction depth as [|depth IH]; intros a Ha.
  - exists []. split; [reflexivity | exact I].
  - apply getFlow_None_calls in Ha as (b & Hab & Hb).
    destruct (IH b Hb) as (l & Hlen & Hl).
    exists (b :: l). split; [simpl; congruence | split; assumption].
Qed.

Lemma callPath_incl (a : string) (l : list string) :
  callPath a l -> incl l (map edge_id edges).
Proof.
  revert a. induction l as [|b l IH]; intros a Hp x Hx; [inversion Hx|].
  destruct Hp as [Hab Hp]. destruct Hx as [<-|Hx].
  - eapply calls_edge_id, Hab.
  - eapply IH; eassumption.
Qed.

Lemma callPath_split (a b : string) (l1 l2 : list string) :
  callPath a (l1 ++ b :: l2) ->
  clos_trans string calls a b /\ callPath b l2.
Proof.
  revert a. induction l1 as [|c l1 IH]; intros a; simpl.
  - intros [Hab Hp]. split; [now apply t_step | exact Hp].
  - intros [Hac Hp]. destruct (IH c Hp) as [Hcb Hp2].
    split; [|exact Hp2]. eapply t_trans; [apply t_step, Hac | exact Hcb].
Qed.

(** A stack of more than [length edges] nested calls contains a call twice. *)
Lemma getFlow_None_cycleBelow (depth : nat) (a : string) :
  (length edges < depth)%nat -> getFlow depth a = None -> cycleBelow a.
Proof.
  intros Hlen Ha.
  apply getFlow_None_callPath in Ha as (l & Hl & Hp).
  assert (HND : ~ List.NoDup l).
  { intros HND. apply NoDup_incl_length with (l' := map edge_id edges) in HND.
    - rewrite length_map in HND. lia.
    - eapply callPath_incl, Hp. }
  apply not_NoDup in HND as (j & l1 & l2 & l3 & ->).
  - apply callPath_split in Hp as [Haj Hp].
    apply callPath_split in Hp as [Hjj _].
    exists j. split; [|exact Hjj].
    clear -Haj. induction Haj.
    + now apply rt_step.
    + eapply rt_trans; eassumption.
  - intros x y. destruct (string_dec x y); [left | right]; assumption.
Qed.

Lemma cycle_next (a b : string) :
  clos_trans string calls a b ->
  exists c, calls a c /\ (c = b \/ clos_trans string calls c b).
Proof.
  intros Hab. apply clos_trans_t1n in Hab.
  destruct Hab as [c Hc | c d Hc Hd].
  - exists c. split; [exact Hc | now left].
  - exists c. split; [exact Hc | right]. now apply clos_t1n_trans.
Qed.

Lemma cycle_getFlow_None (depth : nat) (b : string) :
  clos_trans string calls b b -> getFlow depth b = None.
Proof.
  revert b. induction depth as [|depth IH]; intros b Hb; [reflexivity|].
  destruct (cycle_next b b Hb) as (c & Hbc & [-> | Hcb]).
  - eapply calls_getFlow_None; [exact Hbc|]. now apply IH.
  - eapply calls_getFlow_None; [exact Hbc|]. apply IH.
    eapply t_trans; [exact Hcb | apply t_step, Hbc].
Qed.

(** With a cycle below it the call never returns, however deep the stack. *)
Lemma cycleBelow_getFlow_None (depth : nat) (a : string) :
  cycleBelow a -> getFlow depth a = None.
Proof.
  intros (b & Hab & Hbb). revert depth.
  apply clos_rt_rt1n in Hab.
  induction Hab as [b|a c b Hac Hcb IH]; intros depth.
  - now apply cycle_getFlow_None.
  - destruct depth as [|depth]; [reflexivity|].
    eapply calls_getFlow_None; [exact Hac|]. now apply IH.
Qed.

(** Without one it returns as soon as the stack admits one more call than
    there are edges. *)
Lemma getFlow_terminates (a : string) :
  ~ cycleBelow a ->
  exists v, forall depth,
    (length edges < depth)%nat -> getFlow depth a = Some v.
Proof.
  intros Hno.
  destruct (getFlow (S (length edges)) a) as [v|] eqn:Hv.
  - exists v. intros depth Hd. eapply getFlow_mono; [exact Hv | lia].
  - exfalso. apply Hno. eapply getFlow_None_cycleBelow; [|exact Hv]. lia.
Qed.

Lemma acyclic_no_cycleBelow (a : string) :
  acyclic nodes edges -> ~ cycleBelow a.
Proof. intros Hac (b & _ & Hbb). exact (Hac b Hbb). Qed.

(** *** Zero demand *)

Lemma lookupEdge_NoDup (e : AppEdge num) :
  List.NoDup (map edge_id edges) -> In e edges -> lookupEdge (edge_id e) = Some e.
Proof.
  unfold lookupEdge. clear nodes.
  induction edges as [|e0 es IH]; intros HND Hin; [inversion Hin|].
  simpl in *. inversion HND as [|? ? Hnotin HND']; subst.
  destruct Hin as [->|Hin].
  - now rewrite String.eqb_refl.
  - destruct (String.eqb (edge_id e0) (edge_id e)) eqn:Heq.
    + apply String.eqb_eq in Heq. exfalso. apply Hnotin.
      rewrite Heq. now apply in_map.
    + now apply IH.
Qed.

Lemma fold_add_zero `{!JSNumberLaws num} (fs : list num) (s : num) :
  (s == #0) = true -> Forall (fun f => (f == #0) = true) fs ->
  (fold_left add fs s == #0) = true.
Proof.
  revert s. induction fs as [|f fs IH]; intros s Hs HF; [exact Hs|].
  inversion HF; subst. simpl. apply IH; [|assumption].
  now apply add_zero_zero.
Qed.

Lemma getFlow_zero `{!JSNumberLaws num} (depth : nat) (e : AppEdge num)
    (v : num) :
  List.NoDup (map edge_id edges) -> In e edges ->
  zeroDemandBelow nodes edges (edge_to e) ->
  getFlow depth (edge_id e) = Some v -> (v == #0) = true.
Proof.
  intros HND. revert e v.
  induction depth as [|depth IH]; intros e v Hin Hz Hv; [discriminate|].
  rewrite getFlow_unfold, (lookupEdge_NoDup e HND Hin) in Hv.
  destruct (lookupNode (edge_to e)) as [n|] eqn:Hn.
  2:{ injection Hv as <-. apply zero_eqn_zero. }
  pose proof (lookupNode_id _ _ Hn) as Hid.
  apply forEach_addFlow_Some in Hv as (fs & HF & ->).
  apply fold_add_zero.
  - unfold ownDemand.
    destruct (NodeType_eqb (node_type n) APPLIANCE) eqn:Ht;
      [|apply zero_eqn_zero].
    apply add_zero_zero; [apply zero_eqn_zero|].
    apply Hz.
    + apply find_some in Hn. tauto.
    + rewrite Hid. constructor.
    + destruct (node_type n); (reflexivity || discriminate).
  - clear -HF IH Hz Hid.
    assert (Hout : Forall (fun out => In out edges /\
                             edge_from out = edge_to e)
                          (outbound (node_id n))).
    { apply List.Forall_forall. intros out Hin. apply filter_In in Hin as [Hin Hf].
      apply String.eqb_eq in Hf. split; congruence. }
    induction HF as [|out f l fs Hf HF IHF]; constructor.
    + inversion Hout as [|? ? [Hin Hfrom] Hout']; subst.
      apply (IH out f Hin); [|exact Hf].
      intros m Hm Hdown Ht. apply Hz; [exact Hm| |exact Ht].
      clear -Hdown Hin Hfrom.
      induction Hdown as [|e' Hd IHd Hin'].
      * rewrite <- Hfrom. constructor; [constructor | exact Hin].
      * constructor; assumption.
    + inversion Hout; subst. now apply IHF.
Qed.

(** *** Cycles of calls and cycles of pipes *)

Lemma calls_continues (a b : string) :
  List.NoDup (map edge_id edges) -> calls a b ->
  exists ea eb,
    lookupEdge a = Some ea /\ lookupEdge b = Some eb /\
    continues edges ea eb.
Proof.
  intros HND (ea & n & out & Ha & Hn & Hin & ->).
  apply filter_In in Hin as [Hin Hfrom]. apply String.eqb_eq in Hfrom.
  exists ea, out. split; [exact Ha|].
  split; [now apply lookupEdge_NoDup|].
  split; [apply (lookupEdge_id _ _ Ha)|]. split; [exact Hin|].
  rewrite Hfrom. symmetry. now apply lookupNode_id.
Qed.

Lemma calls_trans_continues (a b : string) :
  List.NoDup (map edge_id edges) -> clos_trans string calls a b ->
  exists ea eb,
    lookupEdge a = Some ea /\ lookupEdge b = Some eb /\
    clos_trans (AppEdge num) (continues edges) ea eb.
Proof.
  intros HND. induction 1 as [a b Hab | a c b _ IH1 _ IH2].
  - destruct (calls_continues a b HND Hab) as (ea & eb & Ha & Hb & Hc).
    exists ea, eb. repeat split; try assumption. now apply t_step.
  - destruct IH1 as (ea & ec & Ha & Hc & H1).
    destruct IH2 as (ec' & eb & Hc' & Hb & H2).
    rewrite Hc in Hc'. injection Hc' as <-.
    exists ea, eb. repeat split; try assumption.
    eapply t_trans; eassumption.
Qed.

(** With unique edge ids, a network whose pipes form no directed cycle has
    no cycle of calls. *)
Lemma noPipeCycle_acyclic :
  List.NoDup (map edge_id edges) -> noPipeCycle edges ->
  acyclic nodes edges.
Proof.
  intros HND Hno a Ha.
  destruct (calls_trans_continues a a HND Ha) as (ea & ea' & H1 & H2 & Hc).
  rewrite H1 in H2. injection H2 as <-. exact (Hno ea Hc).
Qed.
End FlowFacts.

(** ** The validation pass *)

Section LoopFacts.
Context {A V : Type}.
Variable key : A -> string.
Variable body : gmap string V -> A -> option (gmap string V).
Variable P : A -> V -> Prop.
Hypothesis body_inserts : forall r a r',
  body r a = Some r' -> exists v, r' = <[key a := v]> r /\ P a v.

(** A loop whose body stores one entry per element under the element's key:
    a key of the result either is not the key of an element and keeps its
    old entry, or holds the entry stored for an element with that key. *)
Lemma forEach_inserts_lookup (l : list A) (r0 r : gmap string V) :
  forEach l body r0 = Some r ->
  forall i,
    (~ In i (map key l) /\ r !! i = r0 !! i) \/
    (exists a v, In a l /\ key a = i /\ r !! i = Some v /\ P a v).
Proof using body_inserts.
  revert r0. induction l as [|a l IH]; intros r0; simpl.
  - intros [= <-] i. left. split; [tauto | reflexivity].
  - destruct (body r0 a) as [r1|] eqn:Hb; [|discriminate].
    intros Hl i. destruct (body_inserts _ _ _ Hb) as (v & -> & Hv).
    destruct (IH _ Hl i) as [[Hni Hi] | (a' & v' & Ha' & Hk & Hi & HP)].
    + destruct (string_dec (key a) i) as [Heq | Hne].
      * right. exists a, v. rewrite Hi, <- Heq, lookup_insert_eq. auto.
      * left. rewrite Hi, lookup_insert_ne by exact Hne. tauto.
    + right. exists a', v'. auto.
Qed.

Lemma forEach_inserts_dom (l : list A) (r0 r : gmap string V) :
  forEach l body r0 = Some r ->
  dom r = dom r0 ∪ list_to_set (map key l).
Proof using body_inserts.
  intros Hl. apply set_eq. intros i.
  rewrite elem_of_union, !elem_of_dom, elem_of_list_to_set, list_elem_of_In.
  destruct (forEach_inserts_lookup l r0 r Hl i)
    as [[Hni Hi] | (a & v & Ha & Hk & Hi & _)].
  - rewrite Hi. tauto.
  - rewrite Hi. split; [|eauto]. intros _. right.
    rewrite <- Hk. now apply in_map.
Qed.

Lemma forEach_inserts_entry (l : list A) (r0 r : gmap string V) (a : A) :
  forEach l body r0 = Some r -> In a l ->
  exists a' v, In a' l /\ key a' = key a /\ r !! key a = Some v /\ P a' v.
Proof using body_inserts.
  intros Hl Ha.
  destruct (forEach_inserts_lookup l r0 r Hl (key a)) as [[Hni _] | Hr].
  - exfalso. apply Hni. now apply in_map.
  - exact Hr.
Qed.
End LoopFacts.

Lemma forEach_Some_each {A S : Type} (body : S -> A -> option S)
    (l : list A) (s0 s : S) (a : A) :
  forEach l body s0 = Some s -> In a l -> exists s1 s2, body s1 a = Some s2.
Proof.
  revert s0. induction l as [|b l IH]; intros s0 Hl Ha; [inversion Ha|].
  simpl in Hl. destruct (body s0 b) as [s1|] eqn:Hb; [|discriminate].
  destruct Ha as [<- | Ha]; [eauto | eapply IH; eassumption].
Qed.

Lemma forEach_total {A S : Type} (body : S -> A -> option S)
    (l : list A) (s0 : S) :
  (forall s a, In a l -> exists s', body s a = Some s') ->
  exists s, forEach l body s0 = Some s.
Proof.
  revert s0. induction l as [|b l IH]; intros s0 Hb; simpl; [eauto|].
  destruct (Hb s0 b) as [s1 ->]; [now left|].
  apply IH. intros s a Ha. apply Hb. now right.
Qed.

Lemma forEach_ext {A S : Type} (body body' : S -> A -> option S)
    (l : list A) (s0 s : S) :
  (forall s1 s2 a, body s1 a = Some s2 -> body' s1 a = Some s2) ->
  forEach l body s0 = Some s -> forEach l body' s0 = Some s.
Proof.
  intros Hb. revert s0. induction l as [|b l IH]; intros s0; simpl; [auto|].
  destruct (body s0 b) as [s1|] eqn:Hs; [|discriminate].
  rewrite (Hb _ _ _ Hs). apply IH.
Qed.

Section PassFacts.
Context {num : Type} `{JSNumber num}.
Local Open Scope js_scope.

(** A validation pass: a loop over the edges that stores, for each edge, the
    verdict computed from the flow [getFlow] returns for its id. *)
Variable validateEdge :
  AppState num -> nat -> gmap string (Verdict num) -> AppEdge num ->
  option (gmap string (Verdict num)).
Variable validateSystem : nat -> AppState num -> option (AppState num).
Variable verdict : AppState num -> AppEdge num -> num -> Verdict num.

Hypothesis validateSystem_eq : forall depth s,
  validateSystem depth s =
  match forEach (edges s) (validateEdge s depth) ∅ with
  | None => None
  | Some results => Some (setValidation results s)
  end.
Hypothesis validateEdge_eq : forall s depth results edge,
  validateEdge s depth results edge =
  match getFlow (nodes s) (edges s) depth (edge_id edge) with
  | None => None
  | Some f => Some (<[edge_id edge := verdict s edge f]> results)
  end.
Hypothesis verdict_flow : forall s edge f, flow (verdict s edge f) = f.
Hypothesis verdict_snapshot : forall s1 s2 edge f,
  sameSnapshot s1 s2 -> verdict s1 edge f = verdict s2 edge f.

Lemma pass_body_inserts (s : AppState num) (depth : nat)
    (r : gmap string (Verdict num)) (e : AppEdge num)
    (r' : gmap string (Verdict num)) :
  validateEdge s depth r e = Some r' ->
  exists vd, r' = <[edge_id e := vd]> r /\
    exists f, getFlow (nodes s) (edges s) depth (edge_id e) = Some f /\
              vd = verdict s e f.
Proof using validateEdge_eq.
  rewrite validateEdge_eq.
  destruct (getFlow _ _ _ _) as [f|]; [|discriminate].
  intros [= <-]. eauto.
Qed.

Lemma pass_result (depth : nat) (s s' : AppState num) :
  validateSystem depth s = Some s' ->
  exists results,
    forEach (edges s) (validateEdge s depth) ∅ = Some results /\
    s' = setValidation results s.
Proof using validateSystem_eq.
  rewrite validateSystem_eq.
  destruct (forEach _ _ _) as [results|]; [|discriminate].
  intros [= <-]. eauto.
Qed.

(** The only effect of a pass is the new verdict map. *)
Lemma pass_frame (depth : nat) (s s' : AppState num) :
  validateSystem depth s = Some s' -> onlyValidationChanged s s'.
Proof using validateSystem_eq.
  intros Hs. apply pass_result in Hs as (results & _ & ->).
  repeat split.
Qed.

(** The keys of the map of the model are the edge ids (of the record it
    stands for, these are the own keys but for [__proto__]: see
    [Object_keys]). *)
Lemma pass_dom (depth : nat) (s s' : AppState num) :
  validateSystem depth s = Some s' ->
  dom (validation s') = list_to_set (map edge_id (edges s)).
Proof using validateSystem_eq validateEdge_eq.
  intros Hs. apply pass_result in Hs as (results & Hr & ->). simpl.
  rewrite (forEach_inserts_dom edge_id _ _ (pass_body_inserts s depth)
             _ _ _ Hr).
  now rewrite dom_empty_L, union_empty_l_L.
Qed.

(** The entry of an edge is the verdict of an edge with that id, on the
    flow [getFlow] returns for the id. *)
Lemma pass_entry (depth : nat) (s s' : AppState num) (e : AppEdge num) :
  validateSystem depth s = Some s' -> In e (edges s) ->
  exists e' f,
    In e' (edges s) /\ edge_id e' = edge_id e /\
    getFlow (nodes s) (edges s) depth (edge_id e) = Some f /\
    validation s' !! edge_id e = Some (verdict s e' f).
Proof using validateSystem_eq validateEdge_eq.
  intros Hs He. apply pass_result in Hs as (results & Hr & ->). simpl.
  destruct (forEach_inserts_entry edge_id _ _ (pass_body_inserts s depth)
              _ _ _ e Hr He) as (e' & vd & He' & Hk & Hl & f & Hf & ->).
  exists e', f. rewrite <- Hk. repeat split; try assumption.
  now rewrite Hk.
Qed.

Lemma NoDup_edge_id_inj (es : list (AppEdge num)) (e e' : AppEdge num) :
  List.NoDup (map edge_id es) -> In e es -> In e' es ->
  edge_id e' = edge_id e -> e' = e.
Proof.
  induction es as [|e0 es IH]; intros HND He He' Hk; [inversion He|].
  simpl in HND. inversion HND as [|? ? Hni HND']; subst.
  destruct He as [-> | He], He' as [-> | He']; auto.
  - exfalso. apply Hni. rewrite <- Hk. now apply in_map.
  - exfalso. apply Hni. rewrite Hk. now apply in_map.
Qed.

(** With unique edge ids the entry of an edge is its own verdict. *)
Lemma pass_entry_NoDup (depth : nat) (s s' : AppState num) (e : AppEdge num) :
  validateSystem depth s = Some s' ->
  List.NoDup (map edge_id (edges s)) -> In e (edges s) ->
  exists f,
    getFlow (nodes s) (edges s) depth (edge_id e) = Some f /\
    validation s' !! edge_id e = Some (verdict s e f).
Proof using validateSystem_eq validateEdge_eq.
  intros Hs HND He.
  destruct (pass_entry depth s s' e Hs He) as (e' & f & He' & Hk & Hf & Hv).
  rewrite (NoDup_edge_id_inj _ _ _ HND He He' Hk) in Hv. eauto.
Qed.

(** An edge whose destination node is missing carries flow 0. *)
Lemma pass_covers (depth : nat) (s s' : AppState num) :
  validateSystem depth s = Some s' ->
  covers (nodes s) (edges s) (validation s').
Proof using validateSystem_eq validateEdge_eq verdict_flow.
  intros Hs. split.
  { unfold Object_keys. now rewrite (pass_dom depth s s' Hs). }
  intros e He Hn.
  destruct (lookupEdge_id _ _ _ He) as [_ Hin].
  destruct (pass_entry depth s s' e Hs Hin) as (e' & f & _ & _ & Hf & Hv).
  exists (verdict s e' f). split; [exact Hv|].
  rewrite verdict_flow.
  destruct depth as [|depth]; [discriminate|].
  rewrite getFlow_unfold, He, Hn in Hf. congruence.
Qed.

(** The pass returns when every call of [getFlow] it makes returns. *)
Lemma pass_returns (depth : nat) (s : AppState num) :
  (forall e, In e (edges s) ->
     exists f, getFlow (nodes s) (edges s) depth (edge_id e) = Some f) ->
  exists s', validateSystem depth s = Some s'.
Proof using validateSystem_eq validateEdge_eq.
  intros Hall. rewrite validateSystem_eq.
  destruct (forEach_total (validateEdge s depth) (edges s) ∅) as [r ->];
    [|eauto].
  intros r e He. rewrite validateEdge_eq.
  destruct (Hall e He) as [f ->]. eauto.
Qed.

(** It throws when one of them does. *)
Lemma pass_throws (depth : nat) (s : AppState num) (e : AppEdge num) :
  In e (edges s) ->
  getFlow (nodes s) (edges s) depth (edge_id e) = None ->
  validateSystem depth s = None.
Proof using validateSystem_eq validateEdge_eq.
  intros He Hf.
  destruct (validateSystem depth s) as [s'|] eqn:Hs; [|reflexivity].
  destruct (pass_entry depth s s' e Hs He) as (_ & f & _ & _ & Hf' & _).
  congruence.
Qed.

(** A deeper stack does not change the result of a pass. *)
Lemma pass_mono (depth depth' : nat) (s s' : AppState num) :
  validateSystem depth s = Some s' -> (depth <= depth')%nat ->
  validateSystem depth' s = Some s'.
Proof using validateSystem_eq validateEdge_eq.
  intros Hs Hle. apply pass_result in Hs as (results & Hr & ->).
  assert (Hext : forall r1 r2 e,
            validateEdge s depth r1 e = Some r2 ->
            validateEdge s depth' r1 e = Some r2).
  { intros r1 r2 e. rewrite !validateEdge_eq.
    destruct (getFlow _ _ depth _) as [f|] eqn:Hf; [|discriminate].
    now rewrite (getFlow_mono _ _ _ _ _ _ Hf Hle). }
  now rewrite validateSystem_eq, (forEach_ext _ _ _ _ _ Hext Hr).
Qed.

(** The verdict map is a function of the snapshot. *)
Lemma pass_snapshot (depth : nat) (s1 s2 s1' : AppState num) :
  sameSnapshot s1 s2 -> validateSystem depth s1 = Some s1' ->
  validateSystem depth s2 = Some (setValidation (validation s1') s2).
Proof using validateSystem_eq validateEdge_eq verdict_snapshot.
  intros Hsame Hs. pose proof Hsame as (Hn & He & Hp).
  apply pass_result in Hs as (results & Hr & ->). simpl.
  assert (Hext : forall r1 r2 e,
            validateEdge s1 depth r1 e = Some r2 ->
            validateEdge s2 depth r1 e = Some r2).
  { intros r1 r2 e. rewrite !validateEdge_eq, <- Hn, <- He.
    destruct (getFlow _ _ depth _) as [f|]; [|discriminate].
    now rewrite (verdict_snapshot s1 s2 e f Hsame). }
  now rewrite validateSystem_eq, <- He, (forEach_ext _ _ _ _ _ Hext Hr).
Qed.

Lemma pass_deterministic (d1 d2 : nat) (s1 s2 s1' s2' : AppState num) :
  sameSnapshot s1 s2 ->
  validateSystem d1 s1 = Some s1' -> validateSystem d2 s2 = Some s2' ->
  validation s1' = validation s2'.
Proof using validateSystem_eq validateEdge_eq verdict_snapshot.
  intros Hsame H1 H2.
  apply pass_mono with (depth' := Nat.max d1 d2) in H1; [|lia].
  apply pass_mono with (depth' := Nat.max d1 d2) in H2; [|lia].
  apply (pass_snapshot _ _ _ _ Hsame) in H1.
  rewrite H1 in H2. injection H2 as <-. reflexivity.
Qed.

(** A second pass over the result of a pass changes nothing. *)
Lemma pass_idempotent (depth : nat) (s s' : AppState num) :
  validateSystem depth s = Some s' -> validateSystem depth s' = Some s'.
Proof using validateSystem_eq validateEdge_eq verdict_snapshot.
  intros Hs.
  assert (Hsame : sameSnapshot s s').
  { apply pass_frame in Hs as (Hn & He & Hp & _). repeat split; congruence. }
  rewrite (pass_snapshot _ _ _ _ Hsame Hs).
  apply pass_result in Hs as (results & _ & ->). reflexivity.
Qed.
End PassFacts.

(** ** The two components as validation passes *)

Section Components.
Context {num : Type} `{JSNumber num}.
Local Open Scope js_scope.

Lemma AppV1_validateEdge_verdict (s : AppState num) (depth : nat)
    (results : gmap string (Verdict num)) (edge : AppEdge num) :
  AppV1.validateEdge s depth results edge =
  match getFlow (nodes s) (edges s) depth (edge_id edge) with
  | None => None
  | Some f => Some (<[edge_id edge := verdictV1 s edge f]> results)
  end.
Proof.
  unfold AppV1.validateEdge, verdictV1, oversized, feeder, rank.
  destruct (getFlow _ _ _ _) as [f|]; [|reflexivity].
  destruct (f > _); destruct (List.find _ (edges s)) as [up|];
    try destruct (_ >? _)%Z; reflexivity.
Qed.

Lemma AppV2_validateEdge_verdict (s : AppState num) (depth : nat)
    (results : gmap string (Verdict num)) (edge : AppEdge num) :
  AppV2.validateEdge s depth results edge =
  match getFlow (nodes s) (edges s) depth (edge_id edge) with
  | None => None
  | Some f => Some (<[edge_id edge := verdictV2 s edge f]> results)
  end.
Proof. reflexivity. Qed.

Lemma verdictV1_snapshot (s1 s2 : AppState num) (edge : AppEdge num)
    (f : num) :
  sameSnapshot s1 s2 -> verdictV1 s1 edge f = verdictV1 s2 edge f.
Proof. intros (_ & He & Hp). unfold verdictV1. now rewrite He, Hp. Qed.

Lemma verdictV2_snapshot (s1 s2 : AppState num) (edge : AppEdge num)
    (f : num) :
  sameSnapshot s1 s2 -> verdictV2 s1 edge f = verdictV2 s2 edge f.
Proof. intros (_ & He & Hp). unfold verdictV2. now rewrite Hp. Qed.

(** In [src/unnamed/part_002] an entry is valid exactly when neither check
    fails, and it carries a message exactly when it is invalid. *)
Lemma verdictV1_isValid (s : AppState num) (edge : AppEdge num) (f : num) :
  let vd := verdictV1 s edge f in
  isValid vd = negb (flow vd > capacity vd) && negb (oversized (edges s) edge)
  /\ (isValid vd = true <-> error vd = None).
Proof.
  unfold verdictV1, oversized, feeder. simpl.
  split; [reflexivity|].
  destruct (f > _); destruct (List.find _ (edges s)) as [up|];
    try destruct (_ >? _)%Z; simpl; split; congruence.
Qed.

(** The sizing-order check fails exactly when the feeder found for the source
    of the edge has a smaller rank. *)
Lemma oversized_spec (es : list (AppEdge num)) (edge : AppEdge num) :
  oversized es edge = true <->
  exists F, feeder es (edge_from edge) = Some F /\
            (rank (edge_size edge) > rank (edge_size F))%Z.
Proof.
  unfold oversized. destruct (feeder es (edge_from edge)) as [F|].
  - rewrite Z.gtb_gt. split; [eauto|]. now intros (F' & [= <-] & HF).
  - split; [discriminate|]. now intros (F' & [=] & _).
Qed.

(** With at most one inbound edge per node the feeder found is the feeder. *)
Lemma feeder_unique (es : list (AppEdge num)) (nodeId : string)
    (F : AppEdge num) :
  (length (inbound es nodeId) <= 1)%nat -> In F es -> edge_to F = nodeId ->
  feeder es nodeId = Some F.
Proof.
  unfold inbound, feeder.
  induction es as [|e es IH]; intros Hlen Hin Hto; [inversion Hin|].
  simpl in *. destruct (String.eqb (edge_to e) nodeId) eqn:He.
  - destruct Hin as [-> | Hin]; [reflexivity|]. exfalso.
    assert (Hin' : In F (List.filter
                           (fun e => String.eqb (edge_to e) nodeId) es)).
    { apply filter_In. split; [exact Hin | now apply String.eqb_eq]. }
    simpl in Hlen. destruct (List.filter _ es); [inversion Hin' | simpl in Hlen; lia].
  - destruct Hin as [-> | Hin].
    + apply String.eqb_neq in He. contradiction.
    + now apply IH.
Qed.
End Components.

(** ** The laws in the two instances *)

Lemma float_lit_zero : JSFloat.of_Q 0 = 0%float.
Proof. vm_compute. reflexivity. Qed.

Lemma float_eqb_zero (x : float) :
  PrimFloat.eqb x 0 = true -> exists s, Prim2SF x = S754_zero s.
Proof.
  rewrite FloatAxioms.eqb_spec. change (Prim2SF 0) with (S754_zero false).
  destruct (Prim2SF x) as [s| [|] | | [|] m e]; try discriminate. eauto.
Qed.

Lemma float_gt_zero_not_le (x : float) :
  PrimFloat.ltb 0 x = true -> PrimFloat.leb x 0 = false.
Proof.
  rewrite FloatAxioms.ltb_spec, FloatAxioms.leb_spec. change (Prim2SF 0) with (S754_zero false).
  destruct (Prim2SF x) as [s| [|] | | [|] m e]; try discriminate; reflexivity.
Qed.

#[export] Instance float_number_laws (approx : float -> float -> float) :
  @JSNumberLaws float (float_number_with approx).
Proof.
  split; simpl; rewrite ?float_lit_zero.
  - reflexivity.
  - intros a b Ha Hb.
    apply float_eqb_zero in Ha as [sa Ha], Hb as [sb Hb].
    rewrite FloatAxioms.eqb_spec, FloatAxioms.add_spec, Ha, Hb.
    destruct sa, sb; reflexivity.
  - apply float_gt_zero_not_le.
Qed.

Lemma real_lit_zero : Q2R 0 = 0%R.
Proof. unfold Q2R. simpl. lra. Qed.

#[export] Instance real_number_laws : @JSNumberLaws R real_number.
Proof.
  split; simpl; rewrite ?real_lit_zero.
  - destruct (Req_dec_T 0 0); [reflexivity | contradiction].
  - intros a b.
    destruct (Req_dec_T a 0), (Req_dec_T b 0); try discriminate.
    intros _ _. destruct (Req_dec_T (a + b) 0); [reflexivity | lra].
  - intros a. destruct (Rgt_dec a 0); [|discriminate].
    intros _. destruct (Rle_dec a 0); [lra | reflexivity].
Qed.

(** * The statements of the design document *)

Ltac solve_NoDup :=
  repeat (constructor; [simpl; intuition discriminate|]); constructor.

(** ** Demand propagation *)

(** C3: for an edge [E] (of a network with unique edge ids) whose destination
    node exists, [getFlow] returns [v] for [E] exactly when it returns for
    every edge leaving the destination and [v] is the destination's own
    demand (its [btu] added to 0 for an appliance, 0 otherwise) with the
    returned flows of those edges added from left to right; hence when every
    appliance at or below the destination has demand [== 0], the flow is
    [== 0]. *)
Theorem getFlow_own_demand_plus_downstream
    {num : Type} `{JSNumber num} `{!JSNumberLaws num}
    (nodes : list (AppNode num)) (edges : list (AppEdge num))
    (E : AppEdge num) (targetNode : AppNode num) :
  List.NoDup (map edge_id edges) -> In E edges ->
  lookupNode nodes (edge_to E) = Some targetNode ->
  (forall v,
     flows nodes edges (edge_id E) v <->
     exists fs,
       Forall2 (fun out f => flows nodes edges (edge_id out) f)
               (outbound edges (edge_to E)) fs /\
       v = fold_left add fs (ownDemand targetNode)) /\
  (zeroDemandBelow nodes edges (edge_to E) ->
   forall v, flows nodes edges (edge_id E) v -> eqn v (lit 0) = true).
Proof.
  intros HND Hin Hn. split.
  - intros v. apply flows_step; [|exact Hn]. now apply lookupEdge_NoDup.
  - intros Hz v [depth Hv]. eapply getFlow_zero; eassumption.
Qed.

Lemma getFlow_own_demand_plus_downstream_witness :
  let S := Samples.oversized_branch in
  let E := Samples.pipe "e1" "M" "J" HALF 10 in
  let J := Samples.node "J" JUNCTION 0 in
  (forall v,
     flows (nodes S) (edges S) "e1" v <->
     exists fs,
       Forall2 (fun out f => flows (nodes S) (edges S) (edge_id out) f)
               (outbound (edges S) "J") fs /\
       v = fold_left PrimFloat.add fs (ownDemand J)) /\
  (zeroDemandBelow (nodes S) (edges S) "J" ->
   forall v, flows (nodes S) (edges S) "e1" v ->
             PrimFloat.eqb v (JSFloat.of_Q 0) = true).
Proof.
  intros S E J.
  apply (@getFlow_own_demand_plus_downstream float float_number
           (float_number_laws _) (nodes S) (edges S) E J).
  - solve_NoDup.
  - left. reflexivity.
  - reflexivity.
Defined.

(** C5, as the code has it: [getFlow] has no cycle guard.  When the calls it
    starts reach no call that leads back to itself (so, with unique edge
    ids, on every network whose pipes form no directed cycle) it returns,
    and a stack of one more call than there are edges is enough; when they
    reach one it does not return, however deep the stack. *)
Theorem getFlow_returns_unless_cycle
    {num : Type} `{JSNumber num}
    (nodes : list (AppNode num)) (edges : list (AppEdge num)) (a : string) :
  (~ cycleBelow nodes edges a ->
   exists v, forall depth,
     (length edges < depth)%nat -> getFlow nodes edges depth a = Some v) /\
  (cycleBelow nodes edges a ->
   forall depth, getFlow nodes edges depth a = None).
Proof.
  split.
  - apply getFlow_terminates.
  - intros Hc depth. now apply cycleBelow_getFlow_None.
Qed.

Lemma getFlow_returns_unless_cycle_witness :
  let S := Samples.oversized_branch in
  ~ cycleBelow (nodes S) (edges S) "e1" /\
  exists v, forall depth,
    (2 < depth)%nat ->
    getFlow (nodes S) (edges S) depth "e1" = Some v.
Proof.
  intros S.
  assert (Hno : ~ cycleBelow (nodes S) (edges S) "e1").
  { intros Hc.
    pose proof (cycleBelow_getFlow_None (nodes S) (edges S) 3 "e1" Hc) as HN.
    vm_compute in HN. discriminate HN. }
  split; [exact Hno|].
  exact (proj1 (@getFlow_returns_unless_cycle float float_number
                  (nodes S) (edges S) "e1") Hno).
Defined.

(** The two pipes of [Samples.two_cycle] call each other. *)
Lemma two_cycle_cycleBelow :
  cycleBelow (nodes Samples.two_cycle)
             (edges Samples.two_cycle) "e1".
Proof.
  exists "e1". split; [apply rt_refl|].
  apply t_trans with "e2"; apply t_step.
  - exists (Samples.pipe "e1" "P" "Q" HALF 10), (Samples.node "Q" JUNCTION 0),
           (Samples.pipe "e2" "Q" "P" HALF 10).
    split; [reflexivity | split; [reflexivity | split; [|reflexivity]]].
    left. reflexivity.
  - exists (Samples.pipe "e2" "Q" "P" HALF 10), (Samples.node "P" JUNCTION 0),
           (Samples.pipe "e1" "P" "Q" HALF 10).
    split; [reflexivity | split; [reflexivity | split; [|reflexivity]]].
    left. reflexivity.
Qed.

(** C5 as stated fails: on two pipes that feed each other [getFlow] returns
    for no stack depth. *)
Lemma getFlow_two_cycle_never_returns :
  ~ exists depth v,
      getFlow (nodes Samples.two_cycle)
              (edges Samples.two_cycle) depth "e1" = Some v.
Proof.
  intros (depth & v & Hv).
  rewrite (cycleBelow_getFlow_None _ _ depth "e1" two_cycle_cycleBelow) in Hv.
  discriminate.
Qed.

(** ** The validation pass of either component *)

Section PassClaims.
Context {num : Type} `{JSNumber num}.

Lemma AppV1_validateSystem_eq (depth : nat) (s : AppState num) :
  AppV1.validateSystem depth s =
  match forEach (edges s) (AppV1.validateEdge s depth) ∅ with
  | None => None
  | Some results => Some (setValidation results s)
  end.
Proof. reflexivity. Qed.

Lemma AppV2_validateSystem_eq (depth : nat) (s : AppState num) :
  AppV2.validateSystem depth s =
  match forEach (edges s) (AppV2.validateEdge s depth) ∅ with
  | None => None
  | Some results => Some (setValidation results s)
  end.
Proof. reflexivity. Qed.

Lemma verdictV1_flow (s : AppState num) (e : AppEdge num) (f : num) :
  flow (verdictV1 s e f) = f.
Proof. reflexivity. Qed.

Lemma verdictV2_flow (s : AppState num) (e : AppEdge num) (f : num) :
  flow (verdictV2 s e f) = f.
Proof. reflexivity. Qed.

(** On a network without a cycle every call of [getFlow] of a pass
    returns. *)
Lemma acyclic_getFlow_returns (s : AppState num) (depth : nat)
    (e : AppEdge num) :
  acyclic (nodes s) (edges s) -> (length (edges s) < depth)%nat ->
  exists f, getFlow (nodes s) (edges s) depth (edge_id e) = Some f.
Proof.
  intros Hac Hd.
  destruct (getFlow_terminates (nodes s) (edges s) (edge_id e)
              (acyclic_no_cycleBelow _ _ _ Hac)) as [v Hv].
  exists v. now apply Hv.
Qed.

(** A network on which [getFlow] returns for every edge has no cycle. *)
Lemma returns_acyclic (ns : list (AppNode num)) (es : list (AppEdge num)) :
  (forall e, In e es -> exists depth v,
     getFlow ns es depth (edge_id e) = Some v) ->
  acyclic ns es.
Proof.
  intros Hall a Ha.
  destruct (cycle_next ns es a a Ha) as (b & (e & _ & _ & He & _) & _).
  destruct (lookupEdge_id _ _ _ He) as [<- Hin].
  destruct (Hall e Hin) as (depth & v & Hv).
  rewrite (cycle_getFlow_None ns es depth _ Ha) in Hv. discriminate.
Qed.

(** Without an edge of the id [__proto__] the own keys are all the edge
    ids. *)
Lemma ids_without_proto (ids : list string) :
  ~ In "__proto__" ids ->
  (list_to_set ids : gset string) ∖ {["__proto__"]} = list_to_set ids.
Proof.
  intros Hno. apply set_eq. intros k.
  rewrite elem_of_difference, elem_of_list_to_set, list_elem_of_In,
    elem_of_singleton.
  split; [tauto|]. intros Hk. split; [exact Hk|]. congruence.
Qed.

Lemma AppV1_covers_when_acyclic (s : AppState num) (depth : nat) :
  acyclic (nodes s) (edges s) -> (length (edges s) < depth)%nat ->
  exists s', AppV1.validateSystem depth s = Some s' /\
             covers (nodes s) (edges s) (validation s').
Proof.
  intros Hac Hd.
  destruct (pass_returns AppV1.validateEdge AppV1.validateSystem verdictV1
              AppV1_validateSystem_eq AppV1_validateEdge_verdict depth s)
    as [s' Hs'].
  { intros e _. now apply acyclic_getFlow_returns. }
  exists s'. split; [exact Hs'|].
  exact (pass_covers AppV1.validateEdge AppV1.validateSystem verdictV1
           AppV1_validateSystem_eq AppV1_validateEdge_verdict verdictV1_flow
           depth s s' Hs').
Qed.

Lemma AppV2_covers_when_acyclic (s : AppState num) (depth : nat) :
  acyclic (nodes s) (edges s) -> (length (edges s) < depth)%nat ->
  exists s', AppV2.validateSystem depth s = Some s' /\
             covers (nodes s) (edges s) (validation s').
Proof.
  intros Hac Hd.
  destruct (pass_returns AppV2.validateEdge AppV2.validateSystem verdictV2
              AppV2_validateSystem_eq AppV2_validateEdge_verdict depth s)
    as [s' Hs'].
  { intros e _. now apply acyclic_getFlow_returns. }
  exists s'. split; [exact Hs'|].
  exact (pass_covers AppV2.validateEdge AppV2.validateSystem verdictV2
           AppV2_validateSystem_eq AppV2_validateEdge_verdict verdictV2_flow
           depth s s' Hs').
Qed.

(** A pass throws as soon as one edge has a cycle below it. *)
Lemma validateSystem_throws_on_cycle (s : AppState num) (depth : nat)
    (e : AppEdge num) :
  In e (edges s) -> cycleBelow (nodes s) (edges s) (edge_id e) ->
  AppV1.validateSystem depth s = None /\ AppV2.validateSystem depth s = None.
Proof.
  intros Hin Hc.
  pose proof (cycleBelow_getFlow_None _ _ depth _ Hc) as HN. split.
  - exact (pass_throws AppV1.validateEdge AppV1.validateSystem verdictV1
             AppV1_validateSystem_eq AppV1_validateEdge_verdict
             depth s e Hin HN).
  - exact (pass_throws AppV2.validateEdge AppV2.validateSystem verdictV2
             AppV2_validateSystem_eq AppV2_validateEdge_verdict
             depth s e Hin HN).
Qed.
End PassClaims.

(** C4, as the code has it: on every network on which no call of [getFlow]
    leads back to itself -- with unique edge ids, every network whose pipes
    form no directed cycle ([noPipeCycle_acyclic]); dangling edges and edges
    without a feeder included -- both [validateSystem]s return once the
    stack admits one more call than there are edges; the own keys of the
    verdict record are then exactly the edge ids other than [__proto__]
    (all the edge ids, when no edge has that id), and an edge whose
    destination node is missing has flow 0. *)
Theorem validateSystem_covers_when_acyclic
    {num : Type} `{JSNumber num} (s : AppState num) (depth : nat) :
  acyclic (nodes s) (edges s) -> (length (edges s) < depth)%nat ->
  (exists s', AppV1.validateSystem depth s = Some s' /\
              covers (nodes s) (edges s) (validation s') /\
              (~ In "__proto__" (map edge_id (edges s)) ->
               Object_keys (validation s') =
               list_to_set (map edge_id (edges s)))) /\
  (exists s', AppV2.validateSystem depth s = Some s' /\
              covers (nodes s) (edges s) (validation s') /\
              (~ In "__proto__" (map edge_id (edges s)) ->
               Object_keys (validation s') =
               list_to_set (map edge_id (edges s)))).
Proof.
  intros Hac Hd. split.
  - destruct (AppV1_covers_when_acyclic s depth Hac Hd) as (s' & Hs' & Hc).
    exists s'. split; [exact Hs'|]. split; [exact Hc|].
    intros Hno. rewrite (proj1 Hc). now apply ids_without_proto.
  - destruct (AppV2_covers_when_acyclic s depth Hac Hd) as (s' & Hs' & Hc).
    exists s'. split; [exact Hs'|]. split; [exact Hc|].
    intros Hno. rewrite (proj1 Hc). now apply ids_without_proto.
Qed.

Lemma validateSystem_covers_when_acyclic_witness :
  let S := Samples.dangling_pipe in
  let e2 := Samples.pipe "e2" "M" "X" HALF 10 in
  (lookupEdge (edges S) "e2" = Some e2 /\ lookupNode (nodes S) "X" = None) /\
  (exists s', AppV1.validateSystem 3 S = Some s' /\
              Object_keys (validation s') = {["e1"; "e2"]} /\
              exists vd, validation s' !! "e2" = Some vd /\
                         flow vd = 0%float) /\
  (exists s', AppV2.validateSystem 3 S = Some s' /\
              Object_keys (validation s') = {["e1"; "e2"]} /\
              exists vd, validation s' !! "e2" = Some vd /\
                         flow vd = 0%float).
Proof.
  intros S e2.
  assert (He2 : lookupEdge (edges S) (edge_id e2) = Some e2) by reflexivity.
  assert (Hx : lookupNode (nodes S) (edge_to e2) = None) by reflexivity.
  assert (Hno : ~ In "__proto__" (map edge_id (edges S))).
  { simpl. intuition discriminate. }
  split; [split; reflexivity|].
  destruct (@validateSystem_covers_when_acyclic float float_number S 3)
    as [(s1 & Hs1 & Hc1 & Hk1) (s2 & Hs2 & Hc2 & Hk2)].
  - apply returns_acyclic. intros e [<- | [<- | []]];
      exists 3%nat; eexists; vm_compute; reflexivity.
  - simpl. lia.
  - split.
    + exists s1. split; [exact Hs1|]. split.
      * rewrite (Hk1 Hno). simpl. set_solver.
      * exact (proj2 Hc1 e2 He2 Hx).
    + exists s2. split; [exact Hs2|]. split.
      * rewrite (Hk2 Hno). simpl. set_solver.
      * exact (proj2 Hc2 e2 He2 Hx).
Defined.

(** C4 as stated fails, in two ways.  On two pipes that feed each other
    neither [validateSystem] returns, for any stack depth.  And on a drawing
    whose one pipe has the id [__proto__] the pass of [src/App.tsx] returns
    a verdict record without any own key. *)
Lemma validateSystem_cycle_or_proto_key :
  (~ exists depth s',
       AppV1.validateSystem depth Samples.two_cycle = Some s' \/
       AppV2.validateSystem depth Samples.two_cycle = Some s') /\
  (map edge_id (edges Samples.proto_pipe) = ["__proto__"] /\
   exists s', AppV2.validateSystem 2 Samples.proto_pipe = Some s' /\
              Object_keys (validation s') = ∅).
Proof.
  split.
  - intros (depth & s' & Hs).
    destruct (validateSystem_throws_on_cycle Samples.two_cycle depth
                (Samples.pipe "e1" "P" "Q" HALF 10)) as [H1 H2].
    + left. reflexivity.
    + exact two_cycle_cycleBelow.
    + destruct Hs as [Hs | Hs]; congruence.
  - split; [reflexivity|].
    destruct (@AppV2_covers_when_acyclic float float_number
                Samples.proto_pipe 2) as (s' & Hs' & Hk & _).
    + apply returns_acyclic. intros e [<- | []].
      exists 2%nat. eexists. vm_compute. reflexivity.
    + simpl. lia.
    + exists s'. split; [exact Hs'|]. rewrite Hk. simpl. set_solver.
Qed.

(** C8: the verdict map is a function of the snapshot
    [(nodes, edges, pressureDrop)].  Two passes of the same component on
    states that hold the same snapshot -- whatever their previous verdict
    maps, selections and stack depths -- produce the same verdict map, entry
    by entry with all four fields; and a pass over the result of a pass
    returns that result again. *)
Theorem validateSystem_deterministic
    {num : Type} `{JSNumber num}
    (d1 d2 : nat) (s1 s2 s1' s2' : AppState num) :
  sameSnapshot s1 s2 ->
  (AppV1.validateSystem d1 s1 = Some s1' ->
   AppV1.validateSystem d2 s2 = Some s2' ->
   validation s1' = validation s2') /\
  (AppV2.validateSystem d1 s1 = Some s1' ->
   AppV2.validateSystem d2 s2 = Some s2' ->
   validation s1' = validation s2') /\
  (AppV1.validateSystem d1 s1 = Some s1' ->
   AppV1.validateSystem d1 s1' = Some s1') /\
  (AppV2.validateSystem d1 s1 = Some s1' ->
   AppV2.validateSystem d1 s1' = Some s1').
Proof.
  intros Hsame. repeat split.
  - exact (pass_deterministic AppV1.validateEdge AppV1.validateSystem
             verdictV1 AppV1_validateSystem_eq AppV1_validateEdge_verdict
             verdictV1_snapshot d1 d2 s1 s2 s1' s2' Hsame).
  - exact (pass_deterministic AppV2.validateEdge AppV2.validateSystem
             verdictV2 AppV2_validateSystem_eq AppV2_validateEdge_verdict
             verdictV2_snapshot d1 d2 s1 s2 s1' s2' Hsame).
  - exact (pass_idempotent AppV1.validateEdge AppV1.validateSystem
             verdictV1 AppV1_validateSystem_eq AppV1_validateEdge_verdict
             verdictV1_snapshot d1 s1 s1').
  - exact (pass_idempotent AppV2.validateEdge AppV2.validateSystem
             verdictV2 AppV2_validateSystem_eq AppV2_validateEdge_verdict
             verdictV2_snapshot d1 s1 s1').
Qed.

Lemma validateSystem_deterministic_witness :
  let S := Samples.oversized_branch in
  let S' := setSelectedId (Some "e2") S in
  sameSnapshot S S' /\
  exists s1' s2',
    AppV1.validateSystem 3 S = Some s1' /\
    AppV1.validateSystem 7 S' = Some s2' /\
    validation s1' = validation s2'.
Proof.
  intros S S'.
  assert (Hsame : sameSnapshot S S') by (repeat split).
  split; [exact Hsame|].
  destruct (AppV1.validateSystem 3 S) as [s1'|] eqn:H1;
    [|vm_compute in H1; discriminate H1].
  destruct (AppV1.validateSystem 7 S') as [s2'|] eqn:H2;
    [|vm_compute in H2; discriminate H2].
  exists s1', s2'. split; [reflexivity|]. split; [reflexivity|].
  exact (proj1 (@validateSystem_deterministic float float_number
                  3 7 S S' s1' s2' Hsame) H1 H2).
Defined.

(** C9: a pass leaves the snapshot alone.  The state either component
    returns has the nodes, the edges and the pressure drop (and the
    selection) of the state it was given, field for field; only the verdict
    map is new. *)
Theorem validateSystem_frame
    {num : Type} `{JSNumber num} (depth : nat) (s s' : AppState num) :
  AppV1.validateSystem depth s = Some s' \/
  AppV2.validateSystem depth s = Some s' ->
  onlyValidationChanged s s'.
Proof.
  intros [Hs | Hs].
  - exact (pass_frame AppV1.validateEdge AppV1.validateSystem
             AppV1_validateSystem_eq depth s s' Hs).
  - exact (pass_frame AppV2.validateEdge AppV2.validateSystem
             AppV2_validateSystem_eq depth s s' Hs).
Qed.

Lemma validateSystem_frame_witness :
  let S := Samples.oversized_branch in
  exists s', AppV2.validateSystem 3 S = Some s' /\
             onlyValidationChanged S s'.
Proof.
  intros S.
  destruct (AppV2.validateSystem 3 S) as [s'|] eqn:Hs.
  - exists s'. split; [reflexivity|].
    apply (@validateSystem_frame float float_number 3 S s').
    right. exact Hs.
  - vm_compute in Hs. discriminate Hs.
Defined.

(** ** The validity verdict *)

Section ValidityFacts.
Context {num : Type} `{JSNumber num}.
Local Open Scope js_scope.

(** The validity rule of [src/unnamed/part_002]: the entry of every edge (of
    a network with unique edge ids) is valid exactly when the flow does not
    exceed the capacity and the edge is not larger than the feeder found for
    its source; an edge without a feeder undergoes the capacity check
    only. *)
Lemma AppV1_isValid_iff (depth : nat) (s s' : AppState num) (E : AppEdge num) :
  AppV1.validateSystem depth s = Some s' ->
  List.NoDup (map edge_id (edges s)) -> In E (edges s) ->
  exists vd,
    validation s' !! edge_id E = Some vd /\
    flows (nodes s) (edges s) (edge_id E) (flow vd) /\
    capacity vd = AppV1.calculateCapacity (pressureDrop s) (edge_size E)
                                          (edge_length E) /\
    (isValid vd = true <->
       (flow vd > capacity vd) = false /\
       ~ exists F, feeder (edges s) (edge_from E) = Some F /\
                   (rank (edge_size E) > rank (edge_size F))%Z) /\
    (feeder (edges s) (edge_from E) = None ->
       isValid vd = negb (flow vd > capacity vd)).
Proof.
  intros Hs HND Hin.
  destruct (pass_entry_NoDup AppV1.validateEdge AppV1.validateSystem
              verdictV1 AppV1_validateSystem_eq AppV1_validateEdge_verdict
              depth s s' E Hs HND Hin) as (f & Hf & Hv).
  exists (verdictV1 s E f). split; [exact Hv|].
  split; [now exists depth|]. split; [reflexivity|].
  destruct (verdictV1_isValid s E f) as [Hval _]. cbv zeta in Hval.
  split.
  - rewrite Hval, <- oversized_spec, andb_true_iff, !negb_true_iff.
    split; intros [H1 H2]; split; try assumption.
    + now rewrite H2.
    + now destruct (oversized (edges s) E); [exfalso; apply H2|].
  - intros Hnone. rewrite Hval. unfold oversized. rewrite Hnone.
    now rewrite andb_true_r.
Qed.

(** In [src/App.tsx] validity is the capacity check alone. *)
Lemma AppV2_isValid_capacity_only (depth : nat) (s s' : AppState num)
    (E : AppEdge num) :
  AppV2.validateSystem depth s = Some s' -> In E (edges s) ->
  exists vd,
    validation s' !! edge_id E = Some vd /\
    isValid vd = (flow vd <= capacity vd) /\ error vd = None.
Proof.
  intros Hs Hin.
  destruct (pass_entry AppV2.validateEdge AppV2.validateSystem
              verdictV2 AppV2_validateSystem_eq AppV2_validateEdge_verdict
              depth s s' E Hs Hin) as (E' & f & _ & _ & _ & Hv).
  exists (verdictV2 s E' f). repeat split. exact Hv.
Qed.
End ValidityFacts.

(** C1, on [src/App.tsx]: a 3/4 in branch fed by a 1/2 in feeder, carrying
    40000 BTU/h over 10 ft at a drop of 0.5, fails the sizing-order check,
    and [validateSystem] of [src/App.tsx] marks it valid, because its
    capacity of 200000 BTU/h is not exceeded; [validateSystem] of
    [src/unnamed/part_002] marks the same edge invalid, with the sizing
    message. *)
Theorem AppV2_validateSystem_skips_sizing_order :
  let S := Samples.oversized_branch in
  let branch := Samples.pipe "e2" "J" "A" THREE_QUARTERS 10 in
  (oversized (edges S) branch = true /\
   verdictAt (AppV2.validateSystem 3 S) "e2" =
     Some {| isValid := true; flow := 40000; capacity := 200000;
             error := None |} /\
   verdictAt (AppV1.validateSystem 3 S) "e2" =
     Some {| isValid := false; flow := 40000; capacity := 200000;
             error := Some (AppV1.sizingMessage THREE_QUARTERS HALF) |})%float.
Proof. repeat split; vm_compute; reflexivity. Qed.

(** ** The edge-addition guard *)

Section ShapeFacts.
Context {num : Type} `{JSNumber num}.

Lemma lookupNode_NoDup (ns : list (AppNode num)) (n : AppNode num) :
  List.NoDup (map node_id ns) -> In n ns -> lookupNode ns (node_id n) = Some n.
Proof.
  unfold lookupNode.
  induction ns as [|n0 ns IH]; intros HND Hin; [inversion Hin|].
  simpl in *. inversion HND as [|? ? Hnotin HND']; subst.
  destruct Hin as [->|Hin].
  - now rewrite String.eqb_refl.
  - destruct (String.eqb (node_id n0) (node_id n)) eqn:Heq.
    + apply String.eqb_eq in Heq. exfalso. apply Hnotin.
      rewrite Heq. now apply in_map.
    + now apply IH.
Qed.

Lemma feeder_None_inbound (es : list (AppEdge num)) (nodeId : string) :
  feeder es nodeId = None -> inbound es nodeId = [].
Proof.
  unfold feeder, inbound. induction es as [|e es IH]; [reflexivity|].
  simpl. destruct (String.eqb (edge_to e) nodeId); [discriminate | exact IH].
Qed.

Lemma inbound_snoc (es : list (AppEdge num)) (e : AppEdge num)
    (nodeId : string) :
  inbound (es ++ [e]) nodeId =
  inbound es nodeId ++ (if String.eqb (edge_to e) nodeId then [e] else []).
Proof. unfold inbound. now rewrite List.filter_app. Qed.

Lemma outbound_snoc (es : list (AppEdge num)) (e : AppEdge num)
    (nodeId : string) :
  outbound (es ++ [e]) nodeId =
  outbound es nodeId ++ (if String.eqb (edge_from e) nodeId then [e] else []).
Proof. unfold outbound. now rewrite List.filter_app. Qed.

(** A network without pipes is well shaped. *)
Lemma wellShaped_no_edges (ns : list (AppNode num)) : wellShaped ns [].
Proof. split; simpl; intros; (lia || reflexivity || contradiction). Qed.

(** [handleAddEdge] of [src/unnamed/part_002] keeps a network well shaped:
    it refuses a self-loop, a second inbound pipe, a third pipe out of a
    junction and any pipe out of an appliance. *)
Lemma AppV1_handleAddEdge_wellShaped (newId fromId toId : string)
    (s : AppState num) :
  List.NoDup (map node_id (nodes s)) ->
  wellShaped (nodes s) (edges s) ->
  let s' := AppV1.handleAddEdge newId fromId toId s in
  nodes s' = nodes s /\ wellShaped (nodes s') (edges s').
Proof.
  intros HND HW. unfold AppV1.handleAddEdge.
  destruct (String.eqb fromId toId) eqn:Hloop; [now split|].
  destruct (List.find _ (nodes s)) as [fromNode|] eqn:Hfrom; [|now split].
  destruct (List.find _ (edges s)) as [F|] eqn:Hfeed; [now split|].
  destruct (NodeType_eqb (node_type fromNode) JUNCTION && _) eqn:Hjun;
    [now split|].
  destruct (NodeType_eqb (node_type fromNode) APPLIANCE) eqn:Happ;
    [now split|].
  simpl. split; [reflexivity|].
  assert (Hsame : forall n, In n (nodes s) -> node_id n = fromId ->
                            n = fromNode).
  { intros n Hn Hid. pose proof (lookupNode_NoDup _ n HND Hn) as Hl.
    unfold lookupNode in Hl. rewrite Hid, Hfrom in Hl. congruence. }
  destruct HW as [Hin Hj Ha Hl]. split.
  - intros nodeId. rewrite inbound_snoc, length_app. simpl.
    destruct (String.eqb toId nodeId) eqn:Hto.
    + apply String.eqb_eq in Hto. subst nodeId.
      rewrite (feeder_None_inbound _ _ Hfeed). simpl. lia.
    + specialize (Hin nodeId). simpl. lia.
  - intros n Hn Ht. rewrite outbound_snoc, length_app. simpl.
    destruct (String.eqb fromId (node_id n)) eqn:Hf.
    + apply String.eqb_eq in Hf.
      assert (n = fromNode) as -> by (apply Hsame; auto).
      rewrite Ht in Hjun. cbn [NodeType_eqb andb] in Hjun.
      apply Nat.leb_gt in Hjun. unfold outbound. rewrite <- Hf.
      simpl. lia.
    + specialize (Hj n Hn Ht). simpl. lia.
  - intros n Hn Ht. rewrite outbound_snoc. simpl.
    destruct (String.eqb fromId (node_id n)) eqn:Hf.
    + apply String.eqb_eq in Hf.
      assert (n = fromNode) as -> by (apply Hsame; auto).
      rewrite Ht in Happ. discriminate.
    + rewrite (Ha n Hn Ht). reflexivity.
  - intros e He. apply in_app_or in He as [He | [<- | []]].
    + now apply Hl.
    + simpl. now apply String.eqb_neq.
Qed.

(** Every state reached through [handleAddEdge] of [src/unnamed/part_002]
    is well shaped. *)
Lemma AppV1_reachable_wellShaped (s : AppState num) :
  reachableV1 s ->
  List.NoDup (map node_id (nodes s)) /\ wellShaped (nodes s) (edges s).
Proof.
  induction 1 as [s HND HW | s newId fromId toId _ [HND HW]].
  - now split.
  - destruct (AppV1_handleAddEdge_wellShaped newId fromId toId s HND HW)
      as [Hn HW'].
    split; [now rewrite Hn | exact HW'].
Qed.
End ShapeFacts.

Lemma meter_to_heater_wellShaped :
  wellShaped (nodes Samples.meter_to_heater) (edges Samples.meter_to_heater).
Proof.
  split.
  - intros nodeId. unfold inbound.
    change (edges Samples.meter_to_heater)
      with [Samples.pipe "e1" "M" "A" HALF 10].
    cbn [List.filter]. destruct (String.eqb _ nodeId); simpl; lia.
  - intros n [<- | [<- | [<- | []]]] Ht; vm_compute; lia.
  - intros n [<- | [<- | [<- | []]]] Ht; try discriminate Ht. reflexivity.
  - intros e [<- | []]. discriminate.
Qed.

(** C10, on [src/App.tsx]: [onAddEdge] appends the pipe without any check.
    From the well-shaped network meter -> heater, connecting the junction to
    the heater gives the heater a second inbound pipe, and connecting the
    heater to the junction gives an appliance an outbound pipe;
    [handleAddEdge] of [src/unnamed/part_002] refuses both. *)
Theorem AppV2_onAddEdge_breaks_shape :
  let S := Samples.meter_to_heater in
  let S1 := AppV2.connect "e2" "J" "A" S in
  let S2 := AppV2.connect "e3" "A" "J" S in
  wellShaped (nodes S) (edges S) /\
  length (inbound (edges S1) "A") = 2%nat /\
  ~ wellShaped (nodes S1) (edges S1) /\
  length (outbound (edges S2) "A") = 1%nat /\
  ~ wellShaped (nodes S2) (edges S2) /\
  AppV1.handleAddEdge "e2" "J" "A" S = S /\
  AppV1.handleAddEdge "e3" "A" "J" S = S.
Proof.
  intros S S1 S2. split; [exact meter_to_heater_wellShaped|].
  split; [reflexivity|]. split.
  { intros [Hin _ _ _]. specialize (Hin "A"). vm_compute in Hin. lia. }
  split; [reflexivity|]. split.
  { intros [_ _ Ha _].
    specialize (Ha (Samples.node "A" APPLIANCE 40000)).
    discriminate Ha; [right; right; left|]; reflexivity. }
  split; reflexivity.
Qed.

(** ** The capacity formula *)

(** C2: for every size of the table and every length [> 0],
    [calculateCapacity] is the formula of the design document, computed in
    its order -- the drop divided by the length, divided by the coefficient,
    raised to one divided by the exponent, floored, times 1000; in
    particular for size 1/2 in, length 10 and drop 0.5 it is
    [floor (((0.5 / 10) / 0.00000410606) ^ (1 / 2.1590935)) * 1000].  The
    value is a function of the three inputs (and of the host's [Math.pow]);
    the older component computes the same. *)
Theorem calculateCapacity_formula
    {num : Type} `{JSNumber num} `{!JSNumberLaws num}
    (d : num) (size : PipeSize) (length : num) :
  gt length (lit 0) = true ->
  AppV2.calculateCapacity d size length = capacityFormula d size length /\
  AppV1.calculateCapacity d size length = capacityFormula d size length /\
  (gt (lit 10) (lit 0) = true ->
   AppV2.calculateCapacity (lit 0.5) HALF (lit 10) =
   mul (Math_floor
          (Math_pow (div (div (lit 0.5) (lit 10)) (lit 0.00000410606))
                    (div (lit 1) (lit 2.1590935))))
       (lit 1000)).
Proof.
  intros Hpos. split; [|split].
  - unfold AppV2.calculateCapacity, PIPE_SPECS. cbv beta iota.
    rewrite (gt_zero_not_le _ Hpos). destruct size; reflexivity.
  - destruct size; reflexivity.
  - intros H10. unfold AppV2.calculateCapacity, PIPE_SPECS. cbv beta iota.
    rewrite (gt_zero_not_le _ H10). reflexivity.
Qed.

Lemma calculateCapacity_formula_witness :
  (AppV2.calculateCapacity 0.5 HALF 10 = capacityFormula 0.5 HALF 10 /\
   AppV2.calculateCapacity 0.5 HALF 10 = 78000)%float.
Proof.
  split.
  - exact (proj1 (@calculateCapacity_formula float float_number
                    (float_number_laws _) 0.5%float HALF 10%float
                    eq_refl)).
  - vm_compute. reflexivity.
Defined.

(** C6: [calculateCapacity] of [src/App.tsx] (the same text in
    [src/unnamed/part_001]) returns 0 for every size, every pressure drop and
    every length that is [<= 0], in every number model.  The older copy in
    [src/unnamed/part_002] has no guard on the length
    ([AppV1_calculateCapacity_unguarded]); it is the same function on every
    length [> 0], and such are the lengths of that component: the pipes its
    [handleAddEdge] adds have length 10, its length slider (line 380) ranges
    over 1..250, and it reads no drawing but the one it saved. *)
Theorem calculateCapacity_degenerate
    {num : Type} `{JSNumber num} `{!JSNumberLaws num} :
  (forall (d : num) (size : PipeSize) (length : num),
     le length (lit 0) = true ->
     AppV2.calculateCapacity d size length = lit 0) /\
  (forall (d : num) (size : PipeSize) (length : num),
     gt length (lit 0) = true ->
     AppV1.calculateCapacity d size length =
     AppV2.calculateCapacity d size length) /\
  (forall (newId fromId toId : string) (s : AppState num) (e : AppEdge num),
     In e (edges (AppV1.handleAddEdge newId fromId toId s)) ->
     In e (edges s) \/ edge_length e = lit 10).
Proof.
  split; [|split].
  - intros d size length Hle.
    now apply AppV2_calculateCapacity_degenerate.
  - intros d size length Hpos.
    unfold AppV1.calculateCapacity, AppV2.calculateCapacity.
    destruct (PIPE_SPECS size); [|reflexivity].
    now rewrite (gt_zero_not_le _ Hpos).
  - intros newId fromId toId s e.
    unfold AppV1.handleAddEdge.
    destruct (String.eqb fromId toId); [now left|].
    destruct (List.find _ (nodes s)) as [fromNode|]; [|now left].
    destruct (List.find _ (edges s)); [now left|].
    destruct (_ && _); [now left|].
    destruct (NodeType_eqb _ APPLIANCE); [now left|].
    simpl. intros Hin. apply in_app_or in Hin as [Hin | [<- | []]];
      [now left | now right].
Qed.

Lemma calculateCapacity_degenerate_witness :
  (PrimFloat.ltb 0 10 = true /\
   AppV2.calculateCapacity 0.5 HALF 0 = 0 /\
   AppV2.calculateCapacity 0.5 ONE (-0) = 0 /\
   AppV2.calculateCapacity 0.5 THREE_EIGHTHS (-5) = 0 /\
   AppV2.calculateCapacity (-1) ONE_AND_QUARTER neg_infinity = 0 /\
   AppV1.calculateCapacity 0.5 HALF 10 = AppV2.calculateCapacity 0.5 HALF 10)%float.
Proof.
  destruct (@calculateCapacity_degenerate float float_number
              (float_number_laws _)) as (Hzero & Hsame & _).
  split; [reflexivity|].
  split; [apply Hzero; reflexivity|].
  split; [apply Hzero; reflexivity|].
  split; [apply Hzero; reflexivity|].
  split; [apply Hzero; reflexivity|].
  apply Hsame. reflexivity.
Defined.

(** ** The capacity and the order of the host *)

Section HostFacts.
Context {num : Type} `{JSNumber num}.
Local Open Scope js_scope.

Lemma AppV2_capacity_powerLaw `{!JSNumberLaws num}
    (d : num) (size : PipeSize) (L : num) :
  (L > #0) = true ->
  AppV2.calculateCapacity d size L =
  Math_floor (powerLaw size (d / L)) * #1000.
Proof.
  intros Hpos. unfold AppV2.calculateCapacity, PIPE_SPECS, powerLaw.
  cbv beta iota. rewrite (gt_zero_not_le _ Hpos). destruct size; reflexivity.
Qed.

(** A composition of steps that keep the order: the capacity does not grow
    with the length. *)
Lemma capacity_length_host `{!JSNumberLaws num}
    (d : num) (size : PipeSize) (L1 L2 : num) :
  orderKept -> gradientKept d size ->
  (L1 > #0) = true -> (L2 > #0) = true -> (L1 <= L2) = true ->
  (AppV2.calculateCapacity d size L2 <= AppV2.calculateCapacity d size L1)
  = true.
Proof.
  intros [Hfloor Hscale] [Hlen Hcoeff Hpow] H1 H2 H12.
  rewrite !AppV2_capacity_powerLaw by assumption.
  destruct (Hlen L1 L2 H1 H12) as [H0 Hq].
  destruct (Hcoeff _ _ H0 Hq) as [H0' Hq'].
  apply Hscale, Hfloor. unfold powerLaw. now apply Hpow.
Qed.

(** The capacities of two sizes are in the order of their power laws. *)
Lemma capacity_rank_host `{!JSNumberLaws num}
    (d : num) (s1 s2 : PipeSize) (L : num) :
  orderKept -> (L > #0) = true ->
  (powerLaw s1 (d / L) <= powerLaw s2 (d / L)) = true ->
  (AppV2.calculateCapacity d s1 L <= AppV2.calculateCapacity d s2 L) = true.
Proof.
  intros [Hfloor Hscale] HL Hp.
  rewrite !AppV2_capacity_powerLaw by assumption.
  now apply Hscale, Hfloor.
Qed.
End HostFacts.

(** ** The power law in exact arithmetic *)

Section RealPower.
Local Open Scope R_scope.

Lemma Rpower_one_base (y : R) : Rpower 1 y = 1.
Proof. unfold Rpower. now rewrite ln_1, Rmult_0_r, exp_0. Qed.

Lemma INR_pos_inv (q : nat) : (0 < q)%nat -> 0 < / INR q.
Proof. intros Hq. apply Rinv_0_lt_compat, lt_0_INR; lia. Qed.

(** [a ^ (p / q)] is the [q]-th root of [a ^ p]. *)
Lemma Rpower_root (a : R) (p q : nat) :
  0 < a -> Rpower (a ^ p) (/ INR q) = Rpower a (INR p / INR q).
Proof.
  intros Ha. rewrite <- Rpower_pow by exact Ha. now rewrite Rpower_mult.
Qed.

Lemma Rpower_root_self (n : R) (q : nat) :
  0 < n -> (0 < q)%nat -> Rpower (n ^ q) (/ INR q) = n.
Proof.
  intros Hn Hq. rewrite Rpower_root by exact Hn.
  unfold Rdiv. rewrite Rinv_r; [now apply Rpower_1|].
  apply not_0_INR. lia.
Qed.

(** Rational powers are compared through integer powers. *)
Lemma Rpower_rat_le (a b : R) (p r q : nat) :
  0 < a -> 0 < b -> (0 < q)%nat -> a ^ p <= b ^ r ->
  Rpower a (INR p / INR q) <= Rpower b (INR r / INR q).
Proof.
  intros Ha Hb Hq Hle. rewrite <- !Rpower_root by assumption.
  apply Rle_Rpower_l.
  - left. now apply INR_pos_inv.
  - split; [now apply pow_lt | exact Hle].
Qed.

Lemma Rpower_rat_lt (a b : R) (p r q : nat) :
  0 < a -> 0 < b -> (0 < q)%nat -> a ^ p < b ^ r ->
  Rpower a (INR p / INR q) < Rpower b (INR r / INR q).
Proof.
  intros Ha Hb Hq Hlt. rewrite <- !Rpower_root by assumption.
  apply Rlt_Rpower_l.
  - now apply INR_pos_inv.
  - split; [now apply pow_lt | exact Hlt].
Qed.

(** A lower and an upper bound of a power from a rational bound of the
    exponent. *)
Lemma Rpower_lower (a n y : R) (p q : nat) :
  1 <= a -> 0 < n -> (0 < q)%nat -> INR p / INR q <= y ->
  n ^ q <= a ^ p -> n <= Rpower a y.
Proof.
  intros Ha Hn Hq Hy Hle.
  apply Rle_trans with (Rpower a (INR p / INR q)).
  - rewrite <- (Rpower_root_self n q Hn Hq) at 1.
    rewrite <- Rpower_root by lra.
    apply Rle_Rpower_l.
    + left. now apply INR_pos_inv.
    + split; [now apply pow_lt | exact Hle].
  - now apply Rle_Rpower.
Qed.

Lemma Rpower_upper (a n y : R) (p q : nat) :
  1 <= a -> 0 < n -> (0 < q)%nat -> y <= INR p / INR q ->
  a ^ p < n ^ q -> Rpower a y < n.
Proof.
  intros Ha Hn Hq Hy Hlt.
  apply Rle_lt_trans with (Rpower a (INR p / INR q)).
  - now apply Rle_Rpower.
  - rewrite <- (Rpower_root_self n q Hn Hq) at 1.
    rewrite <- Rpower_root by lra.
    apply Rlt_Rpower_l.
    + now apply INR_pos_inv.
    + split; [apply pow_lt; lra | exact Hlt].
Qed.

(** Powers of ratios of integers are compared in [Z]. *)
Lemma pow_ratio_le (xn xd yn yd : Z) (p r : nat) :
  (0 < xd)%Z -> (0 < yd)%Z ->
  (xn ^ Z.of_nat p * yd ^ Z.of_nat r <= yn ^ Z.of_nat r * xd ^ Z.of_nat p)%Z ->
  (IZR xn / IZR xd) ^ p <= (IZR yn / IZR yd) ^ r.
Proof.
  intros Hxd Hyd Hle. apply IZR_le in Hle.
  rewrite !mult_IZR, <- !pow_IZR in Hle.
  assert (Hx : 0 < IZR xd ^ p) by (apply pow_lt; now apply IZR_lt).
  assert (Hy : 0 < IZR yd ^ r) by (apply pow_lt; now apply IZR_lt).
  unfold Rdiv. rewrite !Rpow_mult_distr, !pow_inv.
  apply Rmult_le_reg_r with (IZR xd ^ p * IZR yd ^ r); [nra|].
  field_simplify; lra.
Qed.

Lemma pow_ratio_lt (xn xd yn yd : Z) (p r : nat) :
  (0 < xd)%Z -> (0 < yd)%Z ->
  (xn ^ Z.of_nat p * yd ^ Z.of_nat r < yn ^ Z.of_nat r * xd ^ Z.of_nat p)%Z ->
  (IZR xn / IZR xd) ^ p < (IZR yn / IZR yd) ^ r.
Proof.
  intros Hxd Hyd Hlt. apply IZR_lt in Hlt.
  rewrite !mult_IZR, <- !pow_IZR in Hlt.
  assert (Hx : 0 < IZR xd ^ p) by (apply pow_lt; now apply IZR_lt).
  assert (Hy : 0 < IZR yd ^ r) by (apply pow_lt; now apply IZR_lt).
  unfold Rdiv. rewrite !Rpow_mult_distr, !pow_inv.
  apply Rmult_lt_reg_r with (IZR xd ^ p * IZR yd ^ r); [nra|].
  field_simplify; lra.
Qed.

(** [Math.floor] on the reals. *)
Lemma Int_part_ge (x : R) (n : Z) : IZR n <= x -> (n <= Int_part x)%Z.
Proof.
  intros Hn. destruct (base_Int_part x) as [_ Hx].
  apply Z.lt_succ_r, lt_IZR. rewrite succ_IZR. lra.
Qed.

Lemma Int_part_lt (x : R) (n : Z) : x < IZR n -> (Int_part x < n)%Z.
Proof.
  intros Hn. destruct (base_Int_part x) as [Hx _]. apply lt_IZR. lra.
Qed.

Lemma Int_part_mono (x y : R) : x <= y -> (Int_part x <= Int_part y)%Z.
Proof.
  intros Hxy. apply Int_part_ge. destruct (base_Int_part x). lra.
Qed.
End RealPower.

Section RealCapacity.
Local Open Scope R_scope.


Lemma cR_values :
  cR THREE_EIGHTHS = 2158927 / 100000000000 /\
  cR HALF = 410606 / 100000000000 /\
  cR THREE_QUARTERS = 123682 / 100000000000 /\
  cR ONE = 10746 / 10000000000 /\
  cR ONE_AND_QUARTER = 11678553403503 / 100000000000000000000.
Proof. unfold cR, tableCoeff, lit, real_number, Q2R. simpl. repeat split; lra. Qed.

Lemma eR_values :
  eR THREE_EIGHTHS = 202558185 / 100000000 /\
  eR HALF = 21590935 / 10000000 /\
  eR THREE_QUARTERS = 200156167 / 100000000 /\
  eR ONE = 177654817 / 100000000 /\
  eR ONE_AND_QUARTER = 1992081557687 / 1000000000000.
Proof. unfold eR, tableExponent, lit, real_number, Q2R. simpl. repeat split; lra. Qed.

Lemma cR_pos size : 0 < cR size.
Proof. destruct cR_values as (H1 & H2 & H3 & H4 & H5). destruct size; lra. Qed.

Lemma eR_gt1 size : 1 < eR size.
Proof. destruct eR_values as (H1 & H2 & H3 & H4 & H5). destruct size; lra. Qed.

(** [calculateCapacity] of [src/App.tsx] on the reals, for a length [> 0]. *)
Lemma real_capacity_general (d L : R) (size : PipeSize) :
  0 < L ->
  @AppV2.calculateCapacity R real_number d size L =
  IZR (Int_part (if Rlt_dec 0 (d / L / cR size)
                 then Rpower (d / L / cR size) (/ eR size) else 0)) * 1000.
Proof.
  intros HL.
  transitivity (@capacityFormula R real_number d size L).
  { unfold AppV2.calculateCapacity, PIPE_SPECS. cbv beta iota.
    cbn [le lit real_number]. rewrite real_lit_zero.
    destruct (Rle_dec L 0); [lra|]. destruct size; reflexivity. }
  unfold capacityFormula. fold (cR size) (eR size).
  cbn [Math_floor Math_pow mul div lit real_number].
  replace (Q2R 1 / eR size) with (/ eR size) by (unfold Q2R; simpl; lra).
  replace (Q2R 1000) with 1000 by (unfold Q2R; simpl; lra).
  reflexivity.
Qed.

Lemma ratio_pos (d L : R) (size : PipeSize) :
  0 < d -> 0 < L -> 0 < d / L / cR size.
Proof.
  intros Hd HL. pose proof (cR_pos size).
  apply Rdiv_lt_0_compat; [apply Rdiv_lt_0_compat|]; assumption.
Qed.

Lemma real_capacity (d L : R) (size : PipeSize) :
  0 < d -> 0 < L ->
  @AppV2.calculateCapacity R real_number d size L =
  IZR (Int_part (cfhR size (d / L))) * 1000.
Proof.
  intros Hd HL. rewrite real_capacity_general by exact HL.
  destruct (Rlt_dec 0 (d / L / cR size)) as [_ | Hn]; [reflexivity|].
  exfalso. apply Hn. now apply ratio_pos.
Qed.

Lemma real_capacity_zero_drop (L : R) (size : PipeSize) :
  0 < L ->
  @AppV2.calculateCapacity R real_number 0 size L = IZR (Int_part 0) * 1000.
Proof.
  intros HL. rewrite real_capacity_general by exact HL.
  replace (0 / L / cR size) with 0
    by (pose proof (cR_pos size); field; lra).
  destruct (Rlt_dec 0 0); [lra | reflexivity].
Qed.

Lemma inv_eR_pos size : 0 < / eR size.
Proof. apply Rinv_0_lt_compat. pose proof (eR_gt1 size). lra. Qed.

Lemma cfhR_pos size x : 0 < cfhR size x.
Proof. apply exp_pos. Qed.

Lemma cfhR_below_one size x : 0 < x < cR size -> cfhR size x < 1.
Proof.
  intros [Hx Hc]. unfold cfhR.
  rewrite <- (Rpower_one_base (/ eR size)).
  apply Rlt_Rpower_l; [apply inv_eR_pos|].
  pose proof (cR_pos size). split.
  - now apply Rdiv_lt_0_compat.
  - apply Rmult_lt_reg_r with (cR size); [assumption|].
    unfold Rdiv. rewrite Rmult_assoc, Rinv_l; lra.
Qed.

Lemma floor_cfhR_le (s t : PipeSize) (x : R) :
  0 < x -> (cR s <= x -> cfhR s x <= cfhR t x) ->
  (Int_part (cfhR s x) <= Int_part (cfhR t x))%Z.
Proof.
  intros Hx Hle. destruct (Rlt_le_dec x (cR s)) as [Hlt | Hge].
  - apply Z.le_trans with 0%Z.
    + apply Z.lt_succ_r. apply Int_part_lt. simpl.
      apply cfhR_below_one. lra.
    + apply Int_part_ge. left. apply cfhR_pos.
  - apply Int_part_mono. now apply Hle.
Qed.

(** A larger size with a smaller exponent: no condition on [x]. *)
Lemma cfhR_le_smaller_exponent (s t : PipeSize) (x : R) :
  cR t <= cR s -> eR t <= eR s -> cR s <= x -> cfhR s x <= cfhR t x.
Proof.
  intros Hc He Hx. unfold cfhR.
  pose proof (cR_pos s). pose proof (cR_pos t).
  pose proof (eR_gt1 s). pose proof (eR_gt1 t).
  assert (Hu : 1 <= x / cR s).
  { apply Rmult_le_reg_r with (cR s); [assumption|].
    unfold Rdiv. rewrite Rmult_assoc, Rinv_l; lra. }
  apply Rle_trans with (Rpower (x / cR s) (/ eR t)).
  - apply Rle_Rpower; [exact Hu|]. apply Rinv_le_contravar; lra.
  - apply Rle_Rpower_l; [left; apply inv_eR_pos|]. split; [lra|].
    unfold Rdiv. apply Rmult_le_compat_l; [lra|].
    apply Rinv_le_contravar; lra.
Qed.

(** A larger size with a larger exponent: up to a bound on [x]. *)
Lemma Rpower_le_larger_exponent (cs ct es et B : R) (p r q : nat) :
  0 < ct -> ct <= cs -> 0 < es -> 0 < et -> (0 < q)%nat ->
  / es - / et <= INR p / INR q -> INR r / INR q <= / et ->
  (B / cs) ^ p <= (cs / ct) ^ r ->
  forall x, cs <= x <= B ->
    Rpower (x / cs) (/ es) <= Rpower (x / ct) (/ et).
Proof.
  intros Hct Hcs Hes Het Hq Hd Hg Hnum x [Hx HB].
  assert (Hu : 1 <= x / cs).
  { apply Rmult_le_reg_r with cs; [lra|].
    unfold Rdiv. rewrite Rmult_assoc, Rinv_l; lra. }
  assert (HU : x / cs <= B / cs).
  { unfold Rdiv. apply Rmult_le_compat_r; [|lra].
    left. apply Rinv_0_lt_compat. lra. }
  assert (Hk : 1 <= cs / ct).
  { apply Rmult_le_reg_r with ct; [lra|].
    unfold Rdiv. rewrite Rmult_assoc, Rinv_l; lra. }
  replace (x / ct) with ((cs / ct) * (x / cs)) by (field; lra).
  rewrite <- Rpower_mult_distr by lra.
  replace (/ es) with ((/ es - / et) + / et) at 1 by ring.
  rewrite Rpower_plus.
  apply Rmult_le_compat_r; [left; apply exp_pos|].
  apply Rle_trans with (Rpower (x / cs) (INR p / INR q));
    [now apply Rle_Rpower|].
  apply Rle_trans with (Rpower (B / cs) (INR p / INR q)).
  { apply Rle_Rpower_l; [|lra].
    apply Rmult_le_pos; [apply pos_INR|].
    left. apply Rinv_0_lt_compat, lt_0_INR. lia. }
  apply Rle_trans with (Rpower (cs / ct) (INR r / INR q));
    [|now apply Rle_Rpower].
  apply Rpower_rat_le; try lra; assumption.
Qed.

Ltac rational_exponent :=
  rewrite !INR_IZR_INZ, !Rinv_div;
  repeat match goal with
         | |- context [Z.of_nat ?n] =>
             let z := eval vm_compute in (Z.of_nat n) in
             change (Z.of_nat n) with z
         end;
  lra.

(** A larger size with a larger exponent: up to the crossing of the two
    power laws. *)
Lemma exp_le_iff (a b : R) :
  Rtrigo_def.exp a <= Rtrigo_def.exp b <-> a <= b.
Proof.
  split.
  - intros Hle. destruct (Rle_lt_dec a b) as [Hab | Hba]; [exact Hab|].
    apply exp_increasing in Hba. lra.
  - intros [Hlt | ->]; [left; now apply exp_increasing | right; reflexivity].
Qed.

Lemma cfhR_exp (size : PipeSize) (x : R) :
  0 < x -> cfhR size x = Rtrigo_def.exp ((ln x - ln (cR size)) / eR size).
Proof.
  intros Hx. unfold cfhR, Rpower.
  pose proof (cR_pos size) as Hc.
  unfold Rdiv at 1. rewrite ln_mult, ln_Rinv;
    [|exact Hc | exact Hx | now apply Rinv_0_lt_compat].
  f_equal. unfold Rdiv. ring.
Qed.

(** Where the larger size has the larger exponent, its power law is the
    larger one up to the crossing, and the smaller one beyond. *)
Lemma cfhR_le_crossing (s t : PipeSize) (x : R) :
  0 < x -> eR s < eR t ->
  (cfhR s x <= cfhR t x <-> x <= crossing s t).
Proof.
  intros Hx He.
  pose proof (eR_gt1 s) as Hs. pose proof (eR_gt1 t) as Ht.
  assert (Hd : 0 < / eR s - / eR t).
  { assert (/ eR t < / eR s); [|lra].
    apply Rinv_lt_contravar; [nra | exact He]. }
  rewrite !cfhR_exp by exact Hx. rewrite exp_le_iff.
  assert (Hxk : forall k, x <= Rtrigo_def.exp k <-> ln x <= k).
  { intros k. rewrite <- (exp_le_iff (ln x) k). now rewrite exp_ln. }
  unfold crossing. rewrite Hxk.
  set (a := ln x). set (ls := ln (cR s)). set (lt := ln (cR t)).
  set (D := / eR s - / eR t) in *.
  assert (Hk : (a - ls) / eR s <= (a - lt) / eR t <->
               a * D <= ls / eR s - lt / eR t).
  { unfold D, Rdiv. split; intros Hle; lra. }
  rewrite Hk. split; intros Hle.
  - replace a with (a * D / D) by (field; lra).
    unfold Rdiv. apply Rmult_le_compat_r; [|exact Hle].
    left. now apply Rinv_0_lt_compat.
  - replace (ls / eR s - lt / eR t)
      with ((ls / eR s - lt / eR t) / D * D) by (field; lra).
    apply Rmult_le_compat_r; lra.
Qed.

Lemma crossing_pos (s t : PipeSize) : 0 < crossing s t.
Proof. apply exp_pos. Qed.

(** The mirror image of [Rpower_le_larger_exponent], at one point. *)
Lemma Rpower_lt_larger_exponent (cs ct es et B : R) (p r q : nat) :
  0 < ct -> ct <= cs -> cs <= B -> 0 < es -> 0 < et -> (0 < q)%nat ->
  INR p / INR q <= / es - / et -> / et <= INR r / INR q ->
  (cs / ct) ^ r < (B / cs) ^ p ->
  Rpower (B / ct) (/ et) < Rpower (B / cs) (/ es).
Proof.
  intros Hct Hcs HB Hes Het Hq Hd Hg Hnum.
  assert (Hu : 1 <= B / cs).
  { apply Rmult_le_reg_r with cs; [lra|].
    unfold Rdiv. rewrite Rmult_assoc, Rinv_l; lra. }
  assert (Hk : 1 <= cs / ct).
  { apply Rmult_le_reg_r with ct; [lra|].
    unfold Rdiv. rewrite Rmult_assoc, Rinv_l; lra. }
  replace (B / ct) with ((cs / ct) * (B / cs)) by (field; lra).
  rewrite <- Rpower_mult_distr by lra.
  replace (/ es) with ((/ es - / et) + / et) at 1 by ring.
  rewrite Rpower_plus.
  apply Rmult_lt_compat_r; [apply exp_pos|].
  apply Rle_lt_trans with (Rpower (cs / ct) (INR r / INR q));
    [now apply Rle_Rpower|].
  apply Rlt_le_trans with (Rpower (B / cs) (INR p / INR q));
    [|now apply Rle_Rpower].
  apply Rpower_rat_lt; try lra; assumption.
Qed.

Lemma cfhR_THREE_EIGHTHS_HALF_100 (x : R) :
  cR THREE_EIGHTHS <= x <= 100 -> cfhR THREE_EIGHTHS x <= cfhR HALF x.
Proof.
  destruct cR_values as (C0 & C1 & _). destruct eR_values as (E0 & E1 & _).
  unfold cfhR. rewrite C0, C1, E0, E1.
  apply (Rpower_le_larger_exponent _ _ _ _ 100 1 10 22).
  - lra.
  - lra.
  - lra.
  - lra.
  - lia.
  - rational_exponent.
  - rational_exponent.
  - replace (100 / (2158927 / 100000000000))
      with (IZR 10000000000000 / IZR 2158927) by lra.
    replace (2158927 / 100000000000 / (410606 / 100000000000))
      with (IZR 2158927 / IZR 410606) by lra.
    apply pow_ratio_le; [lia | lia |]. vm_compute. discriminate.
Qed.

Lemma cfhR_ONE_ONE_AND_QUARTER_93 :
  cfhR ONE 93 <= cfhR ONE_AND_QUARTER 93.
Proof.
  destruct cR_values as (_ & _ & _ & C3 & C4).
  destruct eR_values as (_ & _ & _ & E3 & E4).
  unfold cfhR. rewrite C3, C4, E3, E4.
  apply (Rpower_le_larger_exponent _ _ _ _ 93 17 140 279).
  - lra.
  - lra.
  - lra.
  - lra.
  - lia.
  - rational_exponent.
  - rational_exponent.
  - replace (93 / (10746 / 10000000000))
      with (IZR 930000000000 / IZR 10746) by lra.
    replace (10746 / 10000000000 /
             (11678553403503 / 100000000000000000000))
      with (IZR 107460000000000 / IZR 11678553403503) by lra.
    apply pow_ratio_le; [lia | lia |]. vm_compute. discriminate.
  - lra.
Qed.

Lemma cfhR_ONE_AND_QUARTER_ONE_97 :
  cfhR ONE_AND_QUARTER 97 < cfhR ONE 97.
Proof.
  destruct cR_values as (_ & _ & _ & C3 & C4).
  destruct eR_values as (_ & _ & _ & E3 & E4).
  unfold cfhR. rewrite C3, C4, E3, E4.
  apply (Rpower_lt_larger_exponent _ _ _ _ 97 28 231 460).
  - lra.
  - lra.
  - lra.
  - lra.
  - lra.
  - lia.
  - rational_exponent.
  - rational_exponent.
  - replace (97 / (10746 / 10000000000))
      with (IZR 970000000000 / IZR 10746) by lra.
    replace (10746 / 10000000000 /
             (11678553403503 / 100000000000000000000))
      with (IZR 107460000000000 / IZR 11678553403503) by lra.
    apply pow_ratio_lt; [lia | lia |]. vm_compute. reflexivity.
Qed.

Lemma eR_order :
  eR THREE_EIGHTHS < eR HALF /\ eR ONE < eR ONE_AND_QUARTER.
Proof. destruct eR_values as (E0 & E1 & E2 & E3 & E4). lra. Qed.

Lemma crossing_ONE_ONE_AND_QUARTER :
  93 <= crossing ONE ONE_AND_QUARTER < 97.
Proof.
  destruct eR_order as [_ He]. split.
  - apply (cfhR_le_crossing ONE ONE_AND_QUARTER 93); [lra | exact He |].
    exact cfhR_ONE_ONE_AND_QUARTER_93.
  - destruct (Rlt_le_dec (crossing ONE ONE_AND_QUARTER) 97) as [Hlt | Hge];
      [exact Hlt|]. exfalso.
    apply (cfhR_le_crossing ONE ONE_AND_QUARTER 97) in Hge;
      [|lra | exact He].
    pose proof cfhR_ONE_AND_QUARTER_ONE_97. lra.
Qed.

Lemma floor_cfhR_adjacent_crossing (x : R) :
  0 < x <= crossing ONE ONE_AND_QUARTER ->
  (Int_part (cfhR THREE_EIGHTHS x) <= Int_part (cfhR HALF x) /\
   Int_part (cfhR HALF x) <= Int_part (cfhR THREE_QUARTERS x) /\
   Int_part (cfhR THREE_QUARTERS x) <= Int_part (cfhR ONE x) /\
   Int_part (cfhR ONE x) <= Int_part (cfhR ONE_AND_QUARTER x))%Z.
Proof.
  intros [Hx HB].
  destruct cR_values as (C0 & C1 & C2 & C3 & C4).
  destruct eR_values as (E0 & E1 & E2 & E3 & E4).
  destruct crossing_ONE_ONE_AND_QUARTER as [_ H97].
  repeat split; apply floor_cfhR_le; try exact Hx; intros Hc.
  - apply cfhR_THREE_EIGHTHS_HALF_100. lra.
  - apply cfhR_le_smaller_exponent; lra.
  - apply cfhR_le_smaller_exponent; lra.
  - apply cfhR_le_crossing; [exact Hx | lra | exact HB].
Qed.

(** In exact arithmetic the capacity does not grow with the length. *)
Lemma real_capacity_length_mono (d L1 L2 : R) (size : PipeSize) :
  0 <= d -> 0 < L1 <= L2 ->
  @AppV2.calculateCapacity R real_number d size L2 <=
  @AppV2.calculateCapacity R real_number d size L1.
Proof.
  intros [Hd | <-] [H1 H12].
  - rewrite !real_capacity by lra.
    apply Rmult_le_compat_r; [lra|]. apply IZR_le, Int_part_mono.
    unfold cfhR. pose proof (cR_pos size).
    apply Rle_Rpower_l; [left; apply inv_eR_pos|].
    split; [apply ratio_pos; lra|].
    unfold Rdiv. apply Rmult_le_compat_r;
      [left; now apply Rinv_0_lt_compat|].
    apply Rmult_le_compat_l; [lra|]. apply Rinv_le_contravar; lra.
  - rewrite !real_capacity_zero_drop by lra. lra.
Qed.

(** Up to the crossing of the power laws of 1 in and 1-1/4 in it does not
    shrink with the rank of the size. *)
Lemma real_capacity_rank_crossing (d L : R) (s1 s2 : PipeSize) :
  0 <= d -> 0 < L -> d / L <= crossing ONE ONE_AND_QUARTER ->
  (rank s1 <= rank s2)%Z ->
  @AppV2.calculateCapacity R real_number d s1 L <=
  @AppV2.calculateCapacity R real_number d s2 L.
Proof.
  intros [Hd | <-] HL HB Hrank.
  - rewrite !real_capacity by lra.
    apply Rmult_le_compat_r; [lra|]. apply IZR_le.
    assert (Hx : 0 < d / L <= crossing ONE ONE_AND_QUARTER).
    { split; [now apply Rdiv_lt_0_compat | exact HB]. }
    destruct (floor_cfhR_adjacent_crossing (d / L) Hx)
      as (F01 & F12 & F23 & F34).
    destruct s1, s2; vm_compute in Hrank;
      solve [lia | exfalso; apply Hrank; reflexivity].
  - rewrite !real_capacity_zero_drop by lra. lra.
Qed.

Lemma cfhR_beyond_crossing (x : R) :
  crossing ONE ONE_AND_QUARTER < x -> cfhR ONE_AND_QUARTER x < cfhR ONE x.
Proof.
  intros Hx. destruct eR_order as [_ He].
  pose proof (crossing_pos ONE ONE_AND_QUARTER) as Hp.
  destruct (Rlt_le_dec (cfhR ONE_AND_QUARTER x) (cfhR ONE x)) as [Hlt | Hge];
    [exact Hlt|]. exfalso.
  apply cfhR_le_crossing in Hge; [lra | lra | exact He].
Qed.

(** The order of the reals is kept by every step of the formula. *)
Lemma real_le_true (a b : R) : @le R real_number a b = true <-> a <= b.
Proof. cbn [le real_number]. destruct (Rle_dec a b); split; try easy. Qed.

Lemma real_gt_true (a b : R) : @gt R real_number a b = true <-> a > b.
Proof. cbn [gt real_number]. destruct (Rgt_dec a b); split; try easy. Qed.

Lemma real_orderKept : @orderKept R real_number.
Proof.
  split; intros x y Hxy; apply real_le_true in Hxy; apply real_le_true.
  - cbn [Math_floor real_number]. now apply IZR_le, Int_part_mono.
  - cbn [mul lit real_number].
    apply Rmult_le_compat_r; [|exact Hxy]. unfold Q2R. simpl. lra.
Qed.

Lemma real_gradientKept (d : R) (size : PipeSize) :
  0 <= d -> @gradientKept R real_number d size.
Proof.
  intros Hd. split.
  - intros L1 L2 H1 H12. apply real_gt_true in H1. apply real_le_true in H12.
    rewrite !real_le_true. cbn [lit div real_number] in *.
    rewrite real_lit_zero in *.
    assert (H2 : 0 < L2) by lra.
    split.
    + apply Rmult_le_pos; [exact Hd|]. left. now apply Rinv_0_lt_compat.
    + unfold Rdiv. apply Rmult_le_compat_l; [exact Hd|].
      apply Rinv_le_contravar; lra.
  - intros x y Hx Hxy. apply real_le_true in Hx, Hxy.
    rewrite !real_le_true. cbn [lit div real_number] in *.
    rewrite real_lit_zero in *. fold (cR size).
    pose proof (cR_pos size) as Hc.
    assert (Hi : 0 < / cR size) by now apply Rinv_0_lt_compat.
    split.
    + apply Rmult_le_pos; lra.
    + unfold Rdiv. apply Rmult_le_compat_r; lra.
  - intros x y Hx Hxy. apply real_le_true in Hx, Hxy.
    rewrite real_le_true. cbn [lit div Math_pow real_number] in *.
    rewrite real_lit_zero in *. fold (eR size).
    replace (Q2R 1 / eR size) with (/ eR size) by (unfold Q2R; simpl; lra).
    destruct (Rlt_dec 0 x) as [Hxp | Hxn].
    + destruct (Rlt_dec 0 y) as [_ | Hyn]; [|lra].
      apply Rle_Rpower_l; [left; apply inv_eR_pos | lra].
    + destruct (Rlt_dec 0 y) as [_ | _]; [|lra].
      left. apply exp_pos.
Qed.

(** Far beyond it the capacities are in the reverse order: at a drop of
    1000 over a length of 1 the 1 in pipe carries at least 100000 CFH and
    the 1-1/4 in pipe less. *)
Lemma real_capacity_order_reversed :
  @AppV2.calculateCapacity R real_number 1000 ONE_AND_QUARTER 1 <
  @AppV2.calculateCapacity R real_number 1000 ONE 1.
Proof.
  rewrite !real_capacity by lra.
  destruct cR_values as (_ & _ & _ & C3 & C4).
  destruct eR_values as (_ & _ & _ & E3 & E4).
  apply Rmult_lt_compat_r; [lra|]. apply IZR_lt.
  apply Z.lt_le_trans with 100000%Z.
  - apply Int_part_lt. unfold cfhR. rewrite C4, E4.
    replace (1000 / 1 / (11678553403503 / 100000000000000000000))
      with (IZR 100000000000000000000000 / IZR 11678553403503) by lra.
    apply (Rpower_upper _ _ _ 80 159).
    + apply Rmult_le_reg_r with (IZR 11678553403503); [lra|].
      unfold Rdiv. rewrite Rmult_assoc, Rinv_l; lra.
    + lra.
    + lia.
    + rational_exponent.
    + replace (IZR 100000) with (IZR 100000 / IZR 1) by lra.
      apply pow_ratio_lt; [lia | lia |]. vm_compute. reflexivity.
  - apply Int_part_ge. unfold cfhR. rewrite C3, E3.
    replace (1000 / 1 / (10746 / 10000000000))
      with (IZR 10000000000000 / IZR 10746) by lra.
    apply (Rpower_lower _ _ _ 9 16).
    + apply Rmult_le_reg_r with (IZR 10746); [lra|].
      unfold Rdiv. rewrite Rmult_assoc, Rinv_l; lra.
    + lra.
    + lia.
    + rational_exponent.
    + replace (IZR 100000) with (IZR 100000 / IZR 1) by lra.
      apply pow_ratio_le; [lia | lia |]. vm_compute. discriminate.
Qed.

(** For size 1/2 in, length 10 and drop 0.5 the exact value is 78000. *)
Lemma real_capacity_half_10 :
  @AppV2.calculateCapacity R real_number (1 / 2) HALF 10 = 78000.
Proof.
  rewrite real_capacity by lra.
  destruct cR_values as (_ & C1 & _). destruct eR_values as (_ & E1 & _).
  replace 78000 with (IZR 78 * 1000) by lra. f_equal. f_equal.
  symmetry. apply Int_part_spec. unfold cfhR. rewrite C1, E1.
  replace (1 / 2 / 10 / (410606 / 100000000000))
    with (IZR 5000000000 / IZR 410606) by lra.
  split.
  - assert (Rpower (IZR 5000000000 / IZR 410606)
                   (/ (21590935 / 10000000)) < IZR 79); [|lra].
    apply (Rpower_upper _ _ _ 13 28).
    + apply Rmult_le_reg_r with (IZR 410606); [lra|].
      unfold Rdiv. rewrite Rmult_assoc, Rinv_l; lra.
    + lra.
    + lia.
    + rational_exponent.
    + replace (IZR 79) with (IZR 79 / IZR 1) by lra.
      apply pow_ratio_lt; [lia | lia |]. vm_compute. reflexivity.
  - apply (Rpower_lower _ _ _ 157 339).
    + apply Rmult_le_reg_r with (IZR 410606); [lra|].
      unfold Rdiv. rewrite Rmult_assoc, Rinv_l; lra.
    + lra.
    + lia.
    + rational_exponent.
    + replace (IZR 78) with (IZR 78 / IZR 1) by lra.
      apply pow_ratio_le; [lia | lia |]. vm_compute. discriminate.
Qed.
End RealCapacity.

(** C7, as the code has it.

    In the length: [calculateCapacity] composes steps that keep the order
    of the numbers, so for a pressure drop at which they do
    ([gradientKept], [orderKept]) the capacity is non-increasing in the
    length, over lengths [> 0], in every number model; in exact arithmetic
    they do for every pressure drop [>= 0].

    In the size: in every number model whose floor and scaling keep the
    order, the capacities of two sizes are in the order of the values
    [Math.pow] returns for them.  In exact arithmetic, for a pressure drop
    [>= 0] and a length [> 0], the capacity is non-decreasing in the rank of
    the size in [PIPE_ORDER] as long as the drop divided by the length is at
    most [crossing ONE ONE_AND_QUARTER], the pressure gradient at which the
    power laws of 1 in and 1-1/4 in meet; it lies between 93 and 97, and
    beyond it the power law of 1-1/4 in is below that of 1 in. *)
Theorem capacity_monotone :
  (forall (num : Type) (H : JSNumber num), JSNumberLaws num ->
   forall (d : num) (size : PipeSize) (L1 L2 : num),
     orderKept -> gradientKept d size ->
     gt L1 (lit 0) = true -> gt L2 (lit 0) = true -> le L1 L2 = true ->
     le (AppV2.calculateCapacity d size L2)
        (AppV2.calculateCapacity d size L1) = true) /\
  (forall (d : R) (size : PipeSize),
     (0 <= d)%R ->
     @orderKept R real_number /\ @gradientKept R real_number d size) /\
  (forall (d : R) (size : PipeSize) (L1 L2 : R),
     (0 <= d)%R -> (0 < L1 <= L2)%R ->
     (@AppV2.calculateCapacity R real_number d size L2 <=
      @AppV2.calculateCapacity R real_number d size L1)%R) /\
  (forall (num : Type) (H : JSNumber num), JSNumberLaws num ->
   forall (d : num) (s1 s2 : PipeSize) (L : num),
     orderKept -> gt L (lit 0) = true ->
     le (powerLaw s1 (div d L)) (powerLaw s2 (div d L)) = true ->
     le (AppV2.calculateCapacity d s1 L)
        (AppV2.calculateCapacity d s2 L) = true) /\
  (forall (d L : R) (s1 s2 : PipeSize),
     (0 <= d)%R -> (0 < L)%R ->
     (d / L <= crossing ONE ONE_AND_QUARTER)%R ->
     (rank s1 <= rank s2)%Z ->
     (@AppV2.calculateCapacity R real_number d s1 L <=
      @AppV2.calculateCapacity R real_number d s2 L)%R) /\
  (93 <= crossing ONE ONE_AND_QUARTER < 97)%R /\
  (forall x : R,
     (crossing ONE ONE_AND_QUARTER < x)%R ->
     (cfhR ONE_AND_QUARTER x < cfhR ONE x)%R).
Proof.
  split; [|split; [|split; [|split; [|split; [|split]]]]].
  - intros num H Hlaws d size L1 L2. apply capacity_length_host.
  - intros d size Hd. split;
      [exact real_orderKept | now apply real_gradientKept].
  - intros d size L1 L2 Hd [H1 H12].
    apply real_le_true.
    apply capacity_length_host.
    + exact real_orderKept.
    + now apply real_gradientKept.
    + apply real_gt_true. cbn [lit real_number]. rewrite real_lit_zero. lra.
    + apply real_gt_true. cbn [lit real_number]. rewrite real_lit_zero. lra.
    + now apply real_le_true.
  - intros num H Hlaws d s1 s2 L. apply capacity_rank_host.
  - intros d L s1 s2. apply real_capacity_rank_crossing.
  - exact crossing_ONE_ONE_AND_QUARTER.
  - exact cfhR_beyond_crossing.
Qed.

Lemma capacity_monotone_witness :
  (@AppV2.calculateCapacity R real_number (1 / 2) HALF 20 <=
   @AppV2.calculateCapacity R real_number (1 / 2) HALF 10)%R /\
  (@AppV2.calculateCapacity R real_number (1 / 2) HALF 10 <=
   @AppV2.calculateCapacity R real_number (1 / 2) ONE 10)%R /\
  (@AppV2.calculateCapacity R real_number 93 ONE 1 <=
   @AppV2.calculateCapacity R real_number 93 ONE_AND_QUARTER 1)%R.
Proof.
  destruct capacity_monotone as (_ & _ & Hlen & _ & Hrank & [H93 _] & _).
  split; [|split].
  - apply Hlen; lra.
  - apply Hrank; [lra | lra | lra | vm_compute; discriminate].
  - apply Hrank; [lra | lra | lra | vm_compute; discriminate].
Defined.

(** C7 as stated fails.  At a pressure drop of 1000 and a length of 1 the
    1 in pipe has a larger capacity than the 1-1/4 in pipe, which has the
    larger rank: in exact arithmetic, and in binary64 (111793000 against
    96838000).  With a negative pressure drop every capacity is NaN, which
    is neither [<=] nor [>=] anything. *)
Lemma capacity_not_monotone_in_rank :
  (rank ONE < rank ONE_AND_QUARTER)%Z /\
  (@AppV2.calculateCapacity R real_number 1000 ONE_AND_QUARTER 1 <
   @AppV2.calculateCapacity R real_number 1000 ONE 1)%R /\
  (AppV2.calculateCapacity 1000 ONE 1 = 111793000 /\
   AppV2.calculateCapacity 1000 ONE_AND_QUARTER 1 = 96838000 /\
   PrimFloat.leb (AppV2.calculateCapacity (-1) HALF 20)
                 (AppV2.calculateCapacity (-1) HALF 10) = false)%float.
Proof.
  split; [reflexivity|]. split; [exact real_capacity_order_reversed|].
  repeat split; vm_compute; reflexivity.
Qed.

(** * Properties of the handlers *)

(** ** Lists *)

Section ListFacts.
Context {A : Type}.

Lemma forEach_eq_in {S : Type} (body body' : S -> A -> option S)
    (l : list A) (s : S) :
  (forall s a, In a l -> body s a = body' s a) ->
  forEach l body s = forEach l body' s.
Proof.
  revert s. induction l as [|a l IH]; intros s Hb; [reflexivity|].
  simpl. rewrite (Hb s a (or_introl eq_refl)).
  destruct (body' s a) as [s'|]; [|reflexivity].
  apply IH. intros s0 a0 Hin. apply Hb. now right.
Qed.

Lemma find_filter_key (key : A -> string) (l : list A) (id a : string)
    (x : A) :
  List.find (fun e => String.eqb (key e) a)
            (List.filter (fun e => negb (String.eqb (key e) id)) l) = Some x ->
  List.find (fun e => String.eqb (key e) a) l = Some x.
Proof.
  induction l as [|y l IH]; simpl; [discriminate|].
  destruct (String.eqb (key y) id) eqn:Hid; simpl.
  - intros Hx. destruct (String.eqb (key y) a) eqn:Ha; [|now apply IH].
    exfalso. apply find_some in Hx as [Hin Hk].
    apply filter_In in Hin as [_ Hn].
    apply String.eqb_eq in Hid, Ha, Hk.
    apply negb_true_iff, String.eqb_neq in Hn. congruence.
  - destruct (String.eqb (key y) a); [trivial | exact IH].
Qed.

Lemma NoDup_map_filter {B : Type} (f : A -> B) (p : A -> bool) (l : list A) :
  List.NoDup (map f l) -> List.NoDup (map f (List.filter p l)).
Proof.
  induction l as [|y l IH]; simpl; intros HND; [constructor|].
  inversion HND as [|? ? Hni HND']; subst.
  destruct (p y); simpl; [|now apply IH].
  constructor; [|now apply IH].
  intros Hin. apply Hni. apply in_map_iff in Hin as (x & Hx & Hin).
  apply filter_In in Hin as [Hin _]. apply in_map_iff. eauto.
Qed.

Lemma filter_filter_length (p q : A -> bool) (l : list A) :
  (length (List.filter q (List.filter p l)) <= length (List.filter q l))%nat.
Proof.
  induction l as [|y l IH]; simpl; [lia|].
  destruct (p y), (q y) eqn:Hq; simpl; rewrite ?Hq; simpl; lia.
Qed.

Lemma find_map_key (key : A -> string) (g : A -> A) (l : list A)
    (a : string) :
  (forall x, key (g x) = key x) ->
  List.find (fun e => String.eqb (key e) a) (map g l) =
  option_map g (List.find (fun e => String.eqb (key e) a) l).
Proof.
  intros Hk. induction l as [|y l IH]; simpl; [reflexivity|].
  rewrite Hk. destruct (String.eqb (key y) a); [reflexivity | exact IH].
Qed.

Lemma filter_map_key (key : A -> string) (g : A -> A) (l : list A)
    (a : string) :
  (forall x, key (g x) = key x) ->
  List.filter (fun e => String.eqb (key e) a) (map g l) =
  map g (List.filter (fun e => String.eqb (key e) a) l).
Proof.
  intros Hk. induction l as [|y l IH]; simpl; [reflexivity|].
  rewrite Hk. destruct (String.eqb (key y) a); simpl; now rewrite IH.
Qed.

Lemma find_snoc_found (p : A -> bool) (l : list A) (y : A) :
  List.find p l <> None -> List.find p (l ++ [y]) = List.find p l.
Proof.
  induction l as [|x l IH]; simpl; [congruence|].
  destruct (p x); [reflexivity | exact IH].
Qed.
End ListFacts.

(** ** Deleting *)

Section DeleteFacts.
Context {num : Type} `{JSNumber num}.

Lemma V1_handleDeleteEdge_snapshot (id : string) (s : AppState num) :
  let s' := HandlersV1.handleDeleteEdge id s in
  nodes s' = nodes s /\
  edges s' = List.filter (fun e => negb (String.eqb (edge_id e) id)) (edges s)
  /\ pressureDrop s' = pressureDrop s.
Proof.
  unfold HandlersV1.handleDeleteEdge.
  destruct (selectedId s) as [i|]; [destruct (String.eqb i id)|];
    repeat split.
Qed.

Lemma V1_handleDeleteNode_snapshot (id : string) (s : AppState num) :
  let s' := HandlersV1.handleDeleteNode id s in
  nodes s' = nodes (HandlersV2.handleDeleteNode id s) /\
  edges s' = edges (HandlersV2.handleDeleteNode id s) /\
  pressureDrop s' = pressureDrop s.
Proof.
  unfold HandlersV1.handleDeleteNode.
  destruct (selectedId s) as [i|]; [destruct (String.eqb i id)|];
    repeat split.
Qed.

(** A network stays well shaped when nodes and pipes are taken away. *)
Lemma wellShaped_sub (ns ns' : list (AppNode num)) (es : list (AppEdge num))
    (p : AppEdge num -> bool) :
  wellShaped ns es -> incl ns' ns -> wellShaped ns' (List.filter p es).
Proof.
  intros [Hin Hj Ha Hl] Hsub. split.
  - intros x. unfold inbound.
    pose proof (filter_filter_length p
                  (fun e => String.eqb (edge_to e) x) es).
    specialize (Hin x). unfold inbound in Hin. lia.
  - intros n Hn Ht. unfold outbound.
    pose proof (filter_filter_length p
                  (fun e => String.eqb (edge_from e) (node_id n)) es).
    specialize (Hj n (Hsub n Hn) Ht). unfold outbound in Hj. lia.
  - intros n Hn Ht. unfold outbound.
    pose proof (filter_filter_length p
                  (fun e => String.eqb (edge_from e) (node_id n)) es) as Hle.
    specialize (Ha n (Hsub n Hn) Ht). unfold outbound in Ha.
    rewrite Ha in Hle. simpl in Hle.
    destruct (List.filter _ (List.filter p es)); [reflexivity|].
    simpl in Hle. lia.
  - intros e He. apply filter_In in He as [He _]. now apply Hl.
Qed.

Lemma handleDeleteNode_attached (id : string) (s : AppState num) :
  attached (nodes s) (edges s) ->
  let s' := HandlersV2.handleDeleteNode id s in
  attached (nodes s') (edges s').
Proof.
  intros Hat s' e He. subst s'. simpl in He.
  apply filter_In in He as [He Hne].
  apply andb_true_iff in Hne as [Hf Ht].
  apply negb_true_iff, String.eqb_neq in Hf, Ht.
  destruct (Hat e He) as [Hfrom Hto]. simpl.
  split.
  - apply in_map_iff in Hfrom as (n & Hid & Hn).
    apply in_map_iff. exists n. split; [exact Hid|].
    apply filter_In. split; [exact Hn|].
    apply negb_true_iff, String.eqb_neq. congruence.
  - apply in_map_iff in Hto as (n & Hid & Hn).
    apply in_map_iff. exists n. split; [exact Hid|].
    apply filter_In. split; [exact Hn|].
    apply negb_true_iff, String.eqb_neq. congruence.
Qed.
End DeleteFacts.

(** X1: [handleDeleteNode] (both components) takes the node and every pipe
    attached to it away and nothing else: afterwards no node has the id, no
    pipe starts or ends at it, every other node and every pipe between other
    nodes is still there -- on every drawing, one with dangling pipes
    included -- and if every pipe joined two nodes of the network before,
    every pipe still does. *)
Theorem handleDeleteNode_detaches
    {num : Type} `{JSNumber num} (id : string) (s s' : AppState num) :
  s' = HandlersV1.handleDeleteNode id s \/
  s' = HandlersV2.handleDeleteNode id s ->
  ~ In id (map node_id (nodes s')) /\
  (forall e, In e (edges s') -> edge_from e <> id /\ edge_to e <> id) /\
  (forall n, In n (nodes s) -> node_id n <> id -> In n (nodes s')) /\
  (forall e, In e (edges s) -> edge_from e <> id -> edge_to e <> id ->
             In e (edges s')) /\
  (attached (nodes s) (edges s) -> attached (nodes s') (edges s')).
Proof.
  intros Hs'.
  assert (Hn : nodes s' = nodes (HandlersV2.handleDeleteNode id s) /\
               edges s' = edges (HandlersV2.handleDeleteNode id s)).
  { destruct Hs' as [-> | ->]; [|now split].
    destruct (V1_handleDeleteNode_snapshot id s) as (Hn & He & _).
    now split. }
  destruct Hn as [Hn He]. unfold attached. rewrite Hn, He.
  split; [|split; [|split; [|split]]].
  - simpl. intros Hin. apply in_map_iff in Hin as (n & Hid & Hin).
    apply filter_In in Hin as [_ Hne].
    apply negb_true_iff, String.eqb_neq in Hne. contradiction.
  - simpl. intros e Hin. apply filter_In in Hin as [_ Hne].
    apply andb_true_iff in Hne as [Hf Ht].
    now apply negb_true_iff, String.eqb_neq in Hf, Ht.
  - simpl. intros n Hin Hne. apply filter_In. split; [exact Hin|].
    now apply negb_true_iff, String.eqb_neq.
  - simpl. intros e Hin Hf Ht. apply filter_In. split; [exact Hin|].
    apply andb_true_iff. split; now apply negb_true_iff, String.eqb_neq.
  - intros Hat. now apply handleDeleteNode_attached.
Qed.

Lemma handleDeleteNode_detaches_witness :
  let S := Samples.dangling_pipe in
  let S' := HandlersV1.handleDeleteNode "A" S in
  ~ attached (nodes S) (edges S) /\
  ~ In "A" (map node_id (nodes S')) /\
  edges S' = [Samples.pipe "e2" "M" "X" HALF 10] /\
  In (Samples.pipe "e2" "M" "X" HALF 10) (edges S') /\
  let T := Samples.oversized_branch in
  let T' := HandlersV2.handleDeleteNode "J" T in
  attached (nodes T) (edges T) /\ edges T' = [] /\
  attached (nodes T') (edges T').
Proof.
  intros S S'.
  destruct (@handleDeleteNode_detaches float float_number "A" S S'
              (or_introl eq_refl)) as (H1 & _ & _ & H4 & _).
  split.
  { intros Hat.
    destruct (Hat (Samples.pipe "e2" "M" "X" HALF 10)) as [_ Hto];
      [right; left; reflexivity|].
    simpl in Hto. intuition discriminate. }
  split; [exact H1|]. split; [reflexivity|].
  split.
  { apply H4; [right; left; reflexivity | discriminate | discriminate]. }
  intros T T'.
  assert (Hat : attached (nodes T) (edges T)).
  { intros e [<- | [<- | []]]; simpl; tauto. }
  split; [exact Hat|]. split; [reflexivity|].
  destruct (@handleDeleteNode_detaches float float_number "J" T T'
              (or_intror eq_refl)) as (_ & _ & _ & _ & H5).
  exact (H5 Hat).
Defined.

(** X2: deleting keeps a well-shaped network well shaped: a pipe
    ([handleDeleteEdge], [onDeleteEdge]) or a node with its pipes
    ([handleDeleteNode] of both components). *)
Theorem deleting_keeps_wellShaped
    {num : Type} `{JSNumber num} (id : string) (s s' : AppState num) :
  wellShaped (nodes s) (edges s) ->
  s' = HandlersV1.handleDeleteEdge id s \/
  s' = HandlersV1.handleDeleteNode id s \/
  s' = HandlersV2.onDeleteEdge id s \/
  s' = HandlersV2.handleDeleteNode id s ->
  wellShaped (nodes s') (edges s').
Proof.
  intros HW [-> | [-> | [-> | ->]]].
  - destruct (V1_handleDeleteEdge_snapshot id s) as (-> & -> & _).
    apply wellShaped_sub with (ns := nodes s); [exact HW | apply incl_refl].
  - destruct (V1_handleDeleteNode_snapshot id s) as (-> & -> & _).
    simpl. apply wellShaped_sub with (ns := nodes s); [exact HW|].
    apply incl_filter.
  - simpl. apply wellShaped_sub with (ns := nodes s); [exact HW | apply incl_refl].
  - simpl. apply wellShaped_sub with (ns := nodes s); [exact HW|].
    apply incl_filter.
Qed.

Lemma deleting_keeps_wellShaped_witness :
  let S := Samples.meter_to_heater in
  let S' := HandlersV1.handleDeleteNode "A" S in
  wellShaped (nodes S) (edges S) /\ edges S' = [] /\
  wellShaped (nodes S') (edges S').
Proof.
  intros S S'. split; [exact meter_to_heater_wellShaped|].
  split; [reflexivity|].
  apply (@deleting_keeps_wellShaped float float_number "A" S S'
           meter_to_heater_wellShaped).
  right. left. reflexivity.
Defined.

(** ** What the flow depends on *)

Section FlowFrame.
Context {num : Type} `{JSNumber num}.
Local Open Scope js_scope.

Lemma forEach_map {A S : Type} (g : A -> A) (body : S -> A -> option S)
    (l : list A) (s : S) :
  forEach (map g l) body s = forEach l (fun s a => body s (g a)) s.
Proof.
  revert s. induction l as [|a l IH]; intros s; [reflexivity|].
  simpl. destruct (body s (g a)); [apply IH | reflexivity].
Qed.

(** [getFlow] reads the id, the type and the demand of a node only. *)
Lemma getFlow_map_nodes (h : AppNode num -> AppNode num)
    (ns : list (AppNode num)) (es : list (AppEdge num))
    (depth : nat) (a : string) :
  (forall n, node_id (h n) = node_id n /\ node_type (h n) = node_type n /\
             node_btu (h n) = node_btu n) ->
  getFlow (map h ns) es depth a = getFlow ns es depth a.
Proof.
  intros Hh. revert a. induction depth as [|depth IH]; intros a;
    [reflexivity|].
  rewrite !getFlow_unfold. destruct (lookupEdge es a) as [E|]; [|reflexivity].
  unfold lookupNode.
  rewrite (find_map_key node_id h ns (edge_to E) (fun n => proj1 (Hh n))).
  destruct (List.find _ ns) as [n|]; [|reflexivity]. simpl.
  destruct (Hh n) as (Hid & Hty & Hbtu).
  unfold ownDemand. rewrite Hid, Hty, Hbtu.
  apply forEach_eq_in. intros f out _. unfold addFlow. now rewrite IH.
Qed.

(** [getFlow] reads the id and the two ends of a pipe only. *)
Lemma getFlow_map_edges (g : AppEdge num -> AppEdge num)
    (ns : list (AppNode num)) (es : list (AppEdge num))
    (depth : nat) (a : string) :
  (forall e, edge_id (g e) = edge_id e /\ edge_from (g e) = edge_from e /\
             edge_to (g e) = edge_to e) ->
  getFlow ns (map g es) depth a = getFlow ns es depth a.
Proof.
  intros Hg. revert a. induction depth as [|depth IH]; intros a;
    [reflexivity|].
  rewrite !getFlow_unfold. unfold lookupEdge.
  rewrite (find_map_key edge_id g es a (fun e => proj1 (Hg e))).
  destruct (List.find _ es) as [E|]; [|reflexivity]. simpl.
  destruct (Hg E) as (_ & _ & ->).
  destruct (lookupNode ns (edge_to E)) as [n|]; [|reflexivity].
  unfold outbound.
  rewrite (filter_map_key edge_from g es (node_id n)
             (fun e => proj1 (proj2 (Hg e)))).
  rewrite forEach_map. apply forEach_eq_in. intros f out _.
  unfold addFlow. destruct (Hg out) as (-> & _ & _). now rewrite IH.
Qed.

Lemma lookupNode_In (ns : list (AppNode num)) (i : string) :
  In i (map node_id ns) -> lookupNode ns i <> None.
Proof.
  intros Hin Hnone. apply in_map_iff in Hin as (n & Hid & Hin).
  apply (find_none _ _ Hnone n) in Hin.
  apply String.eqb_neq in Hin. contradiction.
Qed.

(** A node added at the end is found only under an id no node had. *)
Lemma getFlow_snoc_node (n : AppNode num) (ns : list (AppNode num))
    (es : list (AppEdge num)) (depth : nat) (a : string) :
  (forall e, In e es -> In (edge_to e) (map node_id ns)) ->
  getFlow (ns ++ [n]) es depth a = getFlow ns es depth a.
Proof.
  intros Hat. revert a. induction depth as [|depth IH]; intros a;
    [reflexivity|].
  rewrite !getFlow_unfold.
  destruct (lookupEdge es a) as [E|] eqn:HE; [|reflexivity].
  apply lookupEdge_id in HE as [_ Hin].
  unfold lookupNode. rewrite find_snoc_found.
  2:{ apply (lookupNode_In ns (edge_to E)). now apply Hat. }
  destruct (List.find _ ns) as [m|]; [|reflexivity].
  apply forEach_eq_in. intros f out _. unfold addFlow. now rewrite IH.
Qed.

Lemma downstream_trans (es : list (AppEdge num)) (a b c : string) :
  downstream es a b -> downstream es b c -> downstream es a c.
Proof.
  intros Hab Hbc. induction Hbc as [|e _ IH Hin]; [exact Hab|].
  now apply downstream_step.
Qed.

(** A change of nodes that [getFlow(a)] does not come to is not seen. *)
Lemma getFlow_map_nodes_elsewhere (h : AppNode num -> AppNode num)
    (id : string) (ns : list (AppNode num)) (es : list (AppEdge num))
    (depth : nat) (a : string) :
  List.NoDup (map edge_id es) ->
  (forall n, node_id (h n) = node_id n) ->
  (forall n, node_id n <> id -> h n = n) ->
  (forall E, lookupEdge es a = Some E -> ~ downstream es (edge_to E) id) ->
  getFlow (map h ns) es depth a = getFlow ns es depth a.
Proof.
  intros HND Hid Hother. revert a.
  induction depth as [|depth IH]; intros a Hfar; [reflexivity|].
  rewrite !getFlow_unfold.
  destruct (lookupEdge es a) as [E|] eqn:HE; [|reflexivity].
  specialize (Hfar E eq_refl).
  unfold lookupNode. rewrite (find_map_key node_id h ns (edge_to E) Hid).
  destruct (List.find _ ns) as [n|] eqn:Hn; [|reflexivity]. simpl.
  pose proof (lookupNode_id ns _ _ Hn) as Hto.
  assert (Hne : node_id n <> id).
  { intros Heq. apply Hfar. rewrite <- Heq, Hto. constructor. }
  rewrite (Hother n Hne).
  apply forEach_eq_in. intros f out Hout. unfold addFlow.
  rewrite IH; [reflexivity|].
  apply filter_In in Hout as [Hin Hfrom]. apply String.eqb_eq in Hfrom.
  intros E'. rewrite (lookupEdge_NoDup es out HND Hin). intros [= <-] Hdown.
  apply Hfar. apply downstream_trans with (b := edge_to out); [|exact Hdown].
  apply downstream_step; [|exact Hin]. rewrite Hfrom, Hto. constructor.
Qed.

(** Two states with the same pipes, the same pressure drop and the same
    flows get the same verdict map. *)
Lemma AppV1_verdicts_ext (depth : nat) (s1 s2 : AppState num) :
  edges s1 = edges s2 -> pressureDrop s1 = pressureDrop s2 ->
  (forall a, getFlow (nodes s1) (edges s1) depth a =
             getFlow (nodes s2) (edges s2) depth a) ->
  verdicts (AppV1.validateSystem depth s1) =
  verdicts (AppV1.validateSystem depth s2).
Proof.
  intros He Hp Hf. unfold AppV1.validateSystem. rewrite He.
  rewrite (forEach_eq_in (AppV1.validateEdge s1 depth)
             (AppV1.validateEdge s2 depth)).
  - now destruct (forEach _ _ _).
  - intros r e _. rewrite !AppV1_validateEdge_verdict, Hf.
    unfold verdictV1. now rewrite He, Hp.
Qed.

Lemma AppV2_verdicts_ext (depth : nat) (s1 s2 : AppState num) :
  edges s1 = edges s2 -> pressureDrop s1 = pressureDrop s2 ->
  (forall a, getFlow (nodes s1) (edges s1) depth a =
             getFlow (nodes s2) (edges s2) depth a) ->
  verdicts (AppV2.validateSystem depth s1) =
  verdicts (AppV2.validateSystem depth s2).
Proof.
  intros He Hp Hf. unfold AppV2.validateSystem. rewrite He.
  rewrite (forEach_eq_in (AppV2.validateEdge s1 depth)
             (AppV2.validateEdge s2 depth)).
  - now destruct (forEach _ _ _).
  - intros r e _. rewrite !AppV2_validateEdge_verdict, Hf.
    unfold verdictV2. now rewrite Hp.
Qed.

Lemma spreadNode_layout (n : AppNode num) (u : NodeUpdates num) :
  layoutOnly u ->
  node_id (spreadNode n u) = node_id n /\
  node_type (spreadNode n u) = node_type n /\
  node_btu (spreadNode n u) = node_btu n.
Proof. intros [[Hi Ht] Hb]. simpl. now rewrite Hi, Ht, Hb. Qed.

Lemma spreadEdge_ends (e : AppEdge num) (u : EdgeUpdates num) :
  keepsEnds u ->
  edge_id (spreadEdge e u) = edge_id e /\
  edge_from (spreadEdge e u) = edge_from e /\
  edge_to (spreadEdge e u) = edge_to e.
Proof. intros (Hi & Hf & Ht). simpl. now rewrite Hi, Hf, Ht. Qed.
End FlowFrame.

(** ** Deleting and validating *)

Section DeleteValidate.
Context {num : Type} `{JSNumber num}.

Lemma calls_sub (ns ns' : list (AppNode num)) (es es' : list (AppEdge num))
    (a b : string) :
  (forall i e, lookupEdge es' i = Some e -> lookupEdge es i = Some e) ->
  (forall i n, lookupNode ns' i = Some n -> lookupNode ns i = Some n) ->
  incl es' es ->
  calls ns' es' a b -> calls ns es a b.
Proof.
  intros He Hn Hsub (E & n & out & HE & Hnode & Hout & ->).
  exists E, n, out. split; [now apply He|]. split; [now apply Hn|].
  split; [|reflexivity].
  apply filter_In in Hout as [Hin Hf]. apply filter_In.
  split; [now apply Hsub | exact Hf].
Qed.

Lemma acyclic_sub (ns ns' : list (AppNode num)) (es es' : list (AppEdge num)) :
  (forall i e, lookupEdge es' i = Some e -> lookupEdge es i = Some e) ->
  (forall i n, lookupNode ns' i = Some n -> lookupNode ns i = Some n) ->
  incl es' es ->
  acyclic ns es -> acyclic ns' es'.
Proof.
  intros He Hn Hsub Hac a Ha. apply (Hac a).
  assert (Hmono : forall x y, clos_trans string (calls ns' es') x y ->
                              clos_trans string (calls ns es) x y).
  { intros x y Hxy. induction Hxy as [x y Hxy | x y z _ IH1 _ IH2].
    - apply t_step. now apply (calls_sub ns ns' es es').
    - now apply t_trans with y. }
  now apply Hmono.
Qed.

(** Taking every pipe with a given id away cannot close a cycle. *)
Lemma acyclic_delete_edge (id : string) (ns : list (AppNode num))
    (es : list (AppEdge num)) :
  acyclic ns es ->
  acyclic ns (List.filter (fun e => negb (String.eqb (edge_id e) id)) es).
Proof.
  apply acyclic_sub.
  - intros i e. apply find_filter_key.
  - trivial.
  - apply incl_filter.
Qed.

(** With unique pipe ids, neither can taking a node and its pipes away. *)
Lemma acyclic_delete_node (id : string) (s : AppState num) :
  List.NoDup (map edge_id (edges s)) ->
  acyclic (nodes s) (edges s) ->
  let s' := HandlersV2.handleDeleteNode id s in
  acyclic (nodes s') (edges s').
Proof.
  intros HND Hac s'. subst s'. simpl. revert Hac. apply acyclic_sub.
  - intros i e He. apply lookupEdge_id in He as [<- Hin].
    apply filter_In in Hin as [Hin _]. now apply lookupEdge_NoDup.
  - intros i n. apply find_filter_key.
  - apply incl_filter.
Qed.

Lemma ids_delete_edge (id : string) (es : list (AppEdge num)) :
  list_to_set
    (map edge_id (List.filter (fun e => negb (String.eqb (edge_id e) id)) es))
  = (list_to_set (map edge_id es) : gset string) ∖ {[id]}.
Proof.
  apply set_eq. intros k.
  rewrite elem_of_difference, !elem_of_list_to_set, !list_elem_of_In,
    !in_map_iff, elem_of_singleton.
  split.
  - intros (e & <- & Hin). apply filter_In in Hin as [Hin Hne].
    apply negb_true_iff, String.eqb_neq in Hne. eauto.
  - intros [(e & <- & Hin) Hne]. exists e. split; [reflexivity|].
    apply filter_In. split; [exact Hin|].
    now apply negb_true_iff, String.eqb_neq.
Qed.
End DeleteValidate.

(** X3: deleting a pipe removes exactly its entry.  On a network on which
    validation returns (no call of [getFlow] leads back to itself), the pass
    that follows [handleDeleteEdge] ([onDeleteEdge] in [src/App.tsx])
    returns as well, and the own keys of its verdict record are the previous
    edge ids without the deleted one (and without [__proto__], which is
    never an own key). *)
Theorem delete_edge_then_validate
    {num : Type} `{JSNumber num} (id : string) (depth : nat)
    (s : AppState num) :
  acyclic (nodes s) (edges s) -> (length (edges s) < depth)%nat ->
  (exists s',
     AppV1.validateSystem depth (HandlersV1.handleDeleteEdge id s) = Some s' /\
     Object_keys (validation s') =
     list_to_set (map edge_id (edges s)) ∖ {[id]} ∖ {["__proto__"]}) /\
  (exists s',
     AppV2.validateSystem depth (HandlersV2.onDeleteEdge id s) = Some s' /\
     Object_keys (validation s') =
     list_to_set (map edge_id (edges s)) ∖ {[id]} ∖ {["__proto__"]}).
Proof.
  intros Hac Hd.
  pose proof (acyclic_delete_edge id _ _ Hac) as Hac'.
  pose proof (filter_length_le
                (fun e => negb (String.eqb (edge_id e) id)) (edges s)) as Hle.
  split.
  - destruct (V1_handleDeleteEdge_snapshot id s) as (Hn & He & _).
    destruct (AppV1_covers_when_acyclic
                (HandlersV1.handleDeleteEdge id s) depth)
      as (s' & Hs' & Hdom & _).
    + now rewrite Hn, He.
    + rewrite He. lia.
    + exists s'. split; [exact Hs'|].
      now rewrite Hdom, He, ids_delete_edge.
  - destruct (AppV2_covers_when_acyclic
                (HandlersV2.onDeleteEdge id s) depth)
      as (s' & Hs' & Hdom & _).
    + exact Hac'.
    + simpl. lia.
    + exists s'. split; [exact Hs'|].
      rewrite Hdom. simpl. now rewrite ids_delete_edge.
Qed.

Lemma delete_edge_then_validate_witness :
  let S := Samples.oversized_branch in
  exists s',
    AppV2.validateSystem 3 (HandlersV2.onDeleteEdge "e2" S) = Some s' /\
    Object_keys (validation s') = {["e1"]}.
Proof.
  intros S.
  destruct (@delete_edge_then_validate float float_number "e2" 3 S)
    as [_ (s' & Hs' & Hk)].
  - apply returns_acyclic. intros e [<- | [<- | []]];
      exists 3%nat; eexists; vm_compute; reflexivity.
  - simpl. lia.
  - exists s'. split; [exact Hs'|]. rewrite Hk. simpl.
    apply set_eq. intros k.
    rewrite !elem_of_difference, !elem_of_union, !elem_of_singleton.
    rewrite elem_of_empty. split.
    + intros [[[Hi | [Hi | []]] Hne] _]; [exact Hi | contradiction].
    + intros ->. repeat split; [now left | discriminate | discriminate].
Defined.

(** X4: deleting a node never makes validation throw.  On a network with
    unique pipe ids on which validation returns, the pass that follows
    [handleDeleteNode] (either component) returns, and its verdict record
    has an own key exactly for the pipes that neither started nor ended at
    the node (but for a pipe of the id [__proto__], which is never an own
    key). *)
Theorem delete_node_then_validate
    {num : Type} `{JSNumber num} (id : string) (depth : nat)
    (s : AppState num) :
  acyclic (nodes s) (edges s) -> List.NoDup (map edge_id (edges s)) ->
  (length (edges s) < depth)%nat ->
  let kept k :=
    exists e, In e (edges s) /\ edge_id e = k /\
              edge_from e <> id /\ edge_to e <> id in
  (exists s',
     AppV1.validateSystem depth (HandlersV1.handleDeleteNode id s) = Some s' /\
     forall k, k ∈ Object_keys (validation s') <->
               kept k /\ k <> "__proto__") /\
  (exists s',
     AppV2.validateSystem depth (HandlersV2.handleDeleteNode id s) = Some s' /\
     forall k, k ∈ Object_keys (validation s') <->
               kept k /\ k <> "__proto__").
Proof.
  intros Hac HND Hd kept.
  pose proof (acyclic_delete_node id s HND Hac) as Hac'. cbv zeta in Hac'.
  pose proof (filter_length_le
                (fun e => negb (String.eqb (edge_from e) id) &&
                          negb (String.eqb (edge_to e) id)) (edges s)) as Hle.
  assert (Hkeys : forall k,
            k ∈ (list_to_set
                   (map edge_id (edges (HandlersV2.handleDeleteNode id s)))
                 : gset string) ∖ {["__proto__"]} <->
            kept k /\ k <> "__proto__").
  { intros k.
    rewrite elem_of_difference, elem_of_singleton, elem_of_list_to_set,
      list_elem_of_In, in_map_iff.
    simpl. unfold kept. split.
    - intros [(e & <- & Hin) Hp]. split; [|exact Hp].
      apply filter_In in Hin as [Hin Hne].
      apply andb_true_iff in Hne as [Hf Ht].
      apply negb_true_iff, String.eqb_neq in Hf, Ht. eauto.
    - intros [(e & Hin & <- & Hf & Ht) Hp]. split; [|exact Hp].
      exists e. split; [reflexivity|].
      apply filter_In. split; [exact Hin|].
      apply andb_true_iff. split; now apply negb_true_iff, String.eqb_neq. }
  split.
  - destruct (V1_handleDeleteNode_snapshot id s) as (Hn & He & _).
    destruct (AppV1_covers_when_acyclic
                (HandlersV1.handleDeleteNode id s) depth)
      as (s' & Hs' & Hdom & _).
    + now rewrite Hn, He.
    + rewrite He. simpl. lia.
    + exists s'. split; [exact Hs'|]. intros k.
      now rewrite Hdom, He.
  - destruct (AppV2_covers_when_acyclic
                (HandlersV2.handleDeleteNode id s) depth)
      as (s' & Hs' & Hdom & _).
    + exact Hac'.
    + simpl. lia.
    + exists s'. split; [exact Hs'|]. intros k. now rewrite Hdom.
Qed.

Lemma delete_node_then_validate_witness :
  let S := Samples.oversized_branch in
  exists s',
    AppV2.validateSystem 3 (HandlersV2.handleDeleteNode "A" S) = Some s' /\
    "e1" ∈ Object_keys (validation s') /\
    "e2" ∉ Object_keys (validation s').
Proof.
  intros S.
  destruct (@delete_node_then_validate float float_number "A" 3 S)
    as [_ (s' & Hs' & Hk)].
  - apply returns_acyclic. intros e [<- | [<- | []]];
      exists 3%nat; eexists; vm_compute; reflexivity.
  - simpl. repeat constructor; simpl; intuition discriminate.
  - simpl. lia.
  - exists s'. split; [exact Hs'|]. split.
    + apply Hk. split; [|discriminate].
      exists (Samples.pipe "e1" "M" "J" HALF 10).
      repeat split; simpl; auto; discriminate.
    + intros Hin.
      apply Hk in Hin as [(e & [<- | [<- | []]] & Hid & _ & Ht) _];
        [discriminate Hid | now apply Ht].
Defined.

(** X5: moving or renaming a node changes no verdict.  After [updateNode]
    with a name or a position, or after [handleMouseMove] on the canvas
    (a drag), either
    [validateSystem] returns the verdict map it returned before (and throws
    where it threw before). *)
Theorem layout_changes_keep_verdicts
    {num : Type} `{JSNumber num} (depth : nat) (id : string)
    (updates : NodeUpdates num) (draggingNode : option string) (x y : num)
    (s s1 : AppState num) :
  layoutOnly updates ->
  s1 = updateNode id updates s \/
  s1 = CanvasV1.handleMouseMove draggingNode x y s ->
  verdicts (AppV1.validateSystem depth s1) =
    verdicts (AppV1.validateSystem depth s) /\
  verdicts (AppV2.validateSystem depth s1) =
    verdicts (AppV2.validateSystem depth s).
Proof.
  intros Hu Hs1.
  assert (Hflow : edges s1 = edges s /\ pressureDrop s1 = pressureDrop s /\
            forall a, getFlow (nodes s1) (edges s1) depth a =
                      getFlow (nodes s) (edges s) depth a).
  { destruct Hs1 as [-> | ->].
    - simpl. repeat split. intros a. apply getFlow_map_nodes. intros n.
      destruct (String.eqb (node_id n) id); [|repeat split].
      now apply spreadNode_layout.
    - unfold CanvasV1.handleMouseMove.
      destruct draggingNode as [d|]; [|repeat split].
      destruct (String.eqb d ""); [repeat split|].
      simpl. repeat split. intros a. apply getFlow_map_nodes. intros n.
      destruct (String.eqb (node_id n) d); repeat split. }
  destruct Hflow as (He & Hp & Hf). split.
  - now apply AppV1_verdicts_ext.
  - now apply AppV2_verdicts_ext.
Qed.

Lemma layout_changes_keep_verdicts_witness :
  let S := Samples.oversized_branch in
  let rename :=
    {| new_node_id := None; new_node_type := None; new_node_x := None;
       new_node_y := None; new_node_name := Some "Tee";
       new_node_btu := None |} in
  layoutOnly rename /\
  node_name <$> lookupNode (nodes (updateNode "J" rename S)) "J" = Some "Tee"
  /\
  verdicts (AppV1.validateSystem 3 (updateNode "J" rename S)) =
    verdicts (AppV1.validateSystem 3 S).
Proof.
  intros S rename.
  assert (Hl : layoutOnly rename) by (repeat split).
  split; [exact Hl|]. split; [reflexivity|].
  exact (proj1 (@layout_changes_keep_verdicts float float_number 3 "J"
                  rename None 0%float 0%float S _ Hl (or_introl eq_refl))).
Defined.

(** X6: the size and the length of a pipe do not enter any flow.  After
    [updateEdge] with an update that leaves the id and the two ends of the
    pipe alone, [getFlow] returns for every edge id what it returned
    before. *)
Theorem updateEdge_keeps_flows
    {num : Type} `{JSNumber num} (id : string) (updates : EdgeUpdates num)
    (s : AppState num) (depth : nat) (a : string) :
  keepsEnds updates ->
  let s' := updateEdge id updates s in
  getFlow (nodes s') (edges s') depth a = getFlow (nodes s) (edges s) depth a.
Proof.
  intros Hu s'. subst s'. simpl. apply getFlow_map_edges. intros e.
  destruct (String.eqb (edge_id e) id); [|repeat split].
  now apply spreadEdge_ends.
Qed.

Lemma updateEdge_keeps_flows_witness :
  let S := Samples.oversized_branch in
  let resize :=
    {| new_edge_id := None; new_edge_from := None; new_edge_to := None;
       new_edge_size := Some ONE; new_edge_length := Some 25%float |} in
  let S' := updateEdge "e2" resize S in
  keepsEnds resize /\
  edge_size <$> lookupEdge (edges S') "e2" = Some ONE /\
  getFlow (nodes S') (edges S') 3 "e1" = getFlow (nodes S) (edges S) 3 "e1".
Proof.
  intros S resize S'.
  assert (Hk : keepsEnds resize) by (repeat split).
  split; [exact Hk|]. split; [reflexivity|].
  exact (@updateEdge_keeps_flows float float_number "e2" resize S 3 "e1" Hk).
Defined.

(** ** Resizing a pipe *)

Section ResizeFacts.
Context {A V W : Type}.
Variable key : A -> string.
Variables val val' : A -> option V.
Variable proj : V -> W.
Variable g : A -> A.
Variable j : string.

(** Two loops of inserts that agree, under [proj], on what they store under
    [j] end with maps that agree under [j]. *)
Lemma forEach_insert_rel (l : list A) (r1 r2 : gmap string V) :
  (forall a, In a l -> key (g a) = key a) ->
  (forall a, In a l ->
     match val' (g a), val a with
     | Some v', Some v => key a = j -> proj v' = proj v
     | None, None => True
     | _, _ => False
     end) ->
  proj <$> (r1 !! j) = proj <$> (r2 !! j) ->
  match forEach (map g l)
          (fun r a => match val' a with
                      | Some v => Some (<[key a := v]> r)
                      | None => None
                      end) r1,
        forEach l
          (fun r a => match val a with
                      | Some v => Some (<[key a := v]> r)
                      | None => None
                      end) r2 with
  | Some m1, Some m2 => proj <$> (m1 !! j) = proj <$> (m2 !! j)
  | None, None => True
  | _, _ => False
  end.
Proof.
  revert r1 r2. induction l as [|a l IH]; intros r1 r2 Hk Hv Hr;
    [exact Hr|].
  simpl. pose proof (Hv a (or_introl eq_refl)) as Ha.
  pose proof (Hk a (or_introl eq_refl)) as Hka.
  destruct (val' (g a)) as [v'|], (val a) as [v|]; try contradiction;
    [|exact I].
  apply IH.
  - intros b Hb. apply Hk. now right.
  - intros b Hb. apply Hv. now right.
  - rewrite Hka. destruct (decide (key a = j)) as [Hj|Hj].
    + rewrite Hj, !lookup_insert_eq. simpl. f_equal. now apply Ha.
    + now rewrite !lookup_insert_ne.
Qed.
End ResizeFacts.

(** X7: resizing a pipe is local.  After [updateEdge] with a new size or
    length for the pipe [id], the entry [validateSystem] of [src/App.tsx]
    stores under any other id is the entry it stored before; in
    [src/unnamed/part_002] the flow and the capacity of every other entry
    are the ones stored before (its validity can change, through the
    sizing-order check against the resized pipe). *)
Theorem resize_is_local
    {num : Type} `{JSNumber num} (depth : nat) (id j : string)
    (updates : EdgeUpdates num) (s : AppState num) :
  keepsEnds updates -> j <> id ->
  let s' := updateEdge id updates s in
  verdictAt (AppV2.validateSystem depth s') j =
    verdictAt (AppV2.validateSystem depth s) j /\
  (fun vd => (flow vd, capacity vd)) <$>
    verdictAt (AppV1.validateSystem depth s') j =
  (fun vd => (flow vd, capacity vd)) <$>
    verdictAt (AppV1.validateSystem depth s) j.
Proof.
  intros Hu Hj s'.
  set (g := fun e : AppEdge num =>
              if String.eqb (edge_id e) id then spreadEdge e updates else e).
  assert (Hg : forall e, edge_id (g e) = edge_id e).
  { intros e. unfold g. destruct (String.eqb (edge_id e) id);
      [now apply spreadEdge_ends | reflexivity]. }
  assert (Hother : forall e, edge_id e = j -> g e = e).
  { intros e He. unfold g.
    destruct (String.eqb (edge_id e) id) eqn:Hid; [|reflexivity].
    apply String.eqb_eq in Hid. congruence. }
  assert (Hflow : forall a,
            getFlow (nodes s') (edges s') depth a =
            getFlow (nodes s) (edges s) depth a).
  { intros a. subst s'. simpl. apply getFlow_map_edges. intros e.
    destruct (String.eqb (edge_id e) id); [|repeat split].
    now apply spreadEdge_ends. }
  split.
  - pose proof (forEach_insert_rel edge_id
        (fun e => match getFlow (nodes s) (edges s) depth (edge_id e) with
                  | Some f => Some (verdictV2 s e f) | None => None end)
        (fun e => match getFlow (nodes s') (edges s') depth (edge_id e) with
                  | Some f => Some (verdictV2 s' e f) | None => None end)
        (fun vd => vd) g j (edges s) ∅ ∅) as Hrel.
    unfold AppV2.validateSystem. change (edges s') with (map g (edges s)).
    rewrite (forEach_eq_in (AppV2.validateEdge s' depth)
               (fun r e =>
                  match match getFlow (nodes s') (edges s') depth (edge_id e)
                        with Some f => Some (verdictV2 s' e f) | None => None
                        end
                  with Some v => Some (<[edge_id e := v]> r) | None => None
                  end)).
    2:{ intros r e _. rewrite AppV2_validateEdge_verdict.
        now destruct (getFlow _ _ _ _). }
    rewrite (forEach_eq_in (AppV2.validateEdge s depth)
               (fun r e =>
                  match match getFlow (nodes s) (edges s) depth (edge_id e)
                        with Some f => Some (verdictV2 s e f) | None => None
                        end
                  with Some v => Some (<[edge_id e := v]> r) | None => None
                  end)).
    2:{ intros r e _. rewrite AppV2_validateEdge_verdict.
        now destruct (getFlow _ _ _ _). }
    destruct (forEach (map g (edges s)) _ ∅) as [m1|],
             (forEach (edges s) _ ∅) as [m2|]; simpl.
    + rewrite <- (option_fmap_id (m1 !! j)), <- (option_fmap_id (m2 !! j)).
      apply Hrel; [auto| |reflexivity].
      intros e _. rewrite Hg, Hflow.
      destruct (getFlow _ _ _ _); [|exact I].
      intros He. now rewrite (Hother e He).
    + exfalso. apply Hrel; [auto| |reflexivity].
      intros e _. rewrite Hg, Hflow.
      destruct (getFlow _ _ _ _); [|exact I].
      intros He. now rewrite (Hother e He).
    + exfalso. apply Hrel; [auto| |reflexivity].
      intros e _. rewrite Hg, Hflow.
      destruct (getFlow _ _ _ _); [|exact I].
      intros He. now rewrite (Hother e He).
    + reflexivity.
  - pose proof (forEach_insert_rel edge_id
        (fun e => match getFlow (nodes s) (edges s) depth (edge_id e) with
                  | Some f => Some (verdictV1 s e f) | None => None end)
        (fun e => match getFlow (nodes s') (edges s') depth (edge_id e) with
                  | Some f => Some (verdictV1 s' e f) | None => None end)
        (fun vd => (flow vd, capacity vd)) g j (edges s) ∅ ∅) as Hrel.
    unfold AppV1.validateSystem. change (edges s') with (map g (edges s)).
    rewrite (forEach_eq_in (AppV1.validateEdge s' depth)
               (fun r e =>
                  match match getFlow (nodes s') (edges s') depth (edge_id e)
                        with Some f => Some (verdictV1 s' e f) | None => None
                        end
                  with Some v => Some (<[edge_id e := v]> r) | None => None
                  end)).
    2:{ intros r e _. rewrite AppV1_validateEdge_verdict.
        now destruct (getFlow _ _ _ _). }
    rewrite (forEach_eq_in (AppV1.validateEdge s depth)
               (fun r e =>
                  match match getFlow (nodes s) (edges s) depth (edge_id e)
                        with Some f => Some (verdictV1 s e f) | None => None
                        end
                  with Some v => Some (<[edge_id e := v]> r) | None => None
                  end)).
    2:{ intros r e _. rewrite AppV1_validateEdge_verdict.
        now destruct (getFlow _ _ _ _). }
    destruct (forEach (map g (edges s)) _ ∅) as [m1|],
             (forEach (edges s) _ ∅) as [m2|]; simpl.
    + apply Hrel; [auto| |reflexivity].
      intros e _. rewrite Hg, Hflow.
      destruct (getFlow _ _ _ _); [|exact I].
      intros He. now rewrite (Hother e He).
    + exfalso. apply Hrel; [auto| |reflexivity].
      intros e _. rewrite Hg, Hflow.
      destruct (getFlow _ _ _ _); [|exact I].
      intros He. now rewrite (Hother e He).
    + exfalso. apply Hrel; [auto| |reflexivity].
      intros e _. rewrite Hg, Hflow.
      destruct (getFlow _ _ _ _); [|exact I].
      intros He. now rewrite (Hother e He).
    + reflexivity.
Qed.

Lemma resize_is_local_witness :
  let S := Samples.oversized_branch in
  let resize :=
    {| new_edge_id := None; new_edge_from := None; new_edge_to := None;
       new_edge_size := Some THREE_EIGHTHS; new_edge_length := None |} in
  let S' := updateEdge "e2" resize S in
  keepsEnds resize /\
  verdictAt (AppV2.validateSystem 3 S') "e1" =
    verdictAt (AppV2.validateSystem 3 S) "e1" /\
  verdictAt (AppV2.validateSystem 3 S') "e2" <>
    verdictAt (AppV2.validateSystem 3 S) "e2".
Proof.
  intros S resize S'.
  assert (Hk : keepsEnds resize) by (repeat split).
  split; [exact Hk|]. split.
  - apply (@resize_is_local float float_number 3 "e2" "e1" resize S Hk).
    discriminate.
  - vm_compute. discriminate.
Defined.

(** X8: independent subtrees.  With unique pipe ids, a change to a node that
    does not lie at or below the end of a pipe -- its demand, its type, its
    name or its position -- does not change the flow [getFlow] returns for
    that pipe. *)
Theorem getFlow_ignores_nodes_elsewhere
    {num : Type} `{JSNumber num} (id : string) (updates : NodeUpdates num)
    (s : AppState num) (depth : nat) (a : string) :
  List.NoDup (map edge_id (edges s)) ->
  new_node_id updates = None ->
  (forall E, lookupEdge (edges s) a = Some E ->
             ~ downstream (edges s) (edge_to E) id) ->
  let s' := updateNode id updates s in
  getFlow (nodes s') (edges s') depth a = getFlow (nodes s) (edges s) depth a.
Proof.
  intros HND Hid Hfar s'. subst s'. simpl.
  apply getFlow_map_nodes_elsewhere with (id := id); try assumption.
  - intros n. destruct (String.eqb (node_id n) id); [|reflexivity].
    simpl. now rewrite Hid.
  - intros n Hne. apply String.eqb_neq in Hne. now rewrite Hne.
Qed.

Lemma getFlow_ignores_nodes_elsewhere_witness :
  let S := Plans.two_meters in
  let demand :=
    {| new_node_id := None; new_node_type := None; new_node_x := None;
       new_node_y := None; new_node_name := None;
       new_node_btu := Some 100000%float |} in
  let S' := updateNode "A2" demand S in
  getFlow (nodes S') (edges S') 2 "e2" = Some 100000%float /\
  getFlow (nodes S) (edges S) 2 "e2" = Some 65000%float /\
  getFlow (nodes S') (edges S') 2 "e1" = getFlow (nodes S) (edges S) 2 "e1".
Proof.
  intros S demand S'.
  split; [vm_compute; reflexivity|]. split; [vm_compute; reflexivity|].
  apply (@getFlow_ignores_nodes_elsewhere float float_number "A2" demand S
           2 "e1").
  - simpl. repeat constructor; simpl; intuition discriminate.
  - reflexivity.
  - intros E [= <-] Hdown. simpl in Hdown.
    inversion Hdown as [|e Hup [<- | [<- | []]] Hto]; try discriminate Hto.
    simpl in Hup.
    inversion Hup as [|e' _ [<- | [<- | []]] Hto']; discriminate Hto'.
Defined.

(** X9: adding a node changes no verdict.  On a network whose pipes all
    join nodes of the network, the pass that follows [handleAddNode] (either
    component) returns the verdict map returned before. *)
Theorem handleAddNode_keeps_verdicts
    {num : Type} `{JSNumber num} (depth : nat) (newId : string) (x y : num)
    (type : NodeType) (btu : option num) (name : option string)
    (s : AppState num) :
  attached (nodes s) (edges s) ->
  verdicts (AppV1.validateSystem depth
              (HandlersV1.handleAddNode newId x y type btu name s)) =
    verdicts (AppV1.validateSystem depth s) /\
  verdicts (AppV2.validateSystem depth
              (HandlersV2.handleAddNode newId type btu name s)) =
    verdicts (AppV2.validateSystem depth s).
Proof.
  intros Hat.
  assert (Hto : forall e, In e (edges s) ->
                          In (edge_to e) (map node_id (nodes s))).
  { intros e He. now apply Hat. }
  split.
  - apply AppV1_verdicts_ext; try reflexivity.
    intros a. simpl. now apply getFlow_snoc_node.
  - apply AppV2_verdicts_ext; try reflexivity.
    intros a. simpl. now apply getFlow_snoc_node.
Qed.

Lemma handleAddNode_keeps_verdicts_witness :
  let S := Samples.oversized_branch in
  let S' := HandlersV2.handleAddNode "D" APPLIANCE (Some 20000%float)
              (Some "Dryer") S in
  attached (nodes S) (edges S) /\ length (nodes S') = 4%nat /\
  verdicts (AppV2.validateSystem 3 S') = verdicts (AppV2.validateSystem 3 S).
Proof.
  intros S S'.
  assert (Hat : attached (nodes S) (edges S)).
  { intros e [<- | [<- | []]]; simpl; tauto. }
  split; [exact Hat|]. split; [reflexivity|].
  exact (proj2 (@handleAddNode_keeps_verdicts float float_number 3 "D"
                  0%float 0%float APPLIANCE (Some 20000%float)
                  (Some "Dryer") S Hat)).
Defined.

(** ** The invariants of an editing session *)

Section SessionFacts.
Context {num : Type} `{JSNumber num}.

Lemma sound_snapshot (s s' : AppState num) :
  nodes s' = nodes s -> edges s' = edges s -> sound s -> sound s'.
Proof.
  intros Hn He [H1 H2 H3 H4]. split; rewrite ?Hn, ?He; assumption.
Qed.

Lemma outbound_unattached (ns : list (AppNode num)) (es : list (AppEdge num))
    (i : string) :
  attached ns es -> ~ In i (map node_id ns) -> outbound es i = [].
Proof.
  intros Hat Hni. unfold outbound.
  destruct (List.filter _ es) as [|e l] eqn:Hf; [reflexivity|].
  assert (Hin : In e (List.filter
                        (fun e => String.eqb (edge_from e) i) es)).
  { rewrite Hf. now left. }
  apply filter_In in Hin as [Hin Hfrom]. apply String.eqb_eq in Hfrom.
  destruct (Hat e Hin) as [Hfr _]. rewrite Hfrom in Hfr. contradiction.
Qed.

(** A node with a new id, added at the end. *)
Lemma sound_add_node (n : AppNode num) (s s' : AppState num) :
  nodes s' = nodes s ++ [n] -> edges s' = edges s ->
  ~ In (node_id n) (map node_id (nodes s)) -> sound s -> sound s'.
Proof.
  intros Hn He Hnew [H1 H2 H3 [Hin Hj Ha Hl]].
  split; rewrite ?Hn, ?He; try assumption.
  - rewrite map_app. apply List.NoDup_app; [exact H1 | |].
    + simpl. constructor; [tauto | constructor].
    + intros a Ha' [<- | []]. contradiction.
  - intros e Hin'. destruct (H3 e Hin') as [Hf Ht].
    rewrite map_app. split; apply in_or_app; now left.
  - split; try assumption.
    + intros m Hm Ht. apply in_app_or in Hm as [Hm | [<- | []]];
        [now apply Hj|].
      rewrite (outbound_unattached _ _ _ H3 Hnew). simpl. lia.
    + intros m Hm Ht. apply in_app_or in Hm as [Hm | [<- | []]];
        [now apply Ha|].
      exact (outbound_unattached _ _ _ H3 Hnew).
Qed.

(** A change of nodes that keeps their ids and types. *)
Lemma sound_map_nodes (h : AppNode num -> AppNode num) (s s' : AppState num) :
  nodes s' = map h (nodes s) -> edges s' = edges s ->
  (forall n, node_id (h n) = node_id n /\ node_type (h n) = node_type n) ->
  sound s -> sound s'.
Proof.
  intros Hn He Hh [H1 H2 H3 [Hin Hj Ha Hl]].
  assert (Hids : map node_id (map h (nodes s)) = map node_id (nodes s)).
  { rewrite map_map. apply map_ext. intros n. apply Hh. }
  split; unfold attached; rewrite ?Hn, ?He, ?Hids; try assumption.
  split; try assumption.
  - intros m Hm Ht. apply in_map_iff in Hm as (n & <- & Hm).
    destruct (Hh n) as [Hid Hty]. rewrite Hid. apply Hj; congruence.
  - intros m Hm Ht. apply in_map_iff in Hm as (n & <- & Hm).
    destruct (Hh n) as [Hid Hty]. rewrite Hid. apply Ha; congruence.
Qed.

(** A change of pipes that keeps their ids and ends. *)
Lemma sound_map_edges (g : AppEdge num -> AppEdge num) (s s' : AppState num) :
  nodes s' = nodes s -> edges s' = map g (edges s) ->
  (forall e, edge_id (g e) = edge_id e /\ edge_from (g e) = edge_from e /\
             edge_to (g e) = edge_to e) ->
  sound s -> sound s'.
Proof.
  intros Hn He Hg [H1 H2 H3 [Hin Hj Ha Hl]].
  assert (Hids : map edge_id (map g (edges s)) = map edge_id (edges s)).
  { rewrite map_map. apply map_ext. intros e. apply Hg. }
  split; rewrite ?Hn, ?He, ?Hids; try assumption.
  - intros e' He'. apply in_map_iff in He' as (e & <- & He').
    destruct (Hg e) as (_ & -> & ->). now apply H3.
  - split.
    + intros x. unfold inbound.
      rewrite (filter_map_key edge_to g (edges s) x
                 (fun e => proj2 (proj2 (Hg e)))), length_map.
      apply Hin.
    + intros n Hn' Ht. unfold outbound.
      rewrite (filter_map_key edge_from g (edges s) (node_id n)
                 (fun e => proj1 (proj2 (Hg e)))), length_map.
      now apply Hj.
    + intros n Hn' Ht. unfold outbound.
      rewrite (filter_map_key edge_from g (edges s) (node_id n)
                 (fun e => proj1 (proj2 (Hg e)))).
      specialize (Ha n Hn' Ht). unfold outbound in Ha. now rewrite Ha.
    + intros e' He'. apply in_map_iff in He' as (e & <- & He').
      destruct (Hg e) as (_ & -> & ->). now apply Hl.
Qed.

(** What [handleAddEdge] does to the list of pipes. *)
Lemma AppV1_handleAddEdge_edges (newId fromId toId : string)
    (s : AppState num) :
  let s' := AppV1.handleAddEdge newId fromId toId s in
  edges s' = edges s \/
  exists newEdge,
    edges s' = edges s ++ [newEdge] /\ edge_id newEdge = newId /\
    edge_from newEdge = fromId /\ edge_to newEdge = toId /\
    In fromId (map node_id (nodes s)).
Proof.
  unfold AppV1.handleAddEdge.
  destruct (String.eqb fromId toId); [now left|].
  destruct (List.find _ (nodes s)) as [fromNode|] eqn:Hfrom; [|now left].
  destruct (List.find _ (edges s)); [now left|].
  destruct (_ && _); [now left|].
  destruct (NodeType_eqb _ APPLIANCE); [now left|].
  right. eexists. simpl. split; [reflexivity|]. repeat split.
  apply find_some in Hfrom as [Hin Hid]. apply String.eqb_eq in Hid.
  rewrite <- Hid. now apply in_map.
Qed.

Lemma sound_handleAddEdge (newId fromId toId : string) (s : AppState num) :
  ~ In newId (map edge_id (edges s)) -> In toId (map node_id (nodes s)) ->
  sound s -> sound (AppV1.handleAddEdge newId fromId toId s).
Proof.
  intros Hnew Hto Hs. pose proof Hs as [H1 H2 H3 H4].
  destruct (AppV1_handleAddEdge_wellShaped newId fromId toId s H1 H4)
    as [Hn HW].
  destruct (AppV1_handleAddEdge_edges newId fromId toId s)
    as [He | (e & He & Hid & Hf & Ht & Hfrom)].
  - split; rewrite ?Hn, ?He; assumption.
  - split; rewrite ?Hn; try assumption.
    + rewrite He, map_app. apply List.NoDup_app; [exact H2 | |].
      * simpl. constructor; [tauto | constructor].
      * intros a Ha [<- | []]. congruence.
    + rewrite He. intros e' He'. apply in_app_or in He' as [He' | [<- | []]];
        [now apply H3|].
      rewrite Hf, Ht. now split.
    + now rewrite <- Hn.
Qed.

Lemma sound_handleMouseUp (tool : CanvasV1.Tool)
    (pipingFrom targetNodeId : option string) (newId : string)
    (s : AppState num) :
  ~ In newId (map edge_id (edges s)) ->
  (forall t, targetNodeId = Some t -> In t (map node_id (nodes s))) ->
  sound s ->
  sound (CanvasV1.handleMouseUp tool pipingFrom targetNodeId newId s).
Proof.
  intros Hnew Hto Hs. unfold CanvasV1.handleMouseUp.
  destruct tool; [|exact Hs].
  destruct pipingFrom as [f|]; [|exact Hs].
  destruct targetNodeId as [t|]; [|exact Hs].
  destruct (_ && _); [|exact Hs].
  apply sound_handleAddEdge; auto.
Qed.

Lemma sound_delete (ns : AppNode num -> bool) (es : AppEdge num -> bool)
    (s s' : AppState num) :
  nodes s' = List.filter ns (nodes s) -> edges s' = List.filter es (edges s) ->
  attached (nodes s') (edges s') -> sound s -> sound s'.
Proof.
  intros Hn He Hat [H1 H2 H3 H4]. split; [| | exact Hat |].
  - rewrite Hn. now apply NoDup_map_filter.
  - rewrite He. now apply NoDup_map_filter.
  - rewrite Hn, He. apply wellShaped_sub with (ns := nodes s);
      [exact H4 | apply incl_filter].
Qed.

Lemma filter_true {A : Type} (l : list A) :
  List.filter (fun _ => true) l = l.
Proof. induction l as [|a l IH]; simpl; congruence. Qed.
End SessionFacts.

(** X10: an editing session of [src/unnamed/part_002] keeps the drawing
    sound.  In every state reached from an empty drawing through
    [handleAddNode], the release of the pointer on the canvas
    ([handleAddEdge]), [updateNode], [updateEdge], a drag, [handleDeleteEdge],
    [handleDeleteNode], a selection, a new pressure drop or pipe size and a
    validation pass, node ids and pipe ids are unique, every pipe joins two nodes of
    the drawing, and the network is well shaped: at most one inbound pipe
    per node, at most two pipes out of a junction, none out of an appliance,
    no self-loop. *)
Theorem sessionV1_sound
    {num : Type} `{JSNumber num} (s : AppState num) :
  sessionV1 s -> sound s.
Proof.
  induction 1 as
    [s Hn He
    |s newId x y type btu name _ IH Hnew
    |s tool pipingFrom targetNodeId newId _ IH Hnew Hto
    |s id updates _ IH [Hid Hty]
    |s id updates _ IH Hu
    |s draggingNode x y _ IH
    |s id _ IH
    |s id _ IH
    |s i _ IH
    |s d _ IH
    |s size _ IH
    |s depth s' _ IH Hs'].
  - split; rewrite ?Hn, ?He.
    + constructor.
    + constructor.
    + intros e [].
    + apply wellShaped_no_edges.
  - eapply sound_add_node;
      [simpl; reflexivity | reflexivity | exact Hnew | exact IH].
  - now apply sound_handleMouseUp.
  - eapply (sound_map_nodes _ s); [reflexivity|reflexivity| |exact IH].
    intros n. cbv beta. destruct (String.eqb (node_id n) id); [|now split].
    simpl. now rewrite Hid, Hty.
  - eapply (sound_map_edges _ s); [reflexivity|reflexivity| |exact IH].
    intros e. cbv beta. destruct (String.eqb (edge_id e) id); [|repeat split].
    now apply spreadEdge_ends.
  - unfold CanvasV1.handleMouseMove.
    destruct draggingNode as [d|]; [|exact IH].
    destruct (String.eqb d ""); [exact IH|].
    eapply (sound_map_nodes _ s); [reflexivity|reflexivity| |exact IH].
    intros n. cbv beta. destruct (String.eqb (node_id n) d); now split.
  - destruct (V1_handleDeleteEdge_snapshot id s) as (Hn & He & _).
    apply (sound_delete (fun _ => true)
             (fun e => negb (String.eqb (edge_id e) id)) s);
      [now rewrite filter_true | exact He | | exact IH].
    rewrite Hn, He. intros e Hin. apply filter_In in Hin as [Hin _].
    now apply (pipes_attached s IH).
  - destruct (V1_handleDeleteNode_snapshot id s) as (Hn & He & _).
    apply (sound_delete
             (fun n => negb (String.eqb (node_id n) id))
             (fun e => negb (String.eqb (edge_from e) id) &&
                       negb (String.eqb (edge_to e) id)) s);
      [exact Hn | exact He | | exact IH].
    rewrite Hn, He. apply handleDeleteNode_attached.
    exact (pipes_attached s IH).
  - now apply (sound_snapshot s).
  - now apply (sound_snapshot s).
  - now apply (sound_snapshot s).
  - destruct (pass_frame AppV1.validateEdge AppV1.validateSystem
                AppV1_validateSystem_eq depth s s' Hs') as (Hn & He & _).
    now apply (sound_snapshot s).
Qed.

Lemma sessionV1_sound_witness :
  let new : AppState float :=
    {| nodes := []; edges := []; pressureDrop := 0.5%float;
       selectedPipeSize := HALF; validation := ∅; selectedId := None |} in
  let s1 := HandlersV1.handleAddNode "M" 400%float 300%float METER None None
              new in
  let s2 := HandlersV1.handleAddNode "A" 600%float 300%float APPLIANCE
              (Some 40000%float) (Some "Water Heater") s1 in
  let s3 := CanvasV1.handleMouseUp CanvasV1.pipe (Some "M") (Some "A") "e1"
              s2 in
  let s4 := CanvasV1.handleMouseUp CanvasV1.pipe (Some "A") (Some "M") "e2"
              s3 in
  length (edges s3) = 1%nat /\ edges s4 = edges s3 /\ sound s4.
Proof.
  intros new s1 s2 s3 s4.
  split; [reflexivity|]. split; [reflexivity|].
  apply (@sessionV1_sound float float_number s4).
  apply session_mouseUp.
  - apply session_mouseUp.
    + apply session_addNode.
      * apply session_addNode; [now apply session_new|]. simpl. tauto.
      * simpl. intuition discriminate.
    + simpl. tauto.
    + intros t [= <-]. simpl. tauto.
  - simpl. intuition discriminate.
  - intros t [= <-]. simpl. tauto.
Defined.

(** ** Records and the summary *)

Section RecordFacts.
Context {K V : Type}.
Variable eqb : K -> K -> bool.
Hypothesis eqb_eq : forall a b, eqb a b = true <-> a = b.

Lemma record_get_set_eq (r : list (K * V)) (k : K) (v : V) :
  record_get eqb (record_set eqb r k v) k = Some v.
Proof using eqb_eq.
  induction r as [|[k' v'] r IH]; simpl.
  - now rewrite (proj2 (eqb_eq k k) eq_refl).
  - destruct (eqb k' k) eqn:Hk; simpl; now rewrite Hk.
Qed.

Lemma record_get_set_ne (r : list (K * V)) (k k' : K) (v : V) :
  k <> k' ->
  record_get eqb (record_set eqb r k v) k' = record_get eqb r k'.
Proof using eqb_eq.
  intros Hne. induction r as [|[k0 v0] r IH]; simpl.
  - destruct (eqb k k') eqn:Hk; [|reflexivity].
    apply eqb_eq in Hk. contradiction.
  - destruct (eqb k0 k) eqn:Hk; simpl; [|now rewrite IH].
    apply eqb_eq in Hk. subst k0.
    destruct (eqb k k') eqn:Hk'; [|reflexivity].
    apply eqb_eq in Hk'. contradiction.
Qed.

Lemma record_set_keys (r : list (K * V)) (k : K) (v : V) :
  map fst (record_set eqb r k v) =
  match record_get eqb r k with
  | Some _ => map fst r
  | None => map fst r ++ [k]
  end.
Proof.
  induction r as [|[k' v'] r IH]; simpl; [reflexivity|].
  destruct (eqb k' k); simpl; [reflexivity|].
  rewrite IH. now destruct (record_get eqb r k).
Qed.
End RecordFacts.

Lemma PipeSize_eqb_eq (a b : PipeSize) : PipeSize_eqb a b = true <-> a = b.
Proof. destruct a, b; simpl; split; congruence. Qed.

Lemma InletSize_eqb_eq (a b : InletSize) : InletSize_eqb a b = true <-> a = b.
Proof.
  destruct a as [p|], b as [q|]; simpl; try (split; congruence).
  rewrite PipeSize_eqb_eq. split; congruence.
Qed.

Section SummaryFacts.
Context {num : Type} `{JSNumber num}.
Local Open Scope js_scope.

Lemma addTo_fold (es : list (AppEdge num)) (r : list (PipeSize * num)) :
  (forall size, record_get PipeSize_eqb r size <> None) ->
  let r' := fold_left
              (fun r e => HandlersV1.addTo r (edge_size e) (edge_length e))
              es r in
  map fst r' = map fst r /\
  forall size,
    record_get PipeSize_eqb r' size =
    (fun v => fold_left add (lengthsOf size es) v) <$>
      record_get PipeSize_eqb r size.
Proof.
  revert r. induction es as [|e es IH]; intros r Hall; simpl.
  - split; [reflexivity|]. intros size.
    now destruct (record_get PipeSize_eqb r size).
  - set (r1 := HandlersV1.addTo r (edge_size e) (edge_length e)).
    assert (Hget : forall size,
              record_get PipeSize_eqb r1 size =
              (fun v => if PipeSize_eqb (edge_size e) size
                        then v + edge_length e else v) <$>
                record_get PipeSize_eqb r size).
    { intros size. unfold r1, HandlersV1.addTo.
      destruct (PipeSize_eqb (edge_size e) size) eqn:Hs.
      - apply PipeSize_eqb_eq in Hs. subst size.
        rewrite (record_get_set_eq _ PipeSize_eqb_eq).
        specialize (Hall (edge_size e)).
        now destruct (record_get PipeSize_eqb r (edge_size e)).
      - rewrite (record_get_set_ne _ PipeSize_eqb_eq).
        + now destruct (record_get PipeSize_eqb r size).
        + intros Heq. apply PipeSize_eqb_eq in Heq. congruence. }
    assert (Hkeys : map fst r1 = map fst r).
    { unfold r1, HandlersV1.addTo. rewrite record_set_keys.
      specialize (Hall (edge_size e)).
      now destruct (record_get PipeSize_eqb r (edge_size e)). }
    destruct (IH r1) as [IHk IHg].
    { intros size. rewrite Hget.
      specialize (Hall size).
      now destruct (record_get PipeSize_eqb r size). }
    split; [now rewrite IHk|].
    intros size. rewrite IHg, Hget. unfold lengthsOf. simpl.
    destruct (record_get PipeSize_eqb r size); [|reflexivity]. simpl.
    now destruct (PipeSize_eqb (edge_size e) size).
Qed.

Lemma runningTotal_fold (es : list (AppEdge num)) (r : list (PipeSize * num))
    (size : PipeSize) :
  record_get PipeSize_eqb
    (fold_left
       (fun pipeTotals edge =>
          record_set PipeSize_eqb pipeTotals (edge_size edge)
            (orZero (record_get PipeSize_eqb pipeTotals (edge_size edge))
             + edge_length edge))
       es r) size =
  fold_left (fun acc l => Some (orZero acc + l)) (lengthsOf size es)
            (record_get PipeSize_eqb r size).
Proof.
  revert r. induction es as [|e es IH]; intros r; [reflexivity|].
  simpl. rewrite IH. unfold lengthsOf. simpl.
  destruct (PipeSize_eqb (edge_size e) size) eqn:Hs; simpl.
  - apply PipeSize_eqb_eq in Hs. subst size.
    now rewrite (record_get_set_eq _ PipeSize_eqb_eq).
  - rewrite (record_get_set_ne _ PipeSize_eqb_eq); [reflexivity|].
    intros Heq. apply PipeSize_eqb_eq in Heq. congruence.
Qed.

Lemma countUnder_fold (keys : list InletSize) (r : list (InletSize * num))
    (k : InletSize) (m : nat) :
  record_get InletSize_eqb r k = countedTo m ->
  record_get InletSize_eqb (fold_left HandlersV1.countUnder keys r) k =
  countedTo (length (List.filter (fun k' => InletSize_eqb k' k) keys) + m).
Proof.
  revert r m. induction keys as [|k0 keys IH]; intros r m Hr; [exact Hr|].
  simpl. destruct (InletSize_eqb k0 k) eqn:Hk.
  - apply InletSize_eqb_eq in Hk. subst k0. simpl.
    rewrite (IH _ (S m)); [now rewrite Nat.add_succ_r|].
    unfold HandlersV1.countUnder.
    rewrite (record_get_set_eq _ InletSize_eqb_eq), Hr. reflexivity.
  - apply IH. unfold HandlersV1.countUnder.
    rewrite (record_get_set_ne _ InletSize_eqb_eq); [exact Hr|].
    intros Heq. apply InletSize_eqb_eq in Heq. congruence.
Qed.

(** The two inventories of [getSummary] as two counts. *)
Lemma getSummary_inventories (s : AppState num) :
  let keysOf t :=
    map (HandlersV1.inletSize (edges s))
        (List.filter (fun n => NodeType_eqb (node_type n) t) (nodes s)) in
  HandlersV1.categorizedJunctions (HandlersV1.getSummary s) =
    fold_left HandlersV1.countUnder (keysOf JUNCTION) [] /\
  HandlersV1.categorizedManifolds (HandlersV1.getSummary s) =
    fold_left HandlersV1.countUnder (keysOf MANIFOLD) [].
Proof.
  intros keysOf. unfold HandlersV1.getSummary.
  set (step := fun '(cj, cm) node => _).
  assert (Hgen : forall ns cj cm,
            fold_left step ns (cj, cm) =
            (fold_left HandlersV1.countUnder
               (map (HandlersV1.inletSize (edges s))
                  (List.filter (fun n => NodeType_eqb (node_type n) JUNCTION)
                               ns)) cj,
             fold_left HandlersV1.countUnder
               (map (HandlersV1.inletSize (edges s))
                  (List.filter (fun n => NodeType_eqb (node_type n) MANIFOLD)
                               ns)) cm)).
  { induction ns as [|n ns IH]; intros cj cm; [reflexivity|].
    change (fold_left step (n :: ns) (cj, cm))
      with (fold_left step ns (step (cj, cm) n)).
    assert (Hstep : step (cj, cm) n =
              (if NodeType_eqb (node_type n) JUNCTION
               then HandlersV1.countUnder cj
                      (HandlersV1.inletSize (edges s) n) else cj,
               if NodeType_eqb (node_type n) MANIFOLD
               then HandlersV1.countUnder cm
                      (HandlersV1.inletSize (edges s) n) else cm)).
    { unfold step. destruct (node_type n); reflexivity. }
    rewrite Hstep, IH. simpl.
    destruct (node_type n); reflexivity. }
  rewrite Hgen. simpl. split; reflexivity.
Qed.
End SummaryFacts.

(** The rows of the material estimate of [src/unnamed/part_002]. *)
Lemma V1_pipeTotals_rows
    {num : Type} `{JSNumber num} (s : AppState num) :
  let totals := HandlersV1.pipeTotals (HandlersV1.getSummary s) in
  map fst totals = PipeSize_values /\
  forall size,
    record_get PipeSize_eqb totals size =
    Some (fold_left add (lengthsOf size (edges s)) (lit 0)).
Proof.
  intros totals. subst totals. unfold HandlersV1.getSummary.
  match goal with
  | |- context [fold_left _ (edges s) ?r0] => set (r := r0)
  end.
  destruct (addTo_fold (edges s) r) as [Hk Hg].
  { intros sz. destruct sz; discriminate. }
  destruct (fold_left _ (nodes s) _) as [cj cm]. simpl.
  split; [exact Hk|]. intros size. rewrite Hg. now destruct size.
Qed.

(** X11: the material estimate of [src/unnamed/part_002].  [getSummary]
    lists every pipe size, in the order of the enum, whether or not the
    drawing uses it, and the total of a size is the sum of the lengths of
    the pipes of that size, added in the order of the pipes, starting from
    0: a size without pipes shows 0, and a pipe of another size does not
    change the total. *)
Theorem getSummary_pipeTotals
    {num : Type} `{JSNumber num} (s : AppState num) (size : PipeSize) :
  let totals := HandlersV1.pipeTotals (HandlersV1.getSummary s) in
  map fst totals = PipeSize_values /\
  record_get PipeSize_eqb totals size =
    Some (fold_left add (lengthsOf size (edges s)) (lit 0)) /\
  (lengthsOf size (edges s) = [] ->
   record_get PipeSize_eqb totals size = Some (lit 0)).
Proof.
  intros totals. destruct (V1_pipeTotals_rows s) as [Hk Hrow].
  fold totals in Hk, Hrow. split; [exact Hk|]. split; [apply Hrow|].
  intros Hnone. now rewrite Hrow, Hnone.
Qed.

Section RealSummary.
Local Open Scope R_scope.

Lemma real_orZero_Some (v : R) : @orZero R real_number (Some v) = v.
Proof.
  unfold orZero. cbn [eqn lit real_number]. rewrite real_lit_zero.
  destruct (Req_dec_T v v) as [_|Hn]; [|now contradiction Hn].
  destruct (Req_dec_T v 0) as [->|_]; reflexivity.
Qed.

Lemma real_orZero_None : @orZero R real_number None = 0.
Proof. exact real_lit_zero. Qed.

Lemma real_countedTo (m : nat) :
  @countedTo R real_number m = match m with O => None | _ => Some (INR m) end.
Proof.
  assert (H1 : Q2R 1 = 1) by (unfold Q2R; simpl; lra).
  induction m as [|m IH]; [reflexivity|].
  change (Some (@orZero R real_number (@countedTo R real_number m) + Q2R 1)
          = Some (INR (S m))).
  rewrite IH, H1. f_equal. destruct m as [|m].
  - rewrite real_orZero_None. simpl. lra.
  - rewrite real_orZero_Some, (S_INR (S m)). reflexivity.
Qed.

Lemma real_runningTotal (ls : list R) :
  @runningTotal R real_number ls =
  match ls with [] => None | x :: l => Some (fold_left Rplus (x :: l) 0) end.
Proof.
  unfold runningTotal.
  assert (Hgen : forall l v,
            fold_left (fun acc x => Some (@orZero R real_number acc + x)%js)
                      l (Some v) = Some (fold_left Rplus l v)).
  { induction l as [|x l IH]; intros v; [reflexivity|].
    cbn [fold_left]. rewrite real_orZero_Some. apply IH. }
  destruct ls as [|x ls]; [reflexivity|].
  cbn [fold_left]. rewrite real_orZero_None. apply Hgen.
Qed.

Lemma filter_map_length {A B : Type} (f : A -> B) (p : A -> bool)
    (q : B -> bool) (l : list A) :
  length (List.filter q (map f (List.filter p l))) =
  length (List.filter (fun a => p a && q (f a)) l).
Proof.
  induction l as [|a l IH]; [reflexivity|].
  simpl. destruct (p a); simpl; [|exact IH].
  destruct (q (f a)); simpl; now rewrite IH.
Qed.
End RealSummary.

(** X12: the fitting inventory of [src/unnamed/part_002], in exact
    arithmetic.  [getSummary] counts every junction, and every manifold,
    once, under the size of the first pipe found that ends at it (under
    ['No Supply'] when there is none): the entry of a key is the number of
    such fittings, and a key without fittings has no entry. *)
Theorem getSummary_counts_fittings (s : AppState R) (k : InletSize) :
  let count t :=
    length
      (List.filter
         (fun n => NodeType_eqb (node_type n) t &&
                   InletSize_eqb (HandlersV1.inletSize (edges s) n) k)
         (nodes s)) in
  let shown m := match m with O => None | _ => Some (INR m) end in
  record_get InletSize_eqb
    (HandlersV1.categorizedJunctions (HandlersV1.getSummary s)) k =
    shown (count JUNCTION) /\
  record_get InletSize_eqb
    (HandlersV1.categorizedManifolds (HandlersV1.getSummary s)) k =
    shown (count MANIFOLD).
Proof.
  intros count shown.
  destruct (getSummary_inventories s) as [-> ->].
  rewrite !(countUnder_fold _ [] k 0 eq_refl), !Nat.add_0_r.
  rewrite !real_countedTo, !filter_map_length. split; reflexivity.
Qed.

(** X13: the material estimate of [src/App.tsx], in exact arithmetic.
    [getSummary] has a row for a size exactly when a pipe of that size is
    drawn, and the row is the sum of the lengths of those pipes: the row
    [getSummary] of [src/unnamed/part_002] shows for that size. *)
Theorem AppV2_getSummary_totals (s : AppState R) (size : PipeSize) :
  record_get PipeSize_eqb (HandlersV2.getSummary s) size =
  match lengthsOf size (edges s) with
  | [] => None
  | ls => Some (fold_left Rplus ls 0%R)
  end /\
  (lengthsOf size (edges s) <> [] ->
   record_get PipeSize_eqb (HandlersV2.getSummary s) size =
   record_get PipeSize_eqb
     (HandlersV1.pipeTotals (HandlersV1.getSummary s)) size).
Proof.
  assert (Hrow : record_get PipeSize_eqb (HandlersV2.getSummary s) size =
                 match lengthsOf size (edges s) with
                 | [] => None
                 | ls => Some (fold_left Rplus ls 0%R)
                 end).
  { unfold HandlersV2.getSummary. rewrite runningTotal_fold.
    exact (real_runningTotal (lengthsOf size (edges s))). }
  split; [exact Hrow|]. intros Hne. rewrite Hrow.
  destruct (V1_pipeTotals_rows s) as [_ ->].
  cbn [add lit real_number]. rewrite real_lit_zero.
  now destruct (lengthsOf size (edges s)).
Qed.

(** ** The list of violations *)

Section ViolationFacts.
Context {num : Type} `{JSNumber num}.
Local Open Scope js_scope.

(** The entries of the verdict map of [src/unnamed/part_002] are the
    verdicts of the pipes. *)
Lemma AppV1_entry_inv (depth : nat) (s s' : AppState num) (k : string)
    (vd : Verdict num) :
  AppV1.validateSystem depth s = Some s' ->
  List.NoDup (map edge_id (edges s)) ->
  validation s' !! k = Some vd ->
  exists E f, In E (edges s) /\ edge_id E = k /\
              getFlow (nodes s) (edges s) depth k = Some f /\
              vd = verdictV1 s E f.
Proof.
  intros Hs HND Hk.
  assert (Hin : k ∈ dom (validation s')) by (apply elem_of_dom; eauto).
  rewrite (pass_dom AppV1.validateEdge AppV1.validateSystem verdictV1
             AppV1_validateSystem_eq AppV1_validateEdge_verdict depth s s' Hs),
    elem_of_list_to_set, list_elem_of_In, in_map_iff in Hin.
  destruct Hin as (E & <- & Hin).
  destruct (pass_entry_NoDup AppV1.validateEdge AppV1.validateSystem
              verdictV1 AppV1_validateSystem_eq AppV1_validateEdge_verdict
              depth s s' E Hs HND Hin) as (f & Hf & Hv).
  exists E, f. repeat split; try assumption. congruence.
Qed.
End ViolationFacts.

(** X14: the violation list of [src/unnamed/part_002].  After a pass over a
    network with unique pipe ids, [violations] holds exactly the entries of
    the pipes that fail a check -- the flow exceeds the capacity, or the pipe
    is larger than its feeder --, each with a message to show; it is empty
    exactly when every pipe passes both checks. *)
Theorem violations_are_failed_checks
    {num : Type} `{JSNumber num} (depth : nat) (s s' : AppState num) :
  AppV1.validateSystem depth s = Some s' ->
  List.NoDup (map edge_id (edges s)) ->
  (forall k vd,
     HandlersV1.violations s' !! k = Some vd <->
     exists E, In E (edges s) /\ edge_id E = k /\
               validation s' !! k = Some vd /\
               (gt (flow vd) (capacity vd) = true \/
                oversized (edges s) E = true)) /\
  (forall k vd, HandlersV1.violations s' !! k = Some vd -> error vd <> None) /\
  (HandlersV1.violations s' = ∅ <->
   forall E, In E (edges s) ->
     exists vd, validation s' !! edge_id E = Some vd /\
                gt (flow vd) (capacity vd) = false /\
                oversized (edges s) E = false).
Proof.
  intros Hs HND.
  assert (Hfail : forall E f,
            isValid (verdictV1 s E f) = false <->
            gt (flow (verdictV1 s E f)) (capacity (verdictV1 s E f)) = true \/
            oversized (edges s) E = true).
  { intros E f. destruct (verdictV1_isValid s E f) as [-> _].
    rewrite andb_false_iff, !negb_false_iff. reflexivity. }
  assert (Hentry : forall E, In E (edges s) ->
            exists f, validation s' !! edge_id E = Some (verdictV1 s E f)).
  { intros E Hin.
    destruct (pass_entry_NoDup AppV1.validateEdge AppV1.validateSystem
                verdictV1 AppV1_validateSystem_eq AppV1_validateEdge_verdict
                depth s s' E Hs HND Hin) as (f & _ & Hv). eauto. }
  split; [|split].
  - intros k vd. unfold HandlersV1.violations.
    rewrite map_lookup_filter_Some. simpl. split.
    + intros [Hk Hv].
      destruct (AppV1_entry_inv depth s s' k vd Hs HND Hk)
        as (E & f & Hin & Hid & _ & ->).
      exists E. repeat split; try assumption. now apply Hfail.
    + intros (E & Hin & <- & Hk & Hv). split; [exact Hk|].
      destruct (Hentry E Hin) as (f & Hf). rewrite Hf in Hk.
      injection Hk as <-. now apply Hfail.
  - intros k vd. unfold HandlersV1.violations.
    rewrite map_lookup_filter_Some. simpl. intros [Hk Hv] Herr.
    destruct (AppV1_entry_inv depth s s' k vd Hs HND Hk)
      as (E & f & _ & _ & _ & ->).
    destruct (verdictV1_isValid s E f) as [_ Hiff].
    apply Hiff in Herr. congruence.
  - unfold HandlersV1.violations. rewrite map_empty_filter, map_Forall_lookup.
    simpl. split.
    + intros Hall E Hin. destruct (Hentry E Hin) as (f & Hf).
      exists (verdictV1 s E f). split; [exact Hf|].
      specialize (Hall _ _ Hf).
      destruct (gt (flow (verdictV1 s E f)) (capacity (verdictV1 s E f)))
        eqn:Hg.
      * exfalso. apply Hall, Hfail. now left.
      * split; [reflexivity|].
        destruct (oversized (edges s) E) eqn:Ho; [|reflexivity].
        exfalso. apply Hall, Hfail. now right.
    + intros Hall k vd Hk Hv.
      destruct (AppV1_entry_inv depth s s' k vd Hs HND Hk)
        as (E & f & Hin & <- & _ & ->).
      destruct (Hall E Hin) as (vd & Hvd & Hg & Ho).
      rewrite Hk in Hvd. injection Hvd as <-.
      apply Hfail in Hv as [Hv | Hv]; congruence.
Qed.

Lemma violations_are_failed_checks_witness :
  let S := Samples.oversized_branch in
  exists s',
    AppV1.validateSystem 3 S = Some s' /\
    (exists vd, HandlersV1.violations s' !! "e2" = Some vd) /\
    forall k vd, HandlersV1.violations s' !! k = Some vd -> error vd <> None.
Proof.
  intros S.
  destruct (AppV1.validateSystem 3 S) as [s'|] eqn:Hs;
    [|vm_compute in Hs; discriminate Hs].
  assert (HND : List.NoDup (map edge_id (edges S))).
  { simpl. repeat constructor; simpl; intuition discriminate. }
  destruct (@violations_are_failed_checks float float_number 3 S s' Hs HND)
    as (Hiff & Herr & _).
  exists s'. split; [reflexivity|]. split; [|exact Herr].
  destruct (AppV1_isValid_iff 3 S s' (Samples.pipe "e2" "J" "A"
                                         THREE_QUARTERS 10) Hs HND)
    as (vd & Hvd & _); [simpl; tauto|].
  exists vd. apply Hiff.
  exists (Samples.pipe "e2" "J" "A" THREE_QUARTERS 10).
  split; [simpl; tauto|]. split; [reflexivity|]. split; [exact Hvd|].
  right. vm_compute. reflexivity.
Defined.

(** ** The list of recent projects *)

Section RecentFacts.
Context {num : Type} `{JSNumber num}.

Lemma NoDup_firstn {A : Type} (n : nat) (l : list A) :
  List.NoDup l -> List.NoDup (firstn n l).
Proof.
  intros HND. rewrite <- (firstn_skipn n l) in HND.
  now apply NoDup_app_remove_r in HND.
Qed.

Lemma In_firstn {A : Type} (n : nat) (l : list A) (x : A) :
  In x (firstn n l) -> In x l.
Proof.
  intros Hin. rewrite <- (firstn_skipn n l). apply in_or_app. now left.
Qed.

Lemma filter_all {A : Type} (p : A -> bool) (l : list A) :
  (forall x, In x l -> p x = true) -> List.filter p l = l.
Proof.
  induction l as [|a l IH]; intros Hall; [reflexivity|].
  simpl. rewrite (Hall a (or_introl eq_refl)). f_equal.
  apply IH. intros x Hx. apply Hall. now right.
Qed.

(** The list [saveToStorage] leaves: the saved project, then up to 14 of
    the others. *)
Lemma saveToStorage_list (now : num) (id name : string)
    (p : HandlersV2.Project num) :
  exists q,
    HandlersV2.recentProjects (HandlersV2.saveToStorage now id name p) =
      q :: firstn 14
             (List.filter
                (fun r => negb (String.eqb (HandlersV2.recent_id r) id))
                (HandlersV2.recentProjects p)) /\
    HandlersV2.recent_id q = id /\ HandlersV2.recent_name q = name /\
    HandlersV2.data_nodes q = nodes (HandlersV2.app p) /\
    HandlersV2.data_edges q = edges (HandlersV2.app p) /\
    HandlersV2.data_pressureDrop q = pressureDrop (HandlersV2.app p).
Proof. eexists. split; [reflexivity|]. repeat split. Qed.

(** After [handleSave] the project has an id, and it is not the empty
    string unless the id drawn was. *)
Lemma handleSave_id (now : num) (newId : string)
    (p : HandlersV2.Project num) :
  exists id,
    HandlersV2.currentProjectId (HandlersV2.handleSave now newId p) = Some id
    /\ HandlersV2.recentProjects (HandlersV2.handleSave now newId p) =
       HandlersV2.recentProjects
         (HandlersV2.saveToStorage now id (HandlersV2.projectName p) p) /\
    HandlersV2.app (HandlersV2.handleSave now newId p) = HandlersV2.app p /\
    HandlersV2.projectName (HandlersV2.handleSave now newId p) =
      HandlersV2.projectName p /\
    (newId <> "" -> id <> "").
Proof.
  unfold HandlersV2.handleSave, HandlersV2.unsaved.
  destruct (HandlersV2.currentProjectId p) as [i|] eqn:Hc.
  - destruct (String.eqb i "") eqn:Hi.
    + exists newId. repeat split. auto.
    + exists i. simpl. rewrite Hc. repeat split.
      intros _. now apply String.eqb_neq.
  - exists newId. repeat split. auto.
Qed.
End RecentFacts.

(** X15: the list of recent projects stays short and free of duplicates.
    After [saveToStorage] the list has at most 15 entries and starts with
    the saved project; if the ids were unique they still are, so the saved
    project is the only entry with its id; the other entries are entries the
    list had, and none is lost while the list had fewer than 15. *)
Theorem saveToStorage_recents
    {num : Type} `{JSNumber num} (now : num) (id name : string)
    (p : HandlersV2.Project num) :
  List.NoDup (map HandlersV2.recent_id (HandlersV2.recentProjects p)) ->
  let l := HandlersV2.recentProjects
             (HandlersV2.saveToStorage now id name p) in
  (length l <= 15)%nat /\
  List.NoDup (map HandlersV2.recent_id l) /\
  (exists q rest, l = q :: rest /\ HandlersV2.recent_id q = id /\
                  HandlersV2.recent_name q = name) /\
  (forall r, In r l -> HandlersV2.recent_id r <> id ->
             In r (HandlersV2.recentProjects p)) /\
  ((length (HandlersV2.recentProjects p) < 15)%nat ->
   forall r, In r (HandlersV2.recentProjects p) ->
             HandlersV2.recent_id r <> id -> In r l).
Proof.
  intros HND l.
  destruct (saveToStorage_list now id name p) as (q & Hl & Hid & Hname & _).
  fold l in Hl.
  set (others := List.filter
                   (fun r => negb (String.eqb (HandlersV2.recent_id r) id))
                   (HandlersV2.recentProjects p)) in *.
  split; [|split; [|split; [|split]]].
  - rewrite Hl. simpl. pose proof (firstn_le_length 14 others). lia.
  - rewrite Hl. simpl. constructor.
    + intros Hin. apply in_map_iff in Hin as (r & Hr & Hin).
      apply In_firstn, filter_In in Hin as [_ Hne].
      apply negb_true_iff, String.eqb_neq in Hne. congruence.
    + rewrite <- firstn_map. apply NoDup_firstn.
      now apply NoDup_map_filter.
  - exists q, (firstn 14 others). auto.
  - rewrite Hl. intros r [<- | Hin] Hne; [contradiction|].
    now apply In_firstn, filter_In in Hin as [Hin _].
  - intros Hlen r Hin Hne. rewrite Hl. right.
    rewrite firstn_all2.
    + apply filter_In. split; [exact Hin|].
      now apply negb_true_iff, String.eqb_neq.
    + pose proof (filter_length_le
                    (fun r => negb (String.eqb (HandlersV2.recent_id r) id))
                    (HandlersV2.recentProjects p)) as Hfl.
      fold others in Hfl. lia.
Qed.

Lemma saveToStorage_recents_witness :
  let old : HandlersV2.RecentProject float :=
    {| HandlersV2.recent_id := "p1"; HandlersV2.recent_name := "House";
       HandlersV2.timestamp := 1%float; HandlersV2.nodeCount := 0;
       HandlersV2.pipeCount := 0; HandlersV2.data_nodes := [];
       HandlersV2.data_edges := []; HandlersV2.data_pressureDrop := 0.5%float
    |} in
  let p : HandlersV2.Project float :=
    {| HandlersV2.app := Samples.oversized_branch;
       HandlersV2.view := HandlersV2.designer;
       HandlersV2.projectName := "House";
       HandlersV2.currentProjectId := Some "p1";
       HandlersV2.recentProjects := [old] |} in
  let l := HandlersV2.recentProjects
             (HandlersV2.saveToStorage 2%float "p1" "House" p) in
  length l = 1%nat /\ List.NoDup (map HandlersV2.recent_id l).
Proof.
  intros old p l. split; [reflexivity|].
  apply (@saveToStorage_recents float float_number 2%float "p1" "House" p).
  simpl. repeat constructor. simpl. tauto.
Defined.

(** X16: saving and opening is a round trip.  After [handleSave] the
    project has an id; the entry found under that id in the list of recent
    projects is the one just written, and opening it -- from whatever state
    the component is in by then -- brings back the nodes, the pipes, the
    pressure drop and the name that were saved, under the same id. *)
Theorem save_then_open
    {num : Type} `{JSNumber num} (now : num) (newId : string)
    (p later : HandlersV2.Project num) :
  let p' := HandlersV2.handleSave now newId p in
  exists id q,
    HandlersV2.currentProjectId p' = Some id /\
    List.find (fun r => String.eqb (HandlersV2.recent_id r) id)
              (HandlersV2.recentProjects p') = Some q /\
    HandlersV2.nodeCount q = length (nodes (HandlersV2.app p)) /\
    HandlersV2.pipeCount q = length (edges (HandlersV2.app p)) /\
    sameSnapshot (HandlersV2.app (HandlersV2.openRecent q later))
                 (HandlersV2.app p) /\
    HandlersV2.projectName (HandlersV2.openRecent q later) =
      HandlersV2.projectName p /\
    HandlersV2.currentProjectId (HandlersV2.openRecent q later) = Some id.
Proof.
  intros p'. subst p'.
  destruct (handleSave_id now newId p) as (id & Hc & Hr & _).
  exists id. eexists. split; [exact Hc|]. rewrite Hr.
  unfold HandlersV2.saveToStorage. simpl. rewrite String.eqb_refl.
  split; [reflexivity|]. repeat split.
Qed.

(** X17: saving twice does not duplicate the project.  When the id drawn
    for the first [handleSave] is not the empty string, a second
    [handleSave] keeps the project id and replaces the first entry of the
    list of recent projects: the entries behind it, and the ids in the list,
    are the same as after the first. *)
Theorem handleSave_twice
    {num : Type} `{JSNumber num} (t1 t2 : num) (newId1 newId2 : string)
    (p : HandlersV2.Project num) :
  newId1 <> "" ->
  let p1 := HandlersV2.handleSave t1 newId1 p in
  let p2 := HandlersV2.handleSave t2 newId2 p1 in
  HandlersV2.currentProjectId p2 = HandlersV2.currentProjectId p1 /\
  map HandlersV2.recent_id (HandlersV2.recentProjects p2) =
    map HandlersV2.recent_id (HandlersV2.recentProjects p1) /\
  tl (HandlersV2.recentProjects p2) = tl (HandlersV2.recentProjects p1).
Proof.
  intros Hnew p1 p2.
  destruct (handleSave_id t1 newId1 p) as (id & Hc1 & Hr1 & _ & Hn1 & Hid).
  fold p1 in Hc1, Hr1, Hn1. specialize (Hid Hnew).
  destruct (saveToStorage_list t1 id (HandlersV2.projectName p) p)
    as (q1 & Hl1 & Hq1 & _).
  rewrite <- Hr1 in Hl1.
  assert (Hp2 : p2 = HandlersV2.saveToStorage t2 id
                       (HandlersV2.projectName p1) p1).
  { unfold p2, HandlersV2.handleSave, HandlersV2.unsaved. rewrite Hc1.
    apply String.eqb_neq in Hid. now rewrite Hid. }
  destruct (saveToStorage_list t2 id (HandlersV2.projectName p1) p1)
    as (q2 & Hl2 & Hq2 & _).
  rewrite <- Hp2 in Hl2.
  set (others := List.filter
                   (fun r => negb (String.eqb (HandlersV2.recent_id r) id))
                   (HandlersV2.recentProjects p)) in *.
  assert (Hsame : firstn 14
                    (List.filter
                       (fun r => negb (String.eqb (HandlersV2.recent_id r) id))
                       (HandlersV2.recentProjects p1)) = firstn 14 others).
  { rewrite Hl1. simpl. rewrite Hq1, String.eqb_refl. simpl.
    rewrite filter_all.
    - rewrite firstn_firstn. reflexivity.
    - intros r Hin. now apply In_firstn, filter_In in Hin as [_ Hr]. }
  rewrite Hsame in Hl2.
  split; [|split].
  - rewrite Hp2. simpl. reflexivity.
  - rewrite Hl1, Hl2. simpl. now rewrite Hq1, Hq2.
  - now rewrite Hl1, Hl2.
Qed.

Lemma handleSave_twice_witness :
  let p : HandlersV2.Project float :=
    {| HandlersV2.app := Samples.oversized_branch;
       HandlersV2.view := HandlersV2.designer;
       HandlersV2.projectName := "House";
       HandlersV2.currentProjectId := None;
       HandlersV2.recentProjects := [] |} in
  let p1 := HandlersV2.handleSave 1%float "k3x9" p in
  let p2 := HandlersV2.handleSave 2%float "q7w1" p1 in
  HandlersV2.currentProjectId p2 = Some "k3x9" /\
  map HandlersV2.recent_id (HandlersV2.recentProjects p2) = ["k3x9"].
Proof.
  intros p p1 p2.
  destruct (@handleSave_twice float float_number 1%float 2%float
              "k3x9" "q7w1" p) as (Hc & Hids & _); [discriminate|].
  fold p1 in Hc, Hids. fold p2 in Hc, Hids. split.
  - rewrite Hc. reflexivity.
  - rewrite Hids. reflexivity.
Defined.

(** ** The canvas *)

(** X18: the canvas of [src/unnamed/part_002] shows the failed checks.
    After a pass over a network with unique pipe ids, a pipe that joins two
    nodes of the network is drawn, with the verdict of the pass and not the
    default one, and it is drawn in the error colour exactly when its flow
    exceeds its capacity or it is larger than its feeder. *)
Theorem renderPipe_shows_failed_checks
    {num : Type} `{JSNumber num} (depth : nat) (s s' : AppState num)
    (E : AppEdge num) :
  AppV1.validateSystem depth s = Some s' ->
  List.NoDup (map edge_id (edges s)) ->
  In E (edges s) ->
  In (edge_from E) (map node_id (nodes s)) ->
  In (edge_to E) (map node_id (nodes s)) ->
  exists st vd,
    CanvasV1.renderPipe s' E = Some st /\
    validation s' !! edge_id E = Some vd /\
    (CanvasV1.strokeColor st = CanvasV1.COLORS_ERROR <->
     gt (flow vd) (capacity vd) = true \/ oversized (edges s) E = true).
Proof.
  intros Hs HND Hin Hfrom Hto.
  destruct (pass_frame AppV1.validateEdge AppV1.validateSystem
              AppV1_validateSystem_eq depth s s' Hs) as (Hn & _).
  destruct (pass_entry_NoDup AppV1.validateEdge AppV1.validateSystem
              verdictV1 AppV1_validateSystem_eq AppV1_validateEdge_verdict
              depth s s' E Hs HND Hin) as (f & _ & Hv).
  apply lookupNode_In in Hfrom, Hto. unfold lookupNode in Hfrom, Hto.
  unfold CanvasV1.renderPipe. rewrite Hn, Hv.
  destruct (List.find _ (nodes s)) as [from|]; [|contradiction].
  destruct (List.find _ (nodes s)) as [to|]; [|contradiction].
  eexists. exists (verdictV1 s E f). split; [reflexivity|].
  split; [reflexivity|]. cbn [default from_option Datatypes.id CanvasV1.strokeColor].
  destruct (verdictV1_isValid s E f) as [Hval _]. cbv zeta in Hval.
  destruct (isValid (verdictV1 s E f)) eqn:Hok.
  - symmetry in Hval. apply andb_true_iff in Hval as [Hg Ho].
    apply negb_true_iff in Hg, Ho. split.
    + unfold CanvasV1.COLORS_PIPE, CanvasV1.COLORS_ERROR.
      destruct (selectedId s') as [i|]; [destruct (String.eqb i _)|];
        discriminate.
    + intros [Hg' | Ho']; congruence.
  - split; [|reflexivity]. intros _.
    symmetry in Hval. apply andb_false_iff in Hval as [Hg | Ho];
      apply negb_false_iff in Hg || apply negb_false_iff in Ho; auto.
Qed.

Lemma renderPipe_shows_failed_checks_witness :
  let S := Samples.oversized_branch in
  let E := Samples.pipe "e2" "J" "A" THREE_QUARTERS 10 in
  exists s' st,
    AppV1.validateSystem 3 S = Some s' /\
    CanvasV1.renderPipe s' E = Some st /\
    CanvasV1.strokeColor st = CanvasV1.COLORS_ERROR.
Proof.
  intros S E.
  destruct (AppV1.validateSystem 3 S) as [s'|] eqn:Hs;
    [|vm_compute in Hs; discriminate Hs].
  destruct (@renderPipe_shows_failed_checks float float_number 3 S s' E Hs)
    as (st & vd & Hst & _ & Hcol).
  - simpl. repeat constructor; simpl; intuition discriminate.
  - simpl. tauto.
  - simpl. tauto.
  - simpl. tauto.
  - exists s', st. split; [reflexivity|]. split; [exact Hst|].
    apply Hcol. right. vm_compute. reflexivity.
Defined.

(** X19: the supply shown at a meter.  After a pass over a network with
    unique pipe ids, [totalSupplied] of a meter is the sum, from 0 and in the
    order of the pipes, of the flows [getFlow] returned for the pipes that
    leave the meter, a flow that is [NaN] counting as 0. *)
Theorem totalSupplied_sums_flows
    {num : Type} `{JSNumber num} (depth : nat) (s s' : AppState num)
    (M : AppNode num) :
  AppV1.validateSystem depth s = Some s' ->
  List.NoDup (map edge_id (edges s)) ->
  node_type M = METER ->
  exists fs,
    Forall2 (fun out f =>
               getFlow (nodes s) (edges s) depth (edge_id out) = Some f)
            (outbound (edges s) (node_id M)) fs /\
    CanvasV1.totalSupplied s' M =
      fold_left (fun acc f => add acc (orZero (Some f))) fs (lit 0).
Proof.
  intros Hs HND HM.
  destruct (pass_frame AppV1.validateEdge AppV1.validateSystem
              AppV1_validateSystem_eq depth s s' Hs) as (_ & He & _).
  unfold CanvasV1.totalSupplied. rewrite HM, He. cbn [NodeType_eqb].
  fold (outbound (edges s) (node_id M)).
  assert (Hsub : incl (outbound (edges s) (node_id M)) (edges s))
    by apply incl_filter.
  revert Hsub. generalize (lit 0). generalize (outbound (edges s) (node_id M)).
  induction l as [|out l IH]; intros acc Hsub.
  - exists []. split; [constructor | reflexivity].
  - destruct (pass_entry_NoDup AppV1.validateEdge AppV1.validateSystem
                verdictV1 AppV1_validateSystem_eq AppV1_validateEdge_verdict
                depth s s' out Hs HND (Hsub out (or_introl eq_refl)))
      as (f & Hf & Hv).
    destruct (IH (add acc (orZero (Some f)))) as (fs & HF & Hsum).
    { intros e Hin. apply Hsub. now right. }
    exists (f :: fs). split; [now constructor|].
    simpl. rewrite Hv. exact Hsum.
Qed.

Lemma totalSupplied_sums_flows_witness :
  let S := Samples.oversized_branch in
  exists s',
    AppV1.validateSystem 3 S = Some s' /\
    CanvasV1.totalSupplied s' (Samples.node "M" METER 0) = 40000%float.
Proof.
  intros S.
  destruct (AppV1.validateSystem 3 S) as [s'|] eqn:Hs;
    [|vm_compute in Hs; discriminate Hs].
  exists s'. split; [reflexivity|].
  destruct (@totalSupplied_sums_flows float float_number 3 S s'
              (Samples.node "M" METER 0) Hs) as (fs & HF & ->).
  - simpl. repeat constructor; simpl; intuition discriminate.
  - reflexivity.
  - inversion HF as [|out f l fs' Hf HF' Hout Hfs]. subst.
    inversion HF'. subst. vm_compute in Hf. injection Hf as <-.
    vm_compute. reflexivity.
Defined.

(** ** More on the capacity in exact arithmetic *)

Section RealCapacityMore.
Local Open Scope R_scope.

Lemma real_capacity_V1 (d L : R) (size : PipeSize) :
  0 < L ->
  @AppV1.calculateCapacity R real_number d size L =
  @AppV2.calculateCapacity R real_number d size L.
Proof.
  intros HL. unfold AppV1.calculateCapacity, AppV2.calculateCapacity,
    PIPE_SPECS. cbv beta iota. cbn [le lit real_number].
  rewrite real_lit_zero. destruct (Rle_dec L 0); [lra | reflexivity].
Qed.
End RealCapacityMore.

(** X20: in exact arithmetic the capacity does not shrink when the allowed
    pressure drop grows: for a length [> 0] and drops [0 <= d1 <= d2],
    [calculateCapacity] (either component) at [d1] is at most
    [calculateCapacity] at [d2]. *)
Theorem real_capacity_drop_mono (d1 d2 L : R) (size : PipeSize) :
  (0 <= d1 <= d2)%R -> (0 < L)%R ->
  (@AppV1.calculateCapacity R real_number d1 size L <=
   @AppV1.calculateCapacity R real_number d2 size L)%R /\
  (@AppV2.calculateCapacity R real_number d1 size L <=
   @AppV2.calculateCapacity R real_number d2 size L)%R.
Proof.
  intros [H1 H12] HL. rewrite !real_capacity_V1 by exact HL.
  assert (Hle : (@AppV2.calculateCapacity R real_number d1 size L <=
                 @AppV2.calculateCapacity R real_number d2 size L)%R).
  { destruct H1 as [H1 | <-].
    - rewrite !real_capacity by lra.
      apply Rmult_le_compat_r; [lra|]. apply IZR_le, Int_part_mono.
      unfold cfhR. pose proof (cR_pos size).
      apply Rle_Rpower_l; [left; apply inv_eR_pos|].
      split; [apply ratio_pos; lra|].
      unfold Rdiv. apply Rmult_le_compat_r;
        [left; now apply Rinv_0_lt_compat|].
      apply Rmult_le_compat_r; [|exact H12].
      left. now apply Rinv_0_lt_compat.
    - rewrite real_capacity_zero_drop by lra.
      destruct H12 as [H2 | <-].
      + rewrite real_capacity by lra.
        apply Rmult_le_compat_r; [lra|]. apply IZR_le, Int_part_mono.
        left. apply cfhR_pos.
      + rewrite real_capacity_zero_drop by lra. lra. }
  split; exact Hle.
Qed.

Lemma real_capacity_drop_mono_witness :
  (@AppV2.calculateCapacity R real_number (1 / 4) HALF 10 <=
   @AppV2.calculateCapacity R real_number (1 / 2) HALF 10)%R.
Proof.
  apply (real_capacity_drop_mono (1 / 4) (1 / 2) 10 HALF); lra.
Defined.

(** ** Flows in exact arithmetic *)

Section RealFlow.
Local Open Scope R_scope.
Variable ns : list (AppNode R).
Variable es : list (AppEdge R).

Lemma real_ownDemand (n : AppNode R) :
  @ownDemand R real_number n =
  if NodeType_eqb (node_type n) APPLIANCE then node_btu n else 0.
Proof.
  unfold ownDemand. cbn [add lit real_number]. rewrite real_lit_zero.
  destruct (NodeType_eqb _ _); lra.
Qed.

Lemma fold_Rplus_ge (fs : list R) (init : R) :
  Forall (fun f => 0 <= f) fs ->
  init <= fold_left Rplus fs init /\
  forall f, In f fs -> init + f <= fold_left Rplus fs init.
Proof.
  revert init. induction fs as [|g fs IH]; intros init HF.
  - split; [simpl; lra | intros f []].
  - inversion HF as [|? ? Hg HF']; subst. simpl.
    destruct (IH (init + g) HF') as [H1 H2]. split; [lra|].
    intros f [<- | Hin]; [exact H1|]. specialize (H2 f Hin). lra.
Qed.

Hypothesis demand_nonneg : forall n, In n ns -> 0 <= node_btu n.

Lemma real_flow_nonneg (depth : nat) (a : string) (v : R) :
  getFlow ns es depth a = Some v -> 0 <= v.
Proof using demand_nonneg.
  revert a v. induction depth as [|depth IH]; intros a v Hv; [discriminate|].
  rewrite getFlow_unfold in Hv.
  destruct (lookupEdge es a) as [E|].
  2:{ injection Hv as <-. cbn [lit real_number]. rewrite real_lit_zero. lra. }
  destruct (lookupNode ns (edge_to E)) as [T|] eqn:HT.
  2:{ injection Hv as <-. cbn [lit real_number]. rewrite real_lit_zero. lra. }
  apply forEach_addFlow_Some in Hv as (fs & HF & ->).
  assert (Hfs : Forall (fun f => 0 <= f) fs).
  { clear -HF IH. induction HF as [|out f l fs Hf _ IHF]; constructor;
      [now apply (IH (edge_id out)) | exact IHF]. }
  destruct (fold_Rplus_ge fs (ownDemand T) Hfs) as [Hge _].
  cbn [add real_number].
  assert (Hown : 0 <= @ownDemand R real_number T).
  { rewrite real_ownDemand. destruct (NodeType_eqb _ _); [|lra].
    apply demand_nonneg. apply find_some in HT. tauto. }
  lra.
Qed.
End RealFlow.

(** X22: in exact arithmetic, with demands [>= 0], no flow is negative, and
    a pipe carries at least as much as each pipe that leaves the node it
    ends at. *)
Theorem real_flow_bounds
    (ns : list (AppNode R)) (es : list (AppEdge R)) (depth : nat)
    (a : string) (v : R) :
  (forall n, In n ns -> (0 <= node_btu n)%R) ->
  getFlow ns es depth a = Some v ->
  (0 <= v)%R /\
  forall E T out f,
    lookupEdge es a = Some E -> lookupNode ns (edge_to E) = Some T ->
    In out (outbound es (node_id T)) ->
    getFlow ns es depth (edge_id out) = Some f ->
    (f <= v)%R.
Proof.
  intros Hpos Hv. split; [now apply (real_flow_nonneg ns es Hpos depth a)|].
  intros E T out f HE HT Hout Hf.
  destruct depth as [|depth]; [discriminate|].
  rewrite getFlow_unfold, HE, HT in Hv.
  apply forEach_addFlow_Some in Hv as (fs & HF & ->).
  assert (Hfs : Forall (fun f => (0 <= f)%R) fs).
  { clear -HF Hpos. induction HF as [|o g l fs Hg _ IHF]; constructor;
      [now apply (real_flow_nonneg ns es Hpos depth (edge_id o)) | exact IHF]. }
  assert (Hin : In f fs).
  { clear -HF Hout Hf. induction HF as [|o g l fs Hg _ IHF];
      [inversion Hout|].
    destruct Hout as [<- | Hout]; [|right; now apply IHF].
    left. apply (getFlow_mono ns es depth (S depth)) in Hg; [|lia].
    congruence. }
  destruct (fold_Rplus_ge fs (ownDemand T) Hfs) as [_ Hge].
  specialize (Hge f Hin). cbn [add real_number].
  assert (Hown : (0 <= @ownDemand R real_number T)%R).
  { rewrite real_ownDemand. destruct (NodeType_eqb _ _); [|lra].
    apply Hpos. apply find_some in HT. tauto. }
  lra.
Qed.

Lemma real_flow_bounds_witness :
  let ns : list (AppNode R) :=
    [{| node_id := "M"; node_type := METER; node_x := 0; node_y := 0;
        node_name := "Gas Meter"; node_btu := 0 |};
     {| node_id := "A"; node_type := APPLIANCE; node_x := 0; node_y := 0;
        node_name := "Dryer"; node_btu := 20000 |}]%R in
  let es : list (AppEdge R) :=
    [{| edge_id := "e1"; edge_from := "M"; edge_to := "A";
        edge_size := HALF; edge_length := 10%R |}] in
  exists v, getFlow ns es 2 "e1" = Some v /\ (0 <= v)%R.
Proof.
  intros ns es.
  destruct (getFlow ns es 2 "e1") as [v|] eqn:Hv; [|discriminate Hv].
  exists v. split; [reflexivity|].
  apply (real_flow_bounds ns es 2 "e1" v); [|exact Hv].
  intros n [<- | [<- | []]]; simpl; lra.
Defined.

(** ** The flow of a pipe is the demand below it *)

Section TreeFacts.
Context {num : Type}.
Variable es : list (AppEdge num).
Hypothesis single : forall x, (length (inbound es x) <= 1)%nat.
Hypothesis nocycle : noPipeCycle es.

Local Abbreviation below := (clos_refl_trans (AppEdge num) (continues es)).

Lemma inbound_unique (e e' : AppEdge num) :
  In e es -> In e' es -> edge_to e = edge_to e' -> e = e'.
Proof using single.
  intros He He' Hto. specialize (single (edge_to e)). unfold inbound in single.
  assert (H1 : In e (List.filter
                       (fun x => String.eqb (edge_to x) (edge_to e)) es)).
  { apply filter_In. split; [exact He | apply String.eqb_refl]. }
  assert (H2 : In e' (List.filter
                        (fun x => String.eqb (edge_to x) (edge_to e)) es)).
  { apply filter_In. split; [exact He' | now apply String.eqb_eq]. }
  destruct (List.filter _ es) as [|x [|y l]]; simpl in *; try lia;
    intuition congruence.
Qed.

Lemma below_In (a e : AppEdge num) : In a es -> below a e -> In e es.
Proof.
  intros Ha Hae. induction Hae as [x y (_ & Hy & _) | x | x y z _ IH1 _ IH2];
    auto.
Qed.

Lemma trans_below (x y z : AppEdge num) :
  clos_trans (AppEdge num) (continues es) x y -> below y z ->
  clos_trans (AppEdge num) (continues es) x z.
Proof.
  intros Hxy Hyz. induction Hyz as [y z Hyz | y | y w z _ IH1 _ IH2].
  - apply t_trans with y; [exact Hxy | now apply t_step].
  - exact Hxy.
  - auto.
Qed.

Lemma below_last (a b : AppEdge num) :
  below a b -> a = b \/ exists p, below a p /\ continues es p b.
Proof.
  intros Hab. apply clos_rt_rtn1 in Hab.
  destruct Hab as [|p b Hpb Hap]; [now left|].
  right. exists p. split; [now apply clos_rtn1_rt | exact Hpb].
Qed.

(** The pipes above a pipe form a chain. *)
Lemma below_linear (a b e : AppEdge num) :
  below a e -> below b e -> below a b \/ below b a.
Proof using single.
  intros Ha. apply clos_rt_rtn1 in Ha. revert b.
  induction Ha as [|y z Hyz Hay IH]; intros b Hb; [now right|].
  destruct (below_last b z Hb) as [-> | (p & Hbp & Hpz)].
  - left. apply rt_trans with y; [now apply clos_rtn1_rt | now apply rt_step].
  - assert (p = y) as ->.
    { destruct Hpz as (Hp & _ & Hpto), Hyz as (Hy & _ & Hyto).
      apply inbound_unique; congruence. }
    now apply IH.
Qed.

(** Two pipes that leave the end of a pipe have nothing below them in
    common. *)
Lemma branches_disjoint (E o o' e : AppEdge num) :
  continues es E o -> continues es E o' -> o <> o' ->
  below o e -> below o' e -> False.
Proof using single nocycle.
  intros HEo HEo' Hne Ho Ho'.
  assert (Hcyc : forall x y, continues es E x -> continues es E y -> x <> y ->
                             below x y -> False).
  { intros x y HEx HEy Hxy Hb.
    destruct (below_last x y Hb) as [-> | (p & Hxp & Hpy)];
      [now apply Hxy|].
    assert (p = E) as ->.
    { destruct Hpy as (Hp & _ & Hpto), HEy as (HE & _ & HEto).
      apply inbound_unique; congruence. }
    apply (nocycle E). apply trans_below with x; [now apply t_step | exact Hxp]. }
  destruct (below_linear o o' e Ho Ho') as [Hb | Hb].
  - exact (Hcyc o o' HEo HEo' Hne Hb).
  - apply (Hcyc o' o HEo' HEo); [congruence | exact Hb].
Qed.

(** The end of a pipe does not lie below the pipes that leave it. *)
Lemma end_not_below (E o e : AppEdge num) :
  continues es E o -> below o e -> edge_to e = edge_to E -> False.
Proof using single nocycle.
  intros HEo Hoe Hto.
  assert (e = E) as ->.
  { destruct HEo as (HE & Ho & _).
    apply inbound_unique; [now apply (below_In o) | exact HE | exact Hto]. }
  apply (nocycle E). apply trans_below with o; [now apply t_step | exact Hoe].
Qed.

Lemma downstream_below (E : AppEdge num) (x : string) :
  In E es -> downstream es (edge_to E) x ->
  exists e, below E e /\ edge_to e = x.
Proof.
  intros HE Hd. induction Hd as [|e0 _ (e & He & Hto) Hin].
  - exists E. split; [apply rt_refl | reflexivity].
  - exists e0. split; [|reflexivity].
    apply rt_trans with e; [exact He|]. apply rt_step.
    split; [now apply (below_In E)|]. split; assumption.
Qed.

Lemma downstream_first (a b : string) :
  downstream es a b ->
  a = b \/ exists o, In o es /\ edge_from o = a /\ downstream es (edge_to o) b.
Proof.
  induction 1 as [|e _ [-> | (o & Ho & Hfrom & Hd)] Hin]; [now left| |].
  - right. exists e. repeat split; [exact Hin | constructor].
  - right. exists o. repeat split; try assumption.
    now apply downstream_step.
Qed.
End TreeFacts.

Section DemandBelow.
Local Open Scope R_scope.
Variable ns : list (AppNode R).
Variable es : list (AppEdge R).
Hypothesis node_ids : List.NoDup (map node_id ns).
Hypothesis edge_ids : List.NoDup (map edge_id es).
Hypothesis ends_exist : attached ns es.
Hypothesis single : forall x, (length (inbound es x) <= 1)%nat.
Hypothesis nocycle : noPipeCycle es.

Lemma totalDemand_app (l1 l2 : list (AppNode R)) :
  totalDemand (l1 ++ l2) = totalDemand l1 + totalDemand l2.
Proof.
  unfold totalDemand. induction l1 as [|n l1 IH]; simpl; [lra|].
  rewrite IH. lra.
Qed.

Lemma NoDup_filter_edges (p : AppEdge R -> bool) :
  List.NoDup (List.filter p es).
Proof using edge_ids.
  apply NoDup_map_inv with (f := edge_id). now apply NoDup_map_filter.
Qed.

Lemma flow_is_demand_below (depth : nat) :
  forall E v, In E es -> getFlow ns es depth (edge_id E) = Some v ->
    exists l, appliancesBelow ns es (edge_to E) l /\ v = totalDemand l.
Proof using node_ids edge_ids ends_exist single nocycle.
  induction depth as [|depth IH]; intros E v HE Hv; [discriminate|].
  rewrite getFlow_unfold, (lookupEdge_NoDup es E edge_ids HE) in Hv.
  destruct (lookupNode ns (edge_to E)) as [T|] eqn:HT.
  2:{ exfalso. apply (lookupNode_In ns (edge_to E)); [|exact HT].
      now apply ends_exist. }
  pose proof (lookupNode_id ns _ _ HT) as HTid.
  assert (HTin : In T ns) by (apply find_some in HT; tauto).
  apply forEach_addFlow_Some in Hv as (fs & HF & ->).
  rewrite HTid in HF.
  (* the pipes that leave the end of [E], one after the other *)
  assert (Hbr : forall outs fs,
            List.NoDup outs -> incl outs (outbound es (edge_to E)) ->
            Forall2 (fun out f =>
                       getFlow ns es depth (edge_id out) = Some f) outs fs ->
            exists l,
              List.NoDup l /\
              (forall n, In n l <->
                 exists o, In o outs /\ In n ns /\ node_type n = APPLIANCE /\
                           downstream es (edge_to o) (node_id n)) /\
              forall init, fold_left Rplus fs init = init + totalDemand l).
  { clear HF fs. induction outs as [|o outs IHo]; intros fs HND Hsub HF.
    - inversion HF; subst. exists []. split; [constructor|].
      split; [|intros init; unfold totalDemand; simpl; lra].
      intros n. split; [intros [] | intros (o & [] & _)].
    - inversion HF as [|? f ? fs' Hf HF']; subst.
      inversion HND as [|? ? Hnotin HND']; subst.
      assert (Ho : In o es /\ edge_from o = edge_to E).
      { specialize (Hsub o (or_introl eq_refl)).
        apply filter_In in Hsub as [Hin Hfrom].
        now apply String.eqb_eq in Hfrom. }
      destruct Ho as [Ho Hfrom].
      destruct (IH o f Ho Hf) as (lo & [HNDo Hlo] & ->).
      destruct (IHo fs' HND') as (l & HNDl & Hl & Hsum);
        [intros x Hx; apply Hsub; now right | exact HF' |].
      exists (lo ++ l). split; [|split].
      + apply List.NoDup_app; try assumption.
        intros n Hn1 Hn2.
        apply Hlo in Hn1 as (_ & _ & Hd1).
        apply Hl in Hn2 as (o' & Ho' & _ & _ & Hd2).
        assert (Ho'' : In o' es /\ edge_from o' = edge_to E).
        { specialize (Hsub o' (or_intror Ho')).
          apply filter_In in Hsub as [Hin Hfrom'].
          now apply String.eqb_eq in Hfrom'. }
        destruct Ho'' as [Ho'in Hfrom'].
        destruct (downstream_below es o _ Ho Hd1) as (e1 & Hb1 & Hto1).
        destruct (downstream_below es o' _ Ho'in Hd2) as (e2 & Hb2 & Hto2).
        assert (e2 = e1) as ->.
        { apply (inbound_unique es single);
            [now apply (below_In es o') | now apply (below_In es o)
            | congruence]. }
        apply (branches_disjoint es single nocycle E o o' e1);
          [repeat split; congruence | repeat split; congruence
          | intros ->; contradiction | exact Hb1 | exact Hb2].
      + intros n. rewrite in_app_iff, Hlo, Hl. split.
        * intros [(Hn & Ht & Hd) | (o' & Ho' & Hr)].
          -- exists o. repeat split; auto. now left.
          -- exists o'. split; [now right | exact Hr].
        * intros (o' & [<- | Ho'] & Hn & Ht & Hd); [now left|].
          right. exists o'. auto.
      + intros init. simpl. rewrite Hsum, totalDemand_app. lra. }
  destruct (Hbr (outbound es (edge_to E)) fs) as (l & HNDl & Hl & Hsum);
    [apply NoDup_filter_edges | apply incl_refl | exact HF |].
  assert (Hbelow : forall n, In n l -> node_id n <> edge_to E).
  { intros n Hn Hid. apply Hl in Hn as (o & Ho & _ & _ & Hd).
    apply filter_In in Ho as [Ho Hfrom]. apply String.eqb_eq in Hfrom.
    destruct (downstream_below es o _ Ho Hd) as (e & Hb & Hto).
    apply (end_not_below es single nocycle E o e);
      [repeat split; congruence | exact Hb | congruence]. }
  assert (Hmem : forall n,
            In n ns -> node_type n = APPLIANCE ->
            downstream es (edge_to E) (node_id n) ->
            n = T \/ In n l).
  { intros n Hn Ht Hd.
    destruct (downstream_first es _ _ Hd) as [Heq | (o & Ho & Hfrom & Hd')].
    - left. pose proof (lookupNode_NoDup ns n node_ids Hn) as Hl'.
      rewrite <- Heq, HT in Hl'. congruence.
    - right. apply Hl. exists o. repeat split; try assumption.
      apply filter_In. split; [exact Ho | now apply String.eqb_eq]. }
  cbn [add real_number]. rewrite Hsum, real_ownDemand.
  destruct (NodeType_eqb (node_type T) APPLIANCE) eqn:Happ.
  - exists (T :: l). split; [split|].
    + constructor; [|exact HNDl]. intros Hin.
      now apply (Hbelow T Hin).
    + intros n. split.
      * intros [<- | Hn].
        -- split; [exact HTin|]. split.
           ++ destruct (node_type T); (reflexivity || discriminate).
           ++ rewrite HTid. constructor.
        -- apply Hl in Hn as (o & Ho & Hn & Ht & Hd).
           split; [exact Hn|]. split; [exact Ht|].
           apply filter_In in Ho as [Ho Hfrom]. apply String.eqb_eq in Hfrom.
           apply downstream_trans with (b := edge_to o); [|exact Hd].
           apply downstream_step; [|exact Ho]. rewrite Hfrom. constructor.
      * intros (Hn & Ht & Hd).
        destruct (Hmem n Hn Ht Hd) as [-> | Hin]; [now left | now right].
    + unfold totalDemand. simpl. reflexivity.
  - exists l. split; [split|].
    + exact HNDl.
    + intros n. split.
      * intros Hn. apply Hl in Hn as (o & Ho & Hn & Ht & Hd).
        split; [exact Hn|]. split; [exact Ht|].
        apply filter_In in Ho as [Ho Hfrom]. apply String.eqb_eq in Hfrom.
        apply downstream_trans with (b := edge_to o); [|exact Hd].
        apply downstream_step; [|exact Ho]. rewrite Hfrom. constructor.
      * intros (Hn & Ht & Hd).
        destruct (Hmem n Hn Ht Hd) as [-> | Hin]; [|exact Hin].
        rewrite Ht in Happ. discriminate.
    + lra.
Qed.
End DemandBelow.

(** A ranking of the pipes that grows along the pipes rules cycles out. *)
Lemma noPipeCycle_rank {num : Type} (es : list (AppEdge num))
    (level : AppEdge num -> nat) :
  (forall e1 e2, continues es e1 e2 -> (level e1 < level e2)%nat) ->
  noPipeCycle es.
Proof.
  intros Hup e He.
  assert (Hlt : forall x y, clos_trans (AppEdge num) (continues es) x y ->
                            (level x < level y)%nat).
  { intros x y Hxy. induction Hxy as [x y Hxy | x y z _ IH1 _ IH2];
      [now apply Hup | lia]. }
  specialize (Hlt e e He). lia.
Qed.

(** X23: the flow of a pipe is the demand below it.  In exact arithmetic,
    on a network with unique node and pipe ids whose pipes all join nodes of
    the network, with at most one inbound pipe per node and no cycle of
    pipes, what [getFlow] returns for a pipe is the sum of the demands of
    the appliances at or below the end of the pipe, each counted once. *)
Theorem flow_is_downstream_demand
    (ns : list (AppNode R)) (es : list (AppEdge R)) (depth : nat)
    (E : AppEdge R) (v : R) :
  List.NoDup (map node_id ns) -> List.NoDup (map edge_id es) ->
  attached ns es -> (forall x, (length (inbound es x) <= 1)%nat) ->
  noPipeCycle es ->
  In E es -> getFlow ns es depth (edge_id E) = Some v ->
  exists l, appliancesBelow ns es (edge_to E) l /\ v = totalDemand l.
Proof.
  intros Hn He Hat Hsingle Hno HE Hv.
  exact (flow_is_demand_below ns es Hn He Hat Hsingle Hno depth E v HE Hv).
Qed.

Lemma flow_is_downstream_demand_witness :
  let ns := RealPlans.tee_nodes in
  let es := RealPlans.tee_edges in
  exists v l,
    getFlow ns es 3 "e1" = Some v /\
    appliancesBelow ns es "J" l /\ v = totalDemand l.
Proof.
  intros ns es.
  destruct (getFlow ns es 3 "e1") as [v|] eqn:Hv; [|discriminate Hv].
  destruct (flow_is_downstream_demand ns es 3
              (RealPlans.pipe "e1" "M" "J" THREE_QUARTERS 10) v)
    as (l & Hl & Hsum).
  - simpl. repeat constructor; simpl; intuition discriminate.
  - simpl. repeat constructor; simpl; intuition discriminate.
  - intros e [<- | [<- | [<- | []]]]; simpl; tauto.
  - intros x. unfold inbound, es, RealPlans.tee_edges. cbn [List.filter].
    cbn [edge_to RealPlans.pipe].
    destruct (String.eqb "J" x) eqn:H1, (String.eqb "A1" x) eqn:H2,
             (String.eqb "A2" x) eqn:H3; simpl; try lia; exfalso;
      repeat match goal with
             | Hb : String.eqb _ _ = true |- _ => apply String.eqb_eq in Hb
             end; subst; discriminate.
  - apply noPipeCycle_rank
      with (level := fun e => if String.eqb (edge_id e) "e1" then O else 1%nat).
    intros e1 e2 (H1 & H2 & Hc).
    destruct H1 as [<- | [<- | [<- | []]]];
      destruct H2 as [<- | [<- | [<- | []]]];
      try discriminate Hc; simpl; lia.
  - simpl. tauto.
  - exact Hv.
  - exists v, l. split; [reflexivity|]. split; [exact Hl | exact Hsum].
Defined.

(** ** The two components side by side *)

(** X24: the component of [src/unnamed/part_002] is the component of
    [src/App.tsx] with the sizing-order check added.  In every number model,
    on a network with unique pipe ids and pipe lengths [> 0], when the pass
    of the first returns so does the pass of the second, and the two entries
    of every pipe carry the same flow and the same capacity.  The first
    holds the pipe valid when the flow is not [>] the capacity and the pipe
    is not larger than its feeder, the second when the flow is [<=] the
    capacity: wherever the two comparisons are complementary (neither
    number is NaN), the first holds the pipe valid exactly when the second
    does and the pipe is not larger than its feeder. *)
Theorem passes_agree
    {num : Type} `{JSNumber num} `{!JSNumberLaws num}
    (depth : nat) (s s1 : AppState num) :
  List.NoDup (map edge_id (edges s)) ->
  (forall e, In e (edges s) -> gt (edge_length e) (lit 0) = true) ->
  AppV1.validateSystem depth s = Some s1 ->
  exists s2,
    AppV2.validateSystem depth s = Some s2 /\
    forall E, In E (edges s) ->
      exists vd1 vd2,
        validation s1 !! edge_id E = Some vd1 /\
        validation s2 !! edge_id E = Some vd2 /\
        flow vd1 = flow vd2 /\ capacity vd1 = capacity vd2 /\
        isValid vd1 = negb (gt (flow vd1) (capacity vd1)) &&
                      negb (oversized (edges s) E) /\
        isValid vd2 = le (flow vd2) (capacity vd2) /\
        (gt (flow vd2) (capacity vd2) = negb (le (flow vd2) (capacity vd2)) ->
         isValid vd1 = isValid vd2 && negb (oversized (edges s) E)).
Proof.
  intros HND Hlen Hs1.
  destruct (pass_returns AppV2.validateEdge AppV2.validateSystem verdictV2
              AppV2_validateSystem_eq AppV2_validateEdge_verdict depth s)
    as [s2 Hs2].
  { intros e He.
    destruct (pass_entry AppV1.validateEdge AppV1.validateSystem verdictV1
                AppV1_validateSystem_eq AppV1_validateEdge_verdict
                depth s s1 e Hs1 He) as (_ & f & _ & _ & Hf & _).
    eauto. }
  exists s2. split; [exact Hs2|]. intros E HE.
  destruct (pass_entry_NoDup AppV1.validateEdge AppV1.validateSystem
              verdictV1 AppV1_validateSystem_eq AppV1_validateEdge_verdict
              depth s s1 E Hs1 HND HE) as (f1 & Hf1 & Hv1).
  destruct (pass_entry_NoDup AppV2.validateEdge AppV2.validateSystem
              verdictV2 AppV2_validateSystem_eq AppV2_validateEdge_verdict
              depth s s2 E Hs2 HND HE) as (f2 & Hf2 & Hv2).
  assert (f2 = f1) as -> by congruence.
  exists (verdictV1 s E f1), (verdictV2 s E f1).
  split; [exact Hv1|]. split; [exact Hv2|]. split; [reflexivity|].
  assert (Hcap : capacity (verdictV1 s E f1) = capacity (verdictV2 s E f1)).
  { simpl. unfold AppV1.calculateCapacity, AppV2.calculateCapacity.
    destruct (PIPE_SPECS (edge_size E)); [|reflexivity].
    now rewrite (gt_zero_not_le _ (Hlen E HE)). }
  split; [exact Hcap|].
  destruct (verdictV1_isValid s E f1) as [Hvalid _].
  split; [exact Hvalid|]. split; [reflexivity|].
  intros Hcompl. rewrite Hvalid, Hcap.
  change (flow (verdictV1 s E f1)) with (flow (verdictV2 s E f1)).
  rewrite Hcompl, negb_involutive. reflexivity.
Qed.

Lemma passes_agree_witness :
  let S := Samples.oversized_branch in
  let e2 := Samples.pipe "e2" "J" "A" THREE_QUARTERS 10 in
  exists s1 s2 vd1 vd2,
    AppV1.validateSystem 3 S = Some s1 /\
    AppV2.validateSystem 3 S = Some s2 /\
    validation s1 !! "e2" = Some vd1 /\
    validation s2 !! "e2" = Some vd2 /\
    oversized (edges S) e2 = true /\
    isValid vd1 = false /\ isValid vd2 = true.
Proof.
  intros S e2.
  assert (HND : List.NoDup (map edge_id (edges S))).
  { simpl. repeat constructor; simpl; intuition discriminate. }
  destruct (AppV1.validateSystem 3 S) as [s1|] eqn:Hs1;
    [|vm_compute in Hs1; discriminate Hs1].
  destruct (@passes_agree float float_number (float_number_laws _)
              3 S s1 HND) as (s2 & Hs2 & Hall).
  - intros e [<- | [<- | []]]; reflexivity.
  - exact Hs1.
  - destruct (Hall e2) as (vd1 & vd2 & Hv1 & Hv2 & _ & _ & _ & H2 & H12);
      [right; left; reflexivity|].
    exists s1, s2, vd1, vd2.
    split; [reflexivity|]. split; [exact Hs2|].
    split; [exact Hv1|]. split; [exact Hv2|].
    assert (Hover : oversized (edges S) e2 = true) by reflexivity.
    split; [exact Hover|].
    assert (Hvd2 : vd2 = verdictV2 S e2 (40000)%float).
    { vm_compute in Hs2. injection Hs2 as <-. vm_compute in Hv2.
      injection Hv2 as <-. vm_compute. reflexivity. }
    assert (Hval2 : isValid vd2 = true).
    { rewrite Hvd2. vm_compute. reflexivity. }
    split; [|exact Hval2].
    rewrite H12.
    + rewrite Hval2, Hover. reflexivity.
    + rewrite Hvd2. vm_compute. reflexivity.
Defined.

(** ** A negative pressure gradient in binary64 *)

Section NaNFacts.
Local Open Scope float_scope.

Lemma SFcompare_refl_finite (s : bool) (m : positive) (e : Z) :
  SFcompare (S754_finite s m e) (S754_finite s m e) = Some Eq.
Proof.
  simpl. rewrite Z.compare_refl.
  replace (PosDef.Pos.compare_cont Eq m m) with Eq
    by (symmetry; apply Pos.compare_cont_refl).
  now destruct s.
Qed.

(** A number that is [< 0] and not [-Infinity] is a negative finite
    number. *)
Lemma negative_finite (x : float) :
  (x <? 0) = true -> (neg_infinity <? x) = true ->
  exists m e, Prim2SF x = S754_finite true m e.
Proof.
  rewrite !FloatAxioms.ltb_spec.
  change (Prim2SF 0) with (S754_zero false).
  change (Prim2SF neg_infinity) with (S754_infinity true).
  unfold SFltb.
  destruct (Prim2SF x) as [s | [|] | | [|] m e]; simpl;
    try discriminate; try (destruct s; discriminate); eauto.
Qed.

Lemma is_nan_compare (c f : float) :
  is_nan c = true -> (c <? f) = false /\ (f <=? c) = false.
Proof.
  unfold is_nan.
  rewrite negb_true_iff, FloatAxioms.eqb_spec, FloatAxioms.ltb_spec,
    FloatAxioms.leb_spec.
  unfold SFeqb, SFltb, SFleb.
  destruct (Prim2SF c) as [s | s | | s m e].
  - simpl. discriminate.
  - destruct s; simpl; discriminate.
  - intros _. simpl. now destruct (Prim2SF f).
  - rewrite SFcompare_refl_finite. discriminate.
Qed.

(** [Math.pow] of a negative finite base and one of the exponents of the
    formula is [NaN], whatever the approximation. *)
Lemma exponentiate_negative (approx : float -> float -> float)
    (base : float) (size : PipeSize) :
  (base <? 0) = true -> (neg_infinity <? base) = true ->
  JSFloat.exponentiate approx base
    (JSFloat.of_Q 1 / @tableExponent float float_number size) = nan.
Proof.
  intros Hneg Hfin.
  destruct (negative_finite base Hneg Hfin) as (m & e & Hb).
  assert (Hnan : is_nan base = false).
  { unfold is_nan. rewrite FloatAxioms.eqb_spec, Hb. unfold SFeqb.
    now rewrite SFcompare_refl_finite. }
  assert (Hinf : (base =? infinity) = false).
  { rewrite FloatAxioms.eqb_spec, Hb. reflexivity. }
  assert (Hninf : (base =? neg_infinity) = false).
  { rewrite FloatAxioms.eqb_spec, Hb. reflexivity. }
  assert (Hzero : (base =? 0) = false).
  { rewrite FloatAxioms.eqb_spec, Hb. reflexivity. }
  unfold JSFloat.exponentiate.
  destruct size;
    match goal with
    | |- context [is_nan ?x] =>
        let v := eval vm_compute in x in change x with v
    end;
    cbv beta iota; rewrite Hnan, Hinf, Hninf, Hzero, Hneg;
    vm_compute; reflexivity.
Qed.
(** The capacity of both components as one expression in binary64. *)
Lemma float_capacity (approx : float -> float -> float) (d L : float)
    (size : PipeSize) :
  let cap :=
    JSFloat.floor
      (JSFloat.exponentiate approx
         (d / L / @tableCoeff float float_number size)
         (JSFloat.of_Q 1 / @tableExponent float float_number size))
    * JSFloat.of_Q 1000 in
  @AppV1.calculateCapacity float (float_number_with approx) d size L = cap /\
  @AppV2.calculateCapacity float (float_number_with approx) d size L =
    if L <=? 0 then 0 else cap.
Proof.
  unfold AppV1.calculateCapacity, AppV2.calculateCapacity.
  destruct size; split; reflexivity.
Qed.
End NaNFacts.

(** X25: a negative pressure gradient switches the capacity check off in
    [src/unnamed/part_002] and on for every pipe in [src/App.tsx].  In
    binary64, whatever the approximation of [Math.pow], when
    [pressureDrop / length / coeff] is negative and finite (a negative
    pressure drop over a positive length, say) the capacity of the pipe is
    [NaN]: [src/unnamed/part_002] then holds the pipe valid whatever its flow,
    unless it is larger than its feeder, and [src/App.tsx] holds it invalid
    whatever its flow. *)
Theorem negative_gradient_verdicts
    (approx : float -> float -> float) (s : AppState float)
    (E : AppEdge float) (f : float) :
  let base :=
    (pressureDrop s / edge_length E
     / @tableCoeff float float_number (edge_size E))%float in
  (base <? 0)%float = true -> (neg_infinity <? base)%float = true ->
  (edge_length E <=? 0)%float = false ->
  let vd1 := @verdictV1 float (float_number_with approx) s E f in
  let vd2 := @verdictV2 float (float_number_with approx) s E f in
  is_nan (capacity vd1) = true /\ is_nan (capacity vd2) = true /\
  isValid vd1 = negb (oversized (edges s) E) /\
  isValid vd2 = false.
Proof.
  intros base Hneg Hfin Hlen vd1 vd2.
  pose proof (exponentiate_negative approx base (edge_size E) Hneg Hfin)
    as Hpow.
  destruct (float_capacity approx (pressureDrop s) (edge_length E)
              (edge_size E)) as [H1 H2].
  fold base in H1, H2. rewrite Hpow in H1, H2. rewrite Hlen in H2.
  change (JSFloat.floor nan * JSFloat.of_Q 1000)%float with nan in H1, H2.
  assert (Hc1 : capacity vd1 = nan) by exact H1.
  assert (Hc2 : capacity vd2 = nan) by exact H2.
  split; [now rewrite Hc1|]. split; [now rewrite Hc2|].
  split.
  - destruct (@verdictV1_isValid float (float_number_with approx) s E f)
      as [Hval _]. fold vd1 in Hval. rewrite Hval, Hc1.
    cbn [gt float_number_with].
    destruct (is_nan_compare nan (flow vd1) eq_refl) as [-> _].
    reflexivity.
  - change (isValid vd2) with (PrimFloat.leb f (capacity vd2)).
    rewrite Hc2. now destruct (is_nan_compare nan f eq_refl) as [_ ->].
Qed.

Lemma negative_gradient_verdicts_witness :
  let S := setPressureDrop (-0.5)%float Samples.meter_to_heater in
  let E := Samples.pipe "e1" "M" "A" HALF 10 in
  isValid (verdictV1 S E 40000%float) = true /\
  isValid (verdictV2 S E 40000%float) = false.
Proof.
  intros S E.
  destruct (negative_gradient_verdicts JSFloat.pow_approx S E 40000%float)
    as (_ & _ & H1 & H2); try (vm_compute; reflexivity).
  split; [|exact H2].
  etransitivity; [exact H1|]. vm_compute. reflexivity.
Defined.
